(** * Form 16 field extraction ([file_return.js], [extractDetails])

    A shallow embedding of the field-extraction function of
    [src/file_return.js] together with the part of the ECMAScript
    regular-expression semantics (backtracking matcher, [String.prototype.match],
    [trim], anchored [replace]) that the function relies on. *)

From Stdlib Require Import List NArith Bool Arith Lia String Ascii.
Import ListNotations.
Local Open Scope list_scope.

(** ** Strings

    A JavaScript string is a sequence of UTF-16 code units. *)

Definition char := N.
Definition jsstring := list char.

(** Literals of the development are written as Rocq strings. *)
Definition lit (s : string) : jsstring :=
  map N_of_ascii (list_ascii_of_string s).

Definition LF : char := 10%N.

Definition chr (a : ascii) : char := N_of_ascii a.

Section CodeUnits.
Open Scope N_scope.

Definition in_range (lo hi c : char) : bool := (lo <=? c) && (c <=? hi).

Definition is_digit (c : char) : bool := in_range 48 57 c.
Definition is_upper (c : char) : bool := in_range 65 90 c.
Definition is_lower (c : char) : bool := in_range 97 122 c.

(** The class [[a-zA-Z0-9]] of the cleaning pattern. *)
Definition is_alnum (c : char) : bool := is_lower c || is_upper c || is_digit c.

(** LineTerminator: LF, CR, LS, PS. *)
Definition is_line_terminator (c : char) : bool :=
  (c =? 10) || (c =? 13) || (c =? 8232) || (c =? 8233).

(** WhiteSpace and LineTerminator code units: what [\s] matches and what
    [String.prototype.trim] removes. *)
Definition is_space (c : char) : bool :=
  in_range 9 13 c || (c =? 32) || (c =? 160) || (c =? 5760)
  || in_range 8192 8202 c || (c =? 8232) || (c =? 8233) || (c =? 8239)
  || (c =? 8287) || (c =? 12288) || (c =? 65279).

(** The other case variant of an ASCII letter. *)
Definition swapcase (c : char) : char :=
  if is_upper c then c + 32 else if is_lower c then c - 32 else c.

(** Canonicalize of the pattern semantics without the [u] flag.  A code unit
    at or above 128 is never folded to one below 128; every literal and class
    bound used by the patterns of this file is ASCII, so the folding of the
    upper range is not observable and is the identity here. *)
Definition canonicalize (ignoreCase : bool) (c : char) : char :=
  if ignoreCase && is_lower c then c - 32 else c.

End CodeUnits.

(** ** Patterns *)

(** Members of a character class. *)
Inductive citem : Type :=
| CChar (c : char)          (* a single character, [:] *)
| CRange (lo hi : char)     (* [A-Z] *)
| CDigit                    (* [\d] *)
| CSpace                    (* [\s] *)
| CNonSpace.                (* [\S] *)

Inductive regex : Type :=
| Eps                                            (* empty pattern *)
| Chr (c : char)                                 (* pattern character *)
| Dot                                            (* [.] without the s flag *)
| Class (invert : bool) (items : list citem)     (* [[...]], [[^...]], [\s], [\d] *)
| Seq (r1 r2 : regex)
| Alt (r1 r2 : regex)
| Quant (r : regex) (min : nat) (max : option nat) (greedy : bool)
| Cap (r : regex).                               (* the capturing group *)

(** Every pattern of the program has at most one capturing group, and only
    [match[1]] is read: the capture list is the single slot of group 1. *)
Definition captures := option jsstring.

Fixpoint has_cap (r : regex) : bool :=
  match r with
  | Eps | Chr _ | Dot | Class _ _ => false
  | Seq r1 r2 | Alt r1 r2 => has_cap r1 || has_cap r2
  | Quant r1 _ _ _ => has_cap r1
  | Cap _ => true
  end.

Definition item_has (it : citem) (c : char) : bool :=
  match it with
  | CChar a => N.eqb c a
  | CRange lo hi => in_range lo hi c
  | CDigit => is_digit c
  | CSpace => is_space c
  | CNonSpace => negb (is_space c)
  end.

Definition class_has (items : list citem) (c : char) : bool :=
  existsb (fun it => item_has it c) items.

(** ** The backtracking matcher *)

Section Matcher.

Variable ignoreCase : bool.

(** CharacterSetMatcher: some member of the class has the same canonical
    form as the input character.  For ASCII classes that is the character
    itself or its other case variant. *)
Definition class_match (invert : bool) (items : list citem) (c : char) : bool :=
  xorb invert (class_has items c || (ignoreCase && class_has items (swapcase c))).

Definition chr_match (a c : char) : bool :=
  N.eqb (canonicalize ignoreCase c) (canonicalize ignoreCase a).

Definition dot_match (c : char) : bool := negb (is_line_terminator c).

(** What a successful match reports: the length of [match[0]] and group 1. *)
Definition result : Type := (nat * captures)%type.

(** A continuation receives the number of code units consumed so far by the
    pattern it follows, the rest of the input and the captures. *)
Definition cont : Type := nat -> jsstring -> captures -> option result.

Definition one_char (p : char -> bool) (s : jsstring) (c : captures) (k : cont)
  : option result :=
  match s with
  | [] => None
  | ch :: s' => if p ch then k 1 s' c else None
  end.

Definition or_else (z : option result) (alt : option result) : option result :=
  match z with
  | Some x => Some x
  | None => alt
  end.

(** RepeatMatcher.  [body] matches the quantified atom; [reset] tells that the
    atom holds the capturing group, which each iteration clears; [acc] is what
    the previous iterations consumed.  Every iteration either uses up one of
    the [mn] mandatory rounds or consumes input, so [mn + length s] rounds of
    [fuel] are never exhausted (see [repeat_fuel]). *)
Fixpoint RepeatMatcher (body : jsstring -> captures -> cont -> option result)
    (reset : bool) (greedy : bool) (fuel mn : nat) (mx : option nat)
    (acc : nat) (s : jsstring) (c : captures) (k : cont) {struct fuel}
  : option result :=
  match mx with
  | Some 0 => k acc s c
  | _ =>
    match fuel with
    | 0 => k acc s c
    | S fuel' =>
      let d : cont := fun n s' c' =>
        if (mn =? 0) && (n =? 0) then None
        else RepeatMatcher body reset greedy fuel' (pred mn) (option_map pred mx)
               (acc + n) s' c' k in
      let cr := if reset then None else c in
      if negb (mn =? 0) then body s cr d
      else if greedy then or_else (body s cr d) (k acc s c)
      else or_else (k acc s c) (body s cr d)
    end
  end.

Fixpoint m (r : regex) (s : jsstring) (c : captures) (k : cont) {struct r}
  : option result :=
  match r with
  | Eps => k 0 s c
  | Chr a => one_char (chr_match a) s c k
  | Dot => one_char dot_match s c k
  | Class invert items => one_char (class_match invert items) s c k
  | Seq r1 r2 =>
      m r1 s c (fun n1 s1 c1 => m r2 s1 c1 (fun n2 s2 c2 => k (n1 + n2) s2 c2))
  | Alt r1 r2 => or_else (m r1 s c k) (m r2 s c k)
  | Quant r1 mn mx greedy =>
      RepeatMatcher (m r1) (has_cap r1) greedy (mn + List.length s) mn mx 0 s c k
  | Cap r1 => m r1 s c (fun n s' _ => k n s' (Some (firstn n s)))
  end.

Definition accept : cont := fun n _ c => Some (n, c).

(** One attempt of the pattern at the start of [s]. *)
Definition match_at (r : regex) (s : jsstring) : option result :=
  m r s None accept.

(** [String.prototype.match] with a pattern that has neither the g nor the
    y flag: the start indices are tried from left to right, the end of the
    input included; the answer is [(match[0], match[1])] or null. *)
Fixpoint String_match (s : jsstring) (r : regex)
  : option (jsstring * captures) :=
  match match_at r s with
  | Some (n, c) => Some (firstn n s, c)
  | None =>
    match s with
    | [] => None
    | _ :: s' => String_match s' r
    end
  end.

(** The pattern semantics in relational form: [sem r w c c'] says that [r]
    can match exactly the code units [w], turning the captures [c] into [c'].
    It lists what can match, without the priority order of the matcher. *)
Inductive sem : regex -> jsstring -> captures -> captures -> Prop :=
| sem_eps c : sem Eps [] c c
| sem_chr a ch c : chr_match a ch = true -> sem (Chr a) [ch] c c
| sem_dot ch c : dot_match ch = true -> sem Dot [ch] c c
| sem_class invert items ch c :
    class_match invert items ch = true -> sem (Class invert items) [ch] c c
| sem_seq r1 r2 w1 w2 c c1 c2 :
    sem r1 w1 c c1 -> sem r2 w2 c1 c2 -> sem (Seq r1 r2) (w1 ++ w2) c c2
| sem_alt_l r1 r2 w c c' : sem r1 w c c' -> sem (Alt r1 r2) w c c'
| sem_alt_r r1 r2 w c c' : sem r2 w c c' -> sem (Alt r1 r2) w c c'
| sem_quant_zero r mn g c : sem (Quant r mn (Some 0) g) [] c c
| sem_quant_done r mx g c : sem (Quant r 0 mx g) [] c c
| sem_quant_more r mn mx g w1 w2 c c1 c2 :
    mx <> Some 0 ->
    sem r w1 (if has_cap r then None else c) c1 ->
    (mn = 0 -> w1 <> []) ->
    sem (Quant r (pred mn) (option_map pred mx) g) w2 c1 c2 ->
    sem (Quant r mn mx g) (w1 ++ w2) c c2
| sem_cap r w c c' : sem r w c c' -> sem (Cap r) w c (Some w).

(** [w] is an occurrence of the pattern [r]. *)
Definition matches (r : regex) (w : jsstring) : Prop :=
  exists c c', sem r w c c'.

(** The text holds an occurrence of [r] somewhere. *)
Definition occurs (r : regex) (text : jsstring) : Prop :=
  exists pre w post, text = pre ++ w ++ post /\ matches r w.

End Matcher.

(** ** Cleaning *)

Fixpoint dropwhile (p : char -> bool) (s : jsstring) : jsstring :=
  match s with
  | [] => []
  | ch :: s' => if p ch then dropwhile p s' else s
  end.

Definition trim (s : jsstring) : jsstring :=
  rev (dropwhile is_space (rev (dropwhile is_space s))).

(** [/^[^a-zA-Z0-9]+/] (no flags), less its anchor. *)
Definition leading_junk : regex :=
  Quant (Class true [CRange (chr "a") (chr "z"); CRange (chr "A") (chr "Z");
                     CRange (chr "0") (chr "9")]) 1 None true.

(** [s.replace(/^.../, '')]: the anchor [^] holds at index 0 only, so the
    search succeeds at the first start index or not at all; the matched
    prefix is replaced by the empty string. *)
Definition replace_leading (r : regex) (s : jsstring) : jsstring :=
  match match_at false r s with
  | Some (n, _) => skipn n s
  | None => s
  end.

Definition clean (raw : jsstring) : jsstring :=
  trim (replace_leading leading_junk (trim raw)).

Definition NotFound : jsstring := lit "Not Found".

(** ** [extractDetails] *)

Definition seqs (rs : list regex) : regex := fold_right Seq Eps rs.

Definition word (w : string) : regex :=
  seqs (map (fun a => Chr (chr a)) (list_ascii_of_string w)).

(** [\s*] *)
Definition ws : regex := Quant (Class false [CSpace]) 0 None true.
(** [r?] *)
Definition opt (r : regex) : regex := Quant r 0 (Some 1) true.
(** [[\s\S]*?] *)
Definition gap : regex := Quant (Class false [CSpace; CNonSpace]) 0 None false.
(** [.*?] *)
Definition dots : regex := Quant Dot 0 None false.
(** [[:\-]?] *)
Definition colon_dash : regex := opt (Class false [CChar (chr ":"); CChar (chr "-")]).
(** [\d] *)
Definition digit : regex := Class false [CDigit].
(** [r{n}] *)
Definition times (n : nat) (r : regex) : regex := Quant r n (Some n) true.
(** [[A-Z0-9]] *)
Definition AZ09 : regex :=
  Class false [CRange (chr "A") (chr "Z"); CRange (chr "0") (chr "9")].

(** [const currencyRegex = /([\d,]+\.\d{2})/] *)
Definition currencyRegex : regex :=
  Cap (seqs [Quant (Class false [CDigit; CChar (chr ",")]) 1 None true;
             Chr (chr "."); times 2 digit]).

(** The label parts of the fifteen patterns, in the order of the object
    literal. *)
Definition label_employerName : regex :=
  seqs [word "Name"; ws; word "of"; ws; opt (seqs [word "the"; ws]); word "Employer"].
Definition label_TAN : regex := word "TAN".
Definition label_employerPAN : regex :=
  seqs [word "PAN"; ws; word "of"; ws; opt (seqs [word "the"; ws]); word "Deductor"].
Definition label_employeeName : regex :=
  seqs [word "Name"; ws; word "of"; ws; opt (seqs [word "the"; ws]); word "Employee"].
Definition label_employeePAN : regex :=
  seqs [word "PAN"; ws; word "of"; ws; opt (seqs [word "the"; ws]); word "Employee"].
Definition label_assessmentYear : regex :=
  seqs [word "Assessment"; ws; word "Year"].
Definition label_grossSalary : regex := seqs [word "Gross"; ws; word "Salary"].
Definition label_standardDeduction : regex :=
  seqs [word "Standard"; ws; word "Deduction"; dots; word "u/s"; ws; word "16(ia)"].
Definition label_professionalTax : regex :=
  seqs [Alt (seqs [word "Tax"; ws; word "on"; ws; word "employment"])
            (seqs [word "Professional"; ws; word "Tax"]);
        dots; word "u/s"; ws; word "16(iii)"].
Definition label_incomeChargeable : regex :=
  seqs [word "Income"; ws; word "chargeable"; ws; word "under"; ws; word "the";
        ws; word "head"; ws; word "'Salaries'"].
Definition label_totalDeductionsVIA : regex :=
  seqs [word "Aggregate"; ws; word "of"; ws; word "deductible"; ws; word "amount";
        ws; word "under"; ws; word "Chapter"; ws; word "VI-A"].
Definition label_totalTaxableIncome : regex :=
  seqs [word "Total"; ws; word "Taxable"; ws; word "Income"].
Definition label_taxOnTotalIncome : regex :=
  seqs [word "Tax"; ws; word "on"; ws; word "total"; ws; word "income"].
Definition label_cess : regex :=
  seqs [word "Health"; ws; word "and"; ws; word "Education"; ws; word "Cess"].
Definition label_totalTDS : regex :=
  seqs [word "Total"; ws; word "Tax"; ws; word "Deducted";
        opt (seqs [ws; word "at"; ws; word "Source"])].

(** [label [\s\S]*? anchor]: the two name patterns; no capturing group. *)
Definition name_rule (label : regex) (anchor : string) : regex :=
  Seq label (Seq gap (word anchor)).

(** [label \s*[:\-]?\s* ([A-Z0-9]{10})] *)
Definition separator : regex := seqs [ws; colon_dash; ws].
Definition id_rule (label : regex) : regex :=
  Seq label (Seq separator (Cap (times 10 AZ09))).

(** [Assessment\s*Year\s*[:\-]?\s*(\d{4}-\d{2,4})] *)
Definition year_rule : regex :=
  Seq label_assessmentYear
    (Seq separator
       (Cap (seqs [times 4 digit; Chr (chr "-"); Quant digit 2 (Some 4) true]))).

(** [new RegExp("label[\\s\\S]*?" + currencyRegex.source, "i")] *)
Definition money_rule (label : regex) : regex :=
  Seq label (Seq gap currencyRegex).

(** The closure [extract]: [text.match(regex)], then
    [match && match[1] ? match[1].trim().replace(...).trim() : "Not Found"].
    All patterns carry the [i] flag. *)
Definition extract (text : jsstring) (r : regex) : jsstring :=
  match String_match true text r with
  | Some (_, Some (ch :: raw)) => clean (ch :: raw)
  | _ => NotFound
  end.

(** The returned object: its properties in insertion order. *)
Definition object := list (string * jsstring).

Definition extractDetails (text : jsstring) : object :=
  [ (* file_return.js, line 116 *)
    ("employerName"%string, extract text (name_rule label_employerName "TAN"));
    (* file_return.js, line 117 *)
    ("TAN"%string, extract text (id_rule label_TAN));
    (* file_return.js, line 118 *)
    ("employerPAN"%string, extract text (id_rule label_employerPAN));
    (* file_return.js, line 119 *)
    ("employeeName"%string, extract text (name_rule label_employeeName "PAN"));
    (* file_return.js, line 120 *)
    ("employeePAN"%string, extract text (id_rule label_employeePAN));
    (* file_return.js, line 121 *)
    ("assessmentYear"%string, extract text year_rule);
    (* lines 125 to 135: the label, the gap and [currencyRegex.source] *)
    ("grossSalary"%string, extract text (money_rule label_grossSalary));
    ("standardDeduction"%string, extract text (money_rule label_standardDeduction));
    ("professionalTax"%string, extract text (money_rule label_professionalTax));
    ("incomeChargeable"%string, extract text (money_rule label_incomeChargeable));
    ("totalDeductionsVIA"%string, extract text (money_rule label_totalDeductionsVIA));
    ("totalTaxableIncome"%string, extract text (money_rule label_totalTaxableIncome));
    ("taxOnTotalIncome"%string, extract text (money_rule label_taxOnTotalIncome));
    ("cess"%string, extract text (money_rule label_cess));
    ("totalTDS"%string, extract text (money_rule label_totalTDS)) ].

(** Property read [obj[key]]; [None] is [undefined]. *)
Fixpoint get (key : string) (o : object) : option jsstring :=
  match o with
  | [] => None
  | (k, v) :: o' => if String.eqb k key then Some v else get key o'
  end.


(** ** Pattern objects and their state *)

(** A RegExp object: its pattern and flags, which never change, and
    [lastIndex], which [exec] reads and writes on an object with the g or
    the y flag. *)
Record RegExp : Type := {
  source : regex;
  ignoreCase : bool;
  global : bool;
  sticky : bool;
  lastIndex : nat
}.

(** The RegExp objects created so far; a reference is a position in the
    store. *)
Definition store : Type := list RegExp.

(** Code that reads and writes the store. *)
Definition St (A : Type) : Type := store -> A * store.

Definition ret {A : Type} (a : A) : St A := fun h => (a, h).

Definition bind {A B : Type} (x : St A) (f : A -> St B) : St B :=
  fun h => let (a, h') := x h in f a h'.

Notation "x <- c1 ;; c2" := (bind c1 (fun x => c2))
  (at level 61, c1 at next level, right associativity).

(** A regular expression literal, or [new RegExp(...)]: every evaluation
    creates a new object, with [lastIndex] 0. *)
Definition RegExpCreate (r : regex) (i g y : bool) : St nat :=
  fun h => (List.length h,
            h ++ [{| source := r; ignoreCase := i; global := g; sticky := y;
                     lastIndex := 0 |}]).

(** [regex.source]: the pattern of an object. *)
Definition Get_source (ref : nat) : St regex :=
  fun h => (match nth_error h ref with
            | Some R => source R
            | None => Eps
            end, h).

Definition Get_lastIndex (ref : nat) : St nat :=
  fun h => (match nth_error h ref with
            | Some R => lastIndex R
            | None => 0
            end, h).

Fixpoint set_lastIndex (ref n : nat) (h : store) : store :=
  match h, ref with
  | [], _ => []
  | R :: h', O =>
      {| source := source R; ignoreCase := ignoreCase R; global := global R;
         sticky := sticky R; lastIndex := n |} :: h'
  | R :: h', S ref' => R :: set_lastIndex ref' n h'
  end.

Definition Set_lastIndex (ref n : nat) : St unit :=
  fun h => (tt, set_lastIndex ref n h).

(** The array that [exec] or [match] returns: its elements, [None] for
    [undefined]. *)
Definition array : Type := list (option jsstring).

(** The loop of [RegExpBuiltinExec] over the start indices, from index [i]
    where the input still to read is [s]: the first index at which the
    pattern matches; with the y flag only [i] itself is tried. *)
Fixpoint search (ic : bool) (r : regex) (y : bool) (s : jsstring) (i : nat)
  : option (nat * result) :=
  match match_at ic r s with
  | Some res => Some (i, res)
  | None =>
      if y then None
      else match s with
           | [] => None
           | _ :: s' => search ic r y s' (S i)
           end
  end.

(** [RegExpBuiltinExec(R, S)]: the search starts at [lastIndex] when the
    object has the g or the y flag and at 0 otherwise; only with one of these
    flags is [lastIndex] written, the end of the match on success and 0 on
    failure.  The array holds the match and, when the pattern has a group,
    what group 1 captured. *)
Definition RegExpBuiltinExec (ref : nat) (str : jsstring) : St (option array) :=
  fun h =>
    match nth_error h ref with
    | None => (None, h)
    | Some R =>
        let moving := global R || sticky R in
        let start := if moving then lastIndex R else 0 in
        let failure := (None, if moving then set_lastIndex ref 0 h else h) in
        if List.length str <? start then failure
        else
          match search (ignoreCase R) (source R) (sticky R) (skipn start str) start with
          | None => failure
          | Some (i, (n, c)) =>
              (Some (Some (firstn n (skipn i str))
                       :: if has_cap (source R) then [c] else []),
               if moving then set_lastIndex ref (i + n) h else h)
          end
    end.

(** The loop of [RegExp.prototype[Symbol.match]] for an object with the g
    flag: [exec] until it answers null, collecting the matches in [A]; after
    an empty match [lastIndex] is advanced by one.  Every round moves
    [lastIndex] forward, so the rounds are fewer than [fuel], the length of
    the input plus two. *)
Fixpoint match_all (fuel : nat) (ref : nat) (str : jsstring) (A : list jsstring)
  : St (option array) :=
  match fuel with
  | O => ret None
  | S fuel' =>
      result <- RegExpBuiltinExec ref str ;;
      match result with
      | None => ret (match A with
                     | [] => None
                     | _ => Some (map Some (rev A))
                     end)
      | Some arr =>
          let matchStr := match arr with
                          | Some m0 :: _ => m0
                          | _ => []
                          end in
          _ <- match matchStr with
               | [] => thisIndex <- Get_lastIndex ref ;;
                       Set_lastIndex ref (S thisIndex)
               | _ => ret tt
               end ;;
          match_all fuel' ref str (matchStr :: A)
      end
  end.

(** [str.match(regex)] for a RegExp object: without the g flag the answer of
    [exec]; with it [lastIndex] is set to 0 and all matches are collected. *)
Definition String_prototype_match (str : jsstring) (ref : nat)
  : St (option array) :=
  fun h =>
    match nth_error h ref with
    | None => (None, h)
    | Some R =>
        if global R
        then (_ <- Set_lastIndex ref 0 ;;
              match_all (List.length str + 2) ref str []) h
        else RegExpBuiltinExec ref str h
    end.

(** [extractDetails] with its RegExp objects in the store. *)
Module Stateful.

(** The closure [extract] applied to a RegExp object:
    [match && match[1] ? match[1].trim().replace(...).trim() : "Not Found"]. *)
Definition extract (text : jsstring) (regex : nat) : St jsstring :=
  match_ <- String_prototype_match text regex ;;
  ret (match match_ with
       | Some arr =>
           match nth_error arr 1 with
           | Some (Some (ch :: raw)) => clean (ch :: raw)
           | _ => NotFound
           end
       | None => NotFound
       end).

(** [new RegExp(label + "[\\s\\S]*?" + currencyRegex.source, "i")]. *)
Definition money (label : regex) (currencyRegex_ : nat) : St nat :=
  src <- Get_source currencyRegex_ ;;
  RegExpCreate (Seq label (Seq gap src)) true false false.

(** The body of [extractDetails]: [currencyRegex] is created first, then
    each property of the object literal creates its pattern and applies
    [extract] to it, in the order of the literal. *)
Definition extractDetails (text : jsstring) : St object :=
  currencyRegex_ <- RegExpCreate currencyRegex false false false ;;
  (* file_return.js, line 116 *)
  r <- RegExpCreate (name_rule label_employerName "TAN") true false false ;;
  employerName <- extract text r ;;
  (* line 117 *)
  r <- RegExpCreate (id_rule label_TAN) true false false ;;
  TAN <- extract text r ;;
  (* line 118 *)
  r <- RegExpCreate (id_rule label_employerPAN) true false false ;;
  employerPAN <- extract text r ;;
  (* line 119 *)
  r <- RegExpCreate (name_rule label_employeeName "PAN") true false false ;;
  employeeName <- extract text r ;;
  (* line 120 *)
  r <- RegExpCreate (id_rule label_employeePAN) true false false ;;
  employeePAN <- extract text r ;;
  (* line 121 *)
  r <- RegExpCreate year_rule true false false ;;
  assessmentYear <- extract text r ;;
  (* lines 125 to 130 *)
  r <- money label_grossSalary currencyRegex_ ;;
  grossSalary <- extract text r ;;
  r <- money label_standardDeduction currencyRegex_ ;;
  standardDeduction <- extract text r ;;
  r <- money label_professionalTax currencyRegex_ ;;
  professionalTax <- extract text r ;;
  r <- money label_incomeChargeable currencyRegex_ ;;
  incomeChargeable <- extract text r ;;
  r <- money label_totalDeductionsVIA currencyRegex_ ;;
  totalDeductionsVIA <- extract text r ;;
  r <- money label_totalTaxableIncome currencyRegex_ ;;
  totalTaxableIncome <- extract text r ;;
  (* lines 133 to 135 *)
  r <- money label_taxOnTotalIncome currencyRegex_ ;;
  taxOnTotalIncome <- extract text r ;;
  r <- money label_cess currencyRegex_ ;;
  cess <- extract text r ;;
  r <- money label_totalTDS currencyRegex_ ;;
  totalTDS <- extract text r ;;
  ret [ ("employerName"%string, employerName);
        ("TAN"%string, TAN);
        ("employerPAN"%string, employerPAN);
        ("employeeName"%string, employeeName);
        ("employeePAN"%string, employeePAN);
        ("assessmentYear"%string, assessmentYear);
        ("grossSalary"%string, grossSalary);
        ("standardDeduction"%string, standardDeduction);
        ("professionalTax"%string, professionalTax);
        ("incomeChargeable"%string, incomeChargeable);
        ("totalDeductionsVIA"%string, totalDeductionsVIA);
        ("totalTaxableIncome"%string, totalTaxableIncome);
        ("taxOnTotalIncome"%string, taxOnTotalIncome);
        ("cess"%string, cess);
        ("totalTDS"%string, totalTDS) ].

End Stateful.

(** ** Vocabulary of the statements *)

(** The cleaning step in list form: the leading run that [leading_junk]
    removes is the run of code units outside [[a-zA-Z0-9]]. *)
Definition is_junk (c : char) : bool := negb (is_alnum c).

(** Nothing for the cleaning step to remove: no white space at either end and
    no leading character outside letters and digits. *)
Definition no_surrounding_space (v : jsstring) : Prop :=
  match v with
  | [] => True
  | ch :: _ => is_space ch = false /\ is_space (last v ch) = false
  end.

Definition no_leading_junk (v : jsstring) : Prop :=
  match v with
  | [] => True
  | ch :: _ => is_alnum ch = true
  end.

(** The strings of the Currency Pattern [[\d,]+\.\d{2}]. *)
Definition is_currency (w : jsstring) : Prop :=
  exists ds d1 d2,
    w = ds ++ [chr "."; d1; d2] /\ ds <> [] /\
    forallb (fun ch => is_digit ch || N.eqb ch (chr ",")) ds = true /\
    is_digit d1 = true /\ is_digit d2 = true.

(** The strings of [\s*[:\-]?\s*]: white space around at most one colon or
    dash. *)
Definition is_separator (w : jsstring) : Prop :=
  exists a o b,
    w = a ++ o ++ b /\ forallb is_space a = true /\ forallb is_space b = true /\
    (o = [] \/ o = [chr ":"] \/ o = [chr "-"]).

(** The strings of [\d{4}-\d{2,4}]. *)
Definition is_year (w : jsstring) : Prop :=
  exists y1 y2,
    w = y1 ++ [chr "-"] ++ y2 /\ List.length y1 = 4 /\
    2 <= List.length y2 <= 4 /\
    forallb is_digit y1 = true /\ forallb is_digit y2 = true.

(** The label a pattern starts with. *)
Definition rule_label (r : regex) : option regex :=
  match r with
  | Seq l _ => Some l
  | _ => None
  end.

(** What [extract] makes of [match[1]]. *)
Definition cleaned_or_sentinel (cap : captures) : jsstring :=
  match cap with
  | Some (ch :: raw) => clean (ch :: raw)
  | _ => NotFound
  end.

(** The text of the full-match scenario. *)
Definition acme_text : jsstring :=
  lit "Name of the Employer: Acme Corp TAN: ABCDE1234F".

(** A certificate text as the page linearizer delivers it. *)
Definition sample_text : jsstring :=
  lit "FORM NO. 16 Name of the Employer: Acme Corp TAN: DELH12345B PAN of the Deductor: AAACA1111A"
  ++ [LF] ++
  lit "Name of the Employee: R. Kumar PAN of the Employee : ABCDE1234F Assessment Year 2024-25"
  ++ [LF] ++
  lit "1. Gross Salary (a) Salary as per provisions contained in section 17(1) 12,34,567.00"
  ++ [LF] ++
  lit "(a) Standard deduction u/s 16(ia) 50,000.00 (c) Tax on employment u/s 16(iii) 2,400.00"
  ++ [LF] ++
  lit "Income chargeable under the head 'Salaries' 11,82,167.00 Total Tax Deducted at Source"
  ++ [LF] ++ lit "1,50,000.00".

(** Two wordings of the label of a field. *)
Definition label_wordings : list (string * (jsstring * jsstring)) :=
  [ ("employerName"%string, (lit "Name of Employer", lit "Name of the Employer"));
    ("employeeName"%string, (lit "Name of Employee", lit "Name of the Employee"));
    ("employerPAN"%string, (lit "PAN of Deductor", lit "PAN of the Deductor"));
    ("employeePAN"%string, (lit "PAN of Employee", lit "PAN of the Employee"));
    ("professionalTax"%string,
       (lit "Tax on employment u/s 16(iii)", lit "Professional Tax u/s 16(iii)"));
    ("totalTDS"%string,
       (lit "Total Tax Deducted", lit "Total Tax Deducted at Source")) ].

(** The pattern of each field, as [extractDetails] lists them. *)
Definition rules : list (string * regex) :=
  [ ("employerName"%string, name_rule label_employerName "TAN");
    ("TAN"%string, id_rule label_TAN);
    ("employerPAN"%string, id_rule label_employerPAN);
    ("employeeName"%string, name_rule label_employeeName "PAN");
    ("employeePAN"%string, id_rule label_employeePAN);
    ("assessmentYear"%string, year_rule);
    ("grossSalary"%string, money_rule label_grossSalary);
    ("standardDeduction"%string, money_rule label_standardDeduction);
    ("professionalTax"%string, money_rule label_professionalTax);
    ("incomeChargeable"%string, money_rule label_incomeChargeable);
    ("totalDeductionsVIA"%string, money_rule label_totalDeductionsVIA);
    ("totalTaxableIncome"%string, money_rule label_totalTaxableIncome);
    ("taxOnTotalIncome"%string, money_rule label_taxOnTotalIncome);
    ("cess"%string, money_rule label_cess);
    ("totalTDS"%string, money_rule label_totalTDS) ].

(** The label of each field. *)
Definition labels : list (string * regex) :=
  [ ("employerName"%string, label_employerName);
    ("TAN"%string, label_TAN);
    ("employerPAN"%string, label_employerPAN);
    ("employeeName"%string, label_employeeName);
    ("employeePAN"%string, label_employeePAN);
    ("assessmentYear"%string, label_assessmentYear);
    ("grossSalary"%string, label_grossSalary);
    ("standardDeduction"%string, label_standardDeduction);
    ("professionalTax"%string, label_professionalTax);
    ("incomeChargeable"%string, label_incomeChargeable);
    ("totalDeductionsVIA"%string, label_totalDeductionsVIA);
    ("totalTaxableIncome"%string, label_totalTaxableIncome);
    ("taxOnTotalIncome"%string, label_taxOnTotalIncome);
    ("cess"%string, label_cess);
    ("totalTDS"%string, label_totalTDS) ].

Definition identifier_fields : list string :=
  [ "TAN"; "employerPAN"; "employeePAN" ]%string.

Definition monetary_fields : list string :=
  [ "grossSalary"; "standardDeduction"; "professionalTax"; "incomeChargeable";
    "totalDeductionsVIA"; "totalTaxableIncome"; "taxOnTotalIncome"; "cess";
    "totalTDS" ]%string.

(** The canonical field keys, in the order of the report. *)
Definition canonical_keys : list string :=
  [ "employeeName"; "employeePAN"; "employerName"; "employerPAN"; "TAN";
    "assessmentYear"; "grossSalary"; "standardDeduction"; "professionalTax";
    "incomeChargeable"; "totalDeductionsVIA"; "totalTaxableIncome";
    "taxOnTotalIncome"; "cess"; "totalTDS" ]%string.

Fixpoint assoc {A : Type} (key : string) (l : list (string * A)) : option A :=
  match l with
  | [] => None
  | (k, v) :: l' => if String.eqb k key then Some v else assoc key l'
  end.

Fixpoint takewhile (p : char -> bool) (s : jsstring) : jsstring :=
  match s with
  | [] => []
  | ch :: s' => if p ch then ch :: takewhile p s' else []
  end.

(** Bounds of a quantifier that are in order: [min <= max]. *)
Definition le_opt (mn : nat) (mx : option nat) : Prop :=
  match mx with
  | None => True
  | Some n => mn <= n
  end.

(** A lower bound on the length of every occurrence of a pattern. *)
Fixpoint minlen (r : regex) : nat :=
  match r with
  | Eps => 0
  | Chr _ | Dot | Class _ _ => 1
  | Seq r1 r2 => minlen r1 + minlen r2
  | Alt r1 r2 => Nat.min (minlen r1) (minlen r2)
  | Quant r1 mn mx _ =>
      match mx with
      | None => mn * minlen r1
      | Some n => Nat.min mn n * minlen r1
      end
  | Cap r1 => minlen r1
  end.

(** The continuation that [RepeatMatcher] hands to the quantified atom: it
    refuses an empty optional iteration and goes on with the next round. *)
Definition next_round (body : jsstring -> captures -> cont -> option result)
    (reset greedy : bool) (fuel mn : nat) (mx : option nat) (acc : nat)
    (k : cont) : cont :=
  fun n s' c' =>
    if (mn =? 0) && (n =? 0) then None
    else RepeatMatcher body reset greedy fuel (pred mn) (option_map pred mx)
           (acc + n) s' c' k.

(** A pattern reaches its continuation only after a prefix of the input, with
    the length of that prefix: continuations that agree there are
    interchangeable. *)
Definition agree_from (acc : nat) (s : jsstring) (k k' : cont) : Prop :=
  forall w s' c', s = w ++ s' ->
    k (acc + List.length w) s' c' = k' (acc + List.length w) s' c'.

(** Whether a pattern fails does not depend on the captures, nor on what
    the continuation returns when it succeeds. *)
Definition same_failures (k k' : cont) : Prop :=
  forall n s' c1 c2, k n s' c1 = None <-> k' n s' c2 = None.

(** What the continuation returns on success is handed back untouched. *)
Definition maps_to (f : result -> result) (k k' : cont) : Prop :=
  forall n s' c', k' n s' c' = option_map f (k n s' c').

(** ** The rest of [file_return.js]: page text and report *)

Definition SP : char := 32%N.

(** [items.join(" ")]. *)
Fixpoint join (sep : jsstring) (items : list jsstring) : jsstring :=
  match items with
  | [] => []
  | [x] => x
  | x :: rest => x ++ sep ++ join sep rest
  end.

(** The loop over the pages of the change handler: a page is the list of the
    [str] of its text items; each round does
    [fullText += pageText + "\n"]. *)
Definition linearize (pages : list (list jsstring)) : jsstring :=
  fold_left (fun fullText items => fullText ++ (join [SP] items ++ [LF])) pages [].

(** The entries of [reportFields]. *)
Inductive report_field : Type :=
| Header (label : string)
| Field (key label : string).

Definition reportFields : list report_field :=
  [ Header "Personal & Employer Information";
    Field "employeeName" "Employee Name";
    Field "employeePAN" "Employee PAN";
    Field "employerName" "Employer Name";
    Field "employerPAN" "Employer PAN";
    Field "TAN" "TAN";
    Field "assessmentYear" "Assessment Year";
    Header "Income & Deductions";
    Field "grossSalary" "Gross Salary";
    Field "standardDeduction" "Standard Deduction u/s 16(ia)";
    Field "professionalTax" "Professional Tax u/s 16(iii)";
    Field "incomeChargeable" "Income Chargeable under Salaries";
    Field "totalDeductionsVIA" "Deductions under Chapter VI-A";
    Field "totalTaxableIncome" "Total Taxable Income";
    Header "Tax Calculation";
    Field "taxOnTotalIncome" "Tax on Total Income";
    Field "cess" "Health & Education Cess";
    Field "totalTDS" "Total Tax Deducted (TDS)" ]%string.

(** A row of the table body: a header cell spanning both columns with its
    [innerHTML], or a label cell and a value cell with their [textContent]. *)
Inductive row : Type :=
| HeaderRow (html : jsstring)
| ValueRow (label value : jsstring).

(** [data[field.key] || "Not Found"]: a missing key and an empty string both
    give the sentinel. *)
Definition or_not_found (v : option jsstring) : jsstring :=
  match v with
  | Some (ch :: rest) => ch :: rest
  | _ => NotFound
  end.

(** [displayReport]: the rows appended to the table body, in order. *)
Definition displayReport (data : object) : list row :=
  map (fun field =>
         match field with
         | Header label => HeaderRow (lit "<strong>" ++ lit label ++ lit "</strong>")
         | Field key label => ValueRow (lit label) (or_not_found (get key data))
         end) reportFields.

(** The keys the report reads. *)
Definition report_keys : list string :=
  flat_map (fun field => match field with
                         | Header _ => []
                         | Field key _ => [key]
                         end) reportFields.

(** ** [form_16_20255.js]: the key labels of [renderAnalysisReport] *)

(** [\w] is [[A-Za-z0-9_]]. *)
Definition is_word (c : char) : bool := is_alnum c || N.eqb c 95.

(** [l.toUpperCase()] on the one code unit a [\w] matched. *)
Definition toUpperCase1 (c : char) : char :=
  if is_lower c then (c - 32)%N else c.

(** [key.replace(/_/g, ' ')]. *)
Definition replace_underscores (s : jsstring) : jsstring :=
  map (fun c => if N.eqb c 95 then SP else c) s.

(** [s.replace(/\b\w/g, l => l.toUpperCase())]: a word character is replaced
    when the code unit before it is not a word character (or it is the
    first); [prev] tells whether the previous code unit was one. *)
Fixpoint capitalize_words (prev : bool) (s : jsstring) : jsstring :=
  match s with
  | [] => []
  | c :: s' =>
      (if is_word c && negb prev then toUpperCase1 c else c)
        :: capitalize_words (is_word c) s'
  end.

Definition prettify (key : jsstring) : jsstring :=
  capitalize_words false (replace_underscores key).

(** The data of the analysis: the own enumerable properties of the object in
    the order [for ... in] visits them, values as the text a cell shows;
    [None] is [null]. *)
Definition json_object := list (jsstring * jsstring).

(** What [renderAnalysisReport] leaves in the output element. *)
Inductive rendered : Type :=
| Message (text : jsstring)
| Table (rows : list (jsstring * jsstring)).

Definition renderAnalysisReport (data : option json_object) : rendered :=
  match data with
  | None | Some [] => Message (lit "No data was extracted from the document.")
  | Some props => Table (map (fun kv => (prettify (fst kv), snd kv)) props)
  end.

(** ** [form_16_20255.js]: the page and its click handlers *)

(** An uploaded file; the script only passes it on. *)
Inductive File : Type := file (name : jsstring) (content : list N).

(** A thrown value with its [name] and [message]. *)
Record error : Type := { name : jsstring; message : jsstring }.

(** [new Error(msg)]. *)
Definition Error_ (msg : jsstring) : error :=
  {| name := lit "Error"; message := msg |}.

(** [String(err)], that is [Error.prototype.toString]. *)
Definition String_ (err : error) : jsstring :=
  match name err, message err with
  | [], msg => msg
  | nm, [] => nm
  | nm, msg => nm ++ lit ": " ++ msg
  end.

(** A number in a template literal: its decimal digits. *)
Fixpoint uint_digits (d : Decimal.uint) : jsstring :=
  match d with
  | Decimal.Nil => []
  | Decimal.D0 d' => chr "0" :: uint_digits d'
  | Decimal.D1 d' => chr "1" :: uint_digits d'
  | Decimal.D2 d' => chr "2" :: uint_digits d'
  | Decimal.D3 d' => chr "3" :: uint_digits d'
  | Decimal.D4 d' => chr "4" :: uint_digits d'
  | Decimal.D5 d' => chr "5" :: uint_digits d'
  | Decimal.D6 d' => chr "6" :: uint_digits d'
  | Decimal.D7 d' => chr "7" :: uint_digits d'
  | Decimal.D8 d' => chr "8" :: uint_digits d'
  | Decimal.D9 d' => chr "9" :: uint_digits d'
  end.

Definition decimal (n : N) : jsstring := uint_digits (N.to_uint n).

(** What the page holds: the text of the status line, the content of the
    output element, the two variables of the script and the [disabled] flag
    of three buttons. *)
Record page : Type := {
  status : jsstring;
  output : rendered;
  lastAnalysisData : option json_object;
  lastUploadedFile : option File;
  btnGenerate_disabled : bool;
  btnShowOriginal_disabled : bool;
  btnDownloadPng_disabled : bool
}.

Definition setStatus (s : jsstring) (p : page) : page :=
  {| status := s; output := output p;
     lastAnalysisData := lastAnalysisData p;
     lastUploadedFile := lastUploadedFile p;
     btnGenerate_disabled := btnGenerate_disabled p;
     btnShowOriginal_disabled := btnShowOriginal_disabled p;
     btnDownloadPng_disabled := btnDownloadPng_disabled p |}.

Definition set_output (o : rendered) (p : page) : page :=
  {| status := status p; output := o;
     lastAnalysisData := lastAnalysisData p;
     lastUploadedFile := lastUploadedFile p;
     btnGenerate_disabled := btnGenerate_disabled p;
     btnShowOriginal_disabled := btnShowOriginal_disabled p;
     btnDownloadPng_disabled := btnDownloadPng_disabled p |}.

Definition set_lastAnalysisData (d : option json_object) (p : page) : page :=
  {| status := status p; output := output p;
     lastAnalysisData := d;
     lastUploadedFile := lastUploadedFile p;
     btnGenerate_disabled := btnGenerate_disabled p;
     btnShowOriginal_disabled := btnShowOriginal_disabled p;
     btnDownloadPng_disabled := btnDownloadPng_disabled p |}.

Definition set_lastUploadedFile (f : option File) (p : page) : page :=
  {| status := status p; output := output p;
     lastAnalysisData := lastAnalysisData p;
     lastUploadedFile := f;
     btnGenerate_disabled := btnGenerate_disabled p;
     btnShowOriginal_disabled := btnShowOriginal_disabled p;
     btnDownloadPng_disabled := btnDownloadPng_disabled p |}.

Definition set_btnGenerate (b : bool) (p : page) : page :=
  {| status := status p; output := output p;
     lastAnalysisData := lastAnalysisData p;
     lastUploadedFile := lastUploadedFile p;
     btnGenerate_disabled := b;
     btnShowOriginal_disabled := btnShowOriginal_disabled p;
     btnDownloadPng_disabled := btnDownloadPng_disabled p |}.

Definition set_btnShowOriginal (b : bool) (p : page) : page :=
  {| status := status p; output := output p;
     lastAnalysisData := lastAnalysisData p;
     lastUploadedFile := lastUploadedFile p;
     btnGenerate_disabled := btnGenerate_disabled p;
     btnShowOriginal_disabled := b;
     btnDownloadPng_disabled := btnDownloadPng_disabled p |}.

Definition set_btnDownloadPng (b : bool) (p : page) : page :=
  {| status := status p; output := output p;
     lastAnalysisData := lastAnalysisData p;
     lastUploadedFile := lastUploadedFile p;
     btnGenerate_disabled := btnGenerate_disabled p;
     btnShowOriginal_disabled := btnShowOriginal_disabled p;
     btnDownloadPng_disabled := b |}.

(** The page after the script has loaded: both variables are [null], the
    generate and the download button are disabled; the rest is as the HTML
    has it. *)
Definition initial (html_status : jsstring) (html_output : rendered)
    (html_show_disabled : bool) : page :=
  {| status := html_status; output := html_output;
     lastAnalysisData := None; lastUploadedFile := None;
     btnGenerate_disabled := true;
     btnShowOriginal_disabled := html_show_disabled;
     btnDownloadPng_disabled := true |}.

(** An [async] handler runs in pieces: from the click to its first [await],
    and from each [await] to the next.  A handler is the list of its pieces,
    each a change of the page; what the server or the PDF library answer is
    an argument. *)
Definition segments : Type := list (page -> page).

(** A handler run from a page with no other piece in between. *)
Definition run (segs : segments) (p : page) : page :=
  fold_left (fun q seg => seg q) segs p.

(** What [fetch] and the reading of the body give: [fetch] rejects, or there
    is a response with [ok], [status], [statusText] and a body that is read
    or fails to be. *)
Inductive fetched (A : Type) : Type :=
| Rejected (err : error)
| Response (ok : bool) (code : N) (statusText : jsstring) (body : error + A).
Arguments Rejected {A} err.
Arguments Response {A} ok code statusText body.

(** How the rendering of the first page ends. *)
Inductive render_outcome : Type :=
| RenderOk
| RenderFailed (err : error).

(** The [catch] of [uploadAndAnalyzePdf]. *)
Definition upload_failed (err : error) (p : page) : page :=
  set_btnGenerate true
    (set_lastAnalysisData None
       (setStatus (lit "Error: " ++ message err)
          (set_output (Message (String_ err)) p))).

(** [uploadAndAnalyzePdf]; [selected] is [pdfUploadEl.files[0]], with [None]
    also for a missing input element. *)
Definition uploadAndAnalyzePdf (selected : option File)
    (reply : fetched (option json_object)) : segments :=
  match selected with
  | None => [setStatus (lit "Please select a PDF file to analyze.")]
  | Some f =>
      (fun p => set_output (Message [])
                  (setStatus (lit "Uploading and analyzing PDF...")
                     (set_lastUploadedFile (Some f) p)))
      :: match reply with
         | Rejected err => [upload_failed err]
         | Response false code statusText _ =>
             [upload_failed
                (Error_ (lit "Analysis failed: " ++ decimal code ++ [SP] ++ statusText))]
         | Response true _ _ (inl err) => [(fun p => p); upload_failed err]
         | Response true _ _ (inr data) =>
             [(fun p => p);
              (fun p => set_btnShowOriginal false
                          (set_btnGenerate false
                             (setStatus (lit "Analysis complete. See the report below.")
                                (set_output (renderAnalysisReport data)
                                   (set_lastAnalysisData data p)))))]
         end
  end.

(** [renderPdfUrlToCanvas]: the first piece runs inside the caller's. *)
Definition renderPdfUrlToCanvas (r : render_outcome) : segments :=
  [ setStatus (lit "Rendering PDF preview...");
    match r with
    | RenderOk =>
        fun p => set_btnDownloadPng false (setStatus (lit "Preview rendered.") p)
    | RenderFailed err =>
        fun p => set_btnDownloadPng true
                   (setStatus (lit "Error rendering PDF preview: " ++ message err) p)
    end ].

(** [generatePdfAndPreview], started on page [p]. *)
Definition generatePdfAndPreview (reply : fetched unit) (r : render_outcome)
    (p : page) : segments :=
  match lastAnalysisData p with
  | None => [setStatus (lit "You must analyze a document first.")]
  | Some _ =>
      setStatus (lit "Generating summary PDF on the server...")
      :: match reply with
         | Rejected err => [setStatus (lit "Error: " ++ message err)]
         | Response false _ statusText _ =>
             [setStatus (lit "Error: " ++ lit "Failed to generate PDF: " ++ statusText)]
         | Response true _ _ (inl err) =>
             [(fun q => q); setStatus (lit "Error: " ++ message err)]
         | Response true _ _ (inr _) =>
             (fun q => q) :: renderPdfUrlToCanvas r
               ++ [setStatus (lit "Generated PDF preview is ready.")]
         end
  end.

(** [showUploadedPdf], started on page [p]. *)
Definition showUploadedPdf (r : render_outcome) (p : page) : segments :=
  match lastUploadedFile p with
  | None => [setStatus (lit "Please upload a PDF file first.")]
  | Some _ =>
      setStatus (lit "Loading uploaded PDF...")
      :: renderPdfUrlToCanvas r
      ++ [setStatus (lit "Uploaded PDF is shown in the preview canvas.")]
  end.

(** [downloadCanvasAsPng]. *)
Definition downloadCanvasAsPng : segments :=
  [setStatus (lit "PNG preview downloaded.")].

(** A click on one of the four buttons, with what the outside answers, and
    the listener attached to it. *)
Inductive event : Type :=
| ClickFetch (selected : option File) (reply : fetched (option json_object))
| ClickGenerate (reply : fetched unit) (r : render_outcome)
| ClickShowOriginal (r : render_outcome)
| ClickDownloadPng.

Definition listener (e : event) (p : page) : segments :=
  match e with
  | ClickFetch selected reply => uploadAndAnalyzePdf selected reply
  | ClickGenerate reply r => generatePdfAndPreview reply r p
  | ClickShowOriginal r => showUploadedPdf r p
  | ClickDownloadPng => downloadCanvasAsPng
  end.

(** The pages the script can reach, with the pieces still to run of the
    handlers under way: a click runs the first piece of its listener at once,
    and any handler under way may run its next piece; the pieces of different
    handlers interleave in any order. *)
Inductive reach (p0 : page) : page -> list segments -> Prop :=
| reach_start : reach p0 p0 []
| reach_click e p tasks seg rest :
    reach p0 p tasks -> listener e p = seg :: rest ->
    reach p0 (seg p) (rest :: tasks)
| reach_resume p tasks1 seg rest tasks2 :
    reach p0 p (tasks1 ++ (seg :: rest) :: tasks2) ->
    reach p0 (seg p) (tasks1 ++ rest :: tasks2).

(** ** Vocabulary of the further properties *)

(** ASCII upper-casing of a text. *)
Definition upcase (s : jsstring) : jsstring := map (canonicalize true) s.

(** A match result and a pair of continuations under upper-casing. *)
Definition upcase_result (res : result) : result :=
  (fst res, option_map upcase (snd res)).

Definition upcase_related (k k' : cont) : Prop :=
  forall n s' c',
    k' n (upcase s') (option_map upcase c') = option_map upcase_result (k n s' c').

(** The full wording of the label of each identifier field. *)
Definition identifier_wordings : list (string * jsstring) :=
  [ ("TAN"%string, lit "TAN");
    ("employerPAN"%string, lit "PAN of the Deductor");
    ("employeePAN"%string, lit "PAN of the Employee") ].

(** The full wording of the label of each monetary field. *)
Definition amount_wordings : list (string * jsstring) :=
  [ ("grossSalary"%string, lit "Gross Salary");
    ("standardDeduction"%string, lit "Standard Deduction u/s 16(ia)");
    ("professionalTax"%string, lit "Professional Tax u/s 16(iii)");
    ("incomeChargeable"%string, lit "Income chargeable under the head 'Salaries'");
    ("totalDeductionsVIA"%string,
       lit "Aggregate of deductible amount under Chapter VI-A");
    ("totalTaxableIncome"%string, lit "Total Taxable Income");
    ("taxOnTotalIncome"%string, lit "Tax on total income");
    ("cess"%string, lit "Health and Education Cess");
    ("totalTDS"%string, lit "Total Tax Deducted at Source") ].

(** While analysis data is held, generating and showing are possible. *)
Definition ready (p : page) : Prop :=
  lastAnalysisData p <> None ->
  btnGenerate_disabled p = false /\ btnShowOriginal_disabled p = false /\
  lastUploadedFile p <> None.

(** A piece that keeps [ready] once a file has been uploaded. *)
Definition later_piece (seg : page -> page) : Prop :=
  forall q, lastUploadedFile q <> None -> ready q ->
            ready (seg q) /\ lastUploadedFile (seg q) <> None.

(** The pattern starts with a letter or digit of its own. *)
Fixpoint starts_with_alnum (r : regex) : bool :=
  match r with
  | Chr a => is_alnum a
  | Seq r1 _ => starts_with_alnum r1
  | Alt r1 r2 => starts_with_alnum r1 && starts_with_alnum r2
  | Cap r1 => starts_with_alnum r1
  | _ => false
  end.

(** [Standard\s*Deduction] and [u/s\s*16\(ia\)], the two ends of the label
    of [standardDeduction]. *)
Definition head_standardDeduction : regex :=
  seqs [word "Standard"; ws; word "Deduction"].
Definition section_16ia : regex := seqs [word "u/s"; ws; word "16(ia)"].

(** The shape of a cleaned amount: two digits, or a digit, digits and
    commas, a dot and two digits. *)
Definition is_amount (v : jsstring) : Prop :=
  exists body d1 d2,
    v = body ++ [d1; d2] /\ is_digit d1 = true /\ is_digit d2 = true /\
    (body = [] \/
     exists d ints, body = d :: ints ++ [chr "."] /\ is_digit d = true /\
                    forallb (fun ch => is_digit ch || N.eqb ch (chr ",")) ints = true).

(** * Facts about the matcher *)

Section MatcherFacts.

Variable ic : bool.

Lemma or_else_some (z alt : option result) (x : result) :
  or_else z alt = Some x -> z = Some x \/ (z = None /\ alt = Some x).
Proof. destruct z; simpl; intros H; [left | right]; auto. Qed.

Lemma or_else_none (z alt : option result) :
  or_else z alt = None <-> z = None /\ alt = None.
Proof. destruct z; simpl; split; intros H; try tauto; try discriminate; destruct H; discriminate. Qed.

Lemma one_char_some p s c k res :
  one_char p s c k = Some res ->
  exists ch s', s = ch :: s' /\ p ch = true /\ k 1 s' c = Some res.
Proof.
  destruct s as [|ch s']; simpl; [discriminate|].
  destruct (p ch) eqn:E; [|discriminate].
  intros H; exists ch, s'; auto.
Qed.

(** The equations of [RepeatMatcher]. *)
Lemma RepeatMatcher_stop body reset g fuel mn acc s c k :
  RepeatMatcher body reset g fuel mn (Some 0) acc s c k = k acc s c.
Proof. destruct fuel; reflexivity. Qed.

Lemma RepeatMatcher_out body reset g mn mx acc s c k :
  RepeatMatcher body reset g 0 mn mx acc s c k = k acc s c.
Proof. destruct mx as [[|?]|]; reflexivity. Qed.

Lemma RepeatMatcher_step body reset g fuel mn mx acc s c k :
  mx <> Some 0 ->
  RepeatMatcher body reset g (S fuel) mn mx acc s c k
  = if negb (mn =? 0)
    then body s (if reset then None else c)
           (next_round body reset g fuel mn mx acc k)
    else if g
    then or_else (body s (if reset then None else c)
                    (next_round body reset g fuel mn mx acc k))
                 (k acc s c)
    else or_else (k acc s c)
                 (body s (if reset then None else c)
                    (next_round body reset g fuel mn mx acc k)).
Proof. intros H. destruct mx as [[|?]|]; [congruence | reflexivity | reflexivity]. Qed.

Lemma max_zero_dec (mx : option nat) : {mx = Some 0} + {mx <> Some 0}.
Proof. destruct mx as [[|?]|]; [left; reflexivity | right; discriminate | right; discriminate]. Qed.

(** Soundness of the atom carries over to the quantifier. *)
Lemma repeat_sound (body : jsstring -> captures -> cont -> option result)
    (r1 : regex) (g : bool) :
  (forall s c k res, body s c k = Some res ->
     exists w s' c', s = w ++ s' /\ sem ic r1 w c c' /\
                     k (List.length w) s' c' = Some res) ->
  forall fuel mn mx acc s c k res,
    mn <= fuel ->
    RepeatMatcher body (has_cap r1) g fuel mn mx acc s c k = Some res ->
    exists w s' c', s = w ++ s' /\ sem ic (Quant r1 mn mx g) w c c' /\
                    k (acc + List.length w) s' c' = Some res.
Proof.
  intros Hbody.
  assert (Hstop : forall mn mx acc s c (k : cont) res,
             (mn = 0 \/ mx = Some 0) -> k acc s c = Some res ->
             exists w s' c', s = w ++ s' /\ sem ic (Quant r1 mn mx g) w c c' /\
                             k (acc + List.length w) s' c' = Some res).
  { intros mn mx acc s c k res Hz Hk. exists [], s, c. simpl.
    rewrite Nat.add_0_r. repeat split; auto.
    destruct Hz as [-> | ->]; constructor. }
  induction fuel as [|fuel IH]; intros mn mx acc s c k res Hle H.
  - rewrite RepeatMatcher_out in H. apply Hstop; [left; lia | exact H].
  - destruct (max_zero_dec mx) as [-> | Hmx].
    { rewrite RepeatMatcher_stop in H. apply Hstop; auto. }
    rewrite RepeatMatcher_step in H by exact Hmx.
    assert (Hstep : forall x,
      body s (if has_cap r1 then None else c)
        (next_round body (has_cap r1) g fuel mn mx acc k) = Some x ->
      exists w s' c', s = w ++ s' /\ sem ic (Quant r1 mn mx g) w c c' /\
                      k (acc + List.length w) s' c' = Some x).
    { intros x Hb. apply Hbody in Hb.
      destruct Hb as (w1 & s1 & c1 & -> & Hs1 & Hd). unfold next_round in Hd.
      destruct ((mn =? 0) && (List.length w1 =? 0)) eqn:Echk; [discriminate|].
      apply IH in Hd; [|lia].
      destruct Hd as (w2 & s2 & c2 & -> & Hs2 & Hk).
      exists (w1 ++ w2), s2, c2. rewrite <- app_assoc. split; [reflexivity|].
      split.
      - apply sem_quant_more with (c1 := c1); auto.
        intros -> ->. simpl in Echk. discriminate.
      - rewrite length_app, Nat.add_assoc. exact Hk. }
    destruct (mn =? 0) eqn:Emn; simpl in H.
    + apply Nat.eqb_eq in Emn.
      destruct g; apply or_else_some in H; destruct H as [H | [_ H]];
        try (apply Hstep; exact H); apply Hstop; auto.
    + apply Hstep; exact H.
Qed.

Theorem m_sound (r : regex) :
  forall s c k res,
    m ic r s c k = Some res ->
    exists w s' c', s = w ++ s' /\ sem ic r w c c' /\
                    k (List.length w) s' c' = Some res.
Proof.
  induction r as [|a| |inv items|r1 IH1 r2 IH2|r1 IH1 r2 IH2|r1 IH1 mn mx g|r1 IH1];
    intros s c k res H; simpl in H.
  - exists [], s, c. repeat split; auto. constructor.
  - apply one_char_some in H. destruct H as (ch & s' & -> & Hp & Hk).
    exists [ch], s', c. repeat split; auto. constructor; auto.
  - apply one_char_some in H. destruct H as (ch & s' & -> & Hp & Hk).
    exists [ch], s', c. repeat split; auto. constructor; auto.
  - apply one_char_some in H. destruct H as (ch & s' & -> & Hp & Hk).
    exists [ch], s', c. repeat split; auto. constructor; auto.
  - apply IH1 in H. destruct H as (w1 & s1 & c1 & -> & Hs1 & H).
    apply IH2 in H. destruct H as (w2 & s2 & c2 & -> & Hs2 & H).
    exists (w1 ++ w2), s2, c2. rewrite <- app_assoc, length_app.
    repeat split; auto. econstructor; eauto.
  - apply or_else_some in H. destruct H as [H | [_ H]].
    + apply IH1 in H. destruct H as (w & s' & c' & -> & Hs & H).
      exists w, s', c'. repeat split; auto. apply sem_alt_l; auto.
    + apply IH2 in H. destruct H as (w & s' & c' & -> & Hs & H).
      exists w, s', c'. repeat split; auto. apply sem_alt_r; auto.
  - apply (repeat_sound (m ic r1) r1 g IH1) in H; [|lia].
    exact H.
  - apply IH1 in H. destruct H as (w & s' & c' & -> & Hs & H).
    rewrite firstn_app, Nat.sub_diag, firstn_all in H. simpl in H.
    rewrite app_nil_r in H.
    exists w, s', (Some w). repeat split; auto. econstructor; eauto.
Qed.

Lemma one_char_ext p s c k k' :
  agree_from 0 s k k' -> one_char p s c k = one_char p s c k'.
Proof.
  intros H. destruct s as [|ch s']; simpl; [reflexivity|].
  destruct (p ch); [|reflexivity]. apply (H [ch] s' c). reflexivity.
Qed.

Lemma repeat_ext (body : jsstring -> captures -> cont -> option result)
    (reset g : bool) :
  (forall s c k k', agree_from 0 s k k' -> body s c k = body s c k') ->
  forall fuel mn mx acc s c k k',
    agree_from acc s k k' ->
    RepeatMatcher body reset g fuel mn mx acc s c k
    = RepeatMatcher body reset g fuel mn mx acc s c k'.
Proof.
  intros Hbody. induction fuel as [|fuel IH]; intros mn mx acc s c k k' Hk;
    pose proof (Hk [] s c eq_refl) as E; simpl in E; rewrite Nat.add_0_r in E.
  - rewrite !RepeatMatcher_out. exact E.
  - destruct (max_zero_dec mx) as [-> | Hmx].
    { rewrite !RepeatMatcher_stop. exact E. }
    rewrite !RepeatMatcher_step by exact Hmx.
    assert (Hd : forall cr,
      body s cr (next_round body reset g fuel mn mx acc k)
      = body s cr (next_round body reset g fuel mn mx acc k')).
    { intros cr. apply Hbody. intros w1 s1 c1 ->. unfold next_round. simpl.
      destruct ((mn =? 0) && (List.length w1 =? 0)); [reflexivity|].
      apply IH. intros w2 s2 c2 ->.
      specialize (Hk (w1 ++ w2) s2 c2). rewrite length_app, Nat.add_assoc in Hk.
      apply Hk. rewrite app_assoc. reflexivity. }
    rewrite Hd, E. reflexivity.
Qed.

Lemma m_ext (r : regex) :
  forall s c k k', agree_from 0 s k k' -> m ic r s c k = m ic r s c k'.
Proof.
  induction r as [|a| |inv items|r1 IH1 r2 IH2|r1 IH1 r2 IH2|r1 IH1 mn mx g|r1 IH1];
    intros s c k k' Hk; simpl.
  - apply (Hk [] s c). reflexivity.
  - apply one_char_ext; auto.
  - apply one_char_ext; auto.
  - apply one_char_ext; auto.
  - apply IH1. intros w1 s1 c1 ->. simpl. apply IH2. intros w2 s2 c2 ->. simpl.
    specialize (Hk (w1 ++ w2) s2 c2). rewrite length_app in Hk. simpl in Hk.
    apply Hk. rewrite app_assoc. reflexivity.
  - rewrite (IH1 s c k k' Hk), (IH2 s c k k' Hk). reflexivity.
  - apply repeat_ext; auto.
  - apply IH1. intros w s' c' ->. simpl.
    specialize (Hk w s' (Some (firstn (List.length w) (w ++ s')))). simpl in Hk.
    apply Hk. reflexivity.
Qed.

(** A pattern succeeds only through its continuation. *)
Lemma m_fail (r : regex) s c : m ic r s c (fun _ _ _ => None) = None.
Proof.
  destruct (m ic r s c (fun _ _ _ => None)) as [res|] eqn:E; [|reflexivity].
  apply m_sound in E. destruct E as (w & s' & c' & _ & _ & E). discriminate.
Qed.

(** The fuel of the quantifier is never exhausted: one more round changes
    nothing once the fuel covers [mn + length s]. *)
Lemma repeat_fuel_S (r1 : regex) (reset g : bool) :
  forall fuel mn mx acc s c k,
    mn + List.length s <= fuel ->
    RepeatMatcher (m ic r1) reset g fuel mn mx acc s c k
    = RepeatMatcher (m ic r1) reset g (S fuel) mn mx acc s c k.
Proof.
  induction fuel as [|fuel IH]; intros mn mx acc s c k Hle;
    (destruct (max_zero_dec mx) as [-> | Hmx];
     [rewrite !RepeatMatcher_stop; reflexivity|]).
  - (* no round is left and no input: the atom cannot make progress *)
    assert (mn = 0) as -> by lia.
    assert (s = []) as -> by (destruct s; simpl in Hle; [reflexivity | lia]).
    rewrite RepeatMatcher_out, RepeatMatcher_step by exact Hmx.
    assert (Hb : forall cr,
      m ic r1 [] cr (next_round (m ic r1) reset g 0 0 mx acc k) = None).
    { intros cr. rewrite <- (m_fail r1 [] cr) at 1. apply m_ext.
      intros w s' c' Hw. symmetry in Hw. apply app_eq_nil in Hw.
      destruct Hw as [-> ->]. reflexivity. }
    simpl. rewrite Hb. destruct g; simpl; [reflexivity|].
    destruct (k acc [] c); reflexivity.
  - rewrite !RepeatMatcher_step by exact Hmx.
    assert (Hd : forall cr,
      m ic r1 s cr (next_round (m ic r1) reset g fuel mn mx acc k)
      = m ic r1 s cr (next_round (m ic r1) reset g (S fuel) mn mx acc k)).
    { intros cr. apply m_ext. intros w1 s1 c1 ->. unfold next_round. simpl.
      destruct ((mn =? 0) && (List.length w1 =? 0)) eqn:E; [reflexivity|].
      apply IH. rewrite length_app in Hle.
      apply andb_false_iff in E. destruct E as [E | E];
        apply Nat.eqb_neq in E; lia. }
    rewrite Hd. reflexivity.
Qed.

Theorem repeat_fuel (r1 : regex) (reset g : bool) mn mx acc s c k :
  forall extra,
    RepeatMatcher (m ic r1) reset g (mn + List.length s + extra) mn mx acc s c k
    = RepeatMatcher (m ic r1) reset g (mn + List.length s) mn mx acc s c k.
Proof.
  induction extra as [|extra IH].
  - rewrite Nat.add_0_r. reflexivity.
  - rewrite Nat.add_succ_r, <- repeat_fuel_S by lia. exact IH.
Qed.

Lemma one_char_fail_ext p s c c' k k' :
  same_failures k k' ->
  one_char p s c k = None <-> one_char p s c' k' = None.
Proof.
  intros H. destruct s as [|ch s']; simpl; [tauto|].
  destruct (p ch); [apply H | tauto].
Qed.

Lemma repeat_fail_ext (body : jsstring -> captures -> cont -> option result)
    (reset g : bool) :
  (forall s c c' k k', same_failures k k' ->
     body s c k = None <-> body s c' k' = None) ->
  forall fuel mn mx acc s c c' k k',
    same_failures k k' ->
    RepeatMatcher body reset g fuel mn mx acc s c k = None
    <-> RepeatMatcher body reset g fuel mn mx acc s c' k' = None.
Proof.
  intros Hbody. induction fuel as [|fuel IH]; intros mn mx acc s c c' k k' Hk;
    pose proof (Hk acc s c c') as Hk0.
  - rewrite !RepeatMatcher_out. exact Hk0.
  - destruct (max_zero_dec mx) as [-> | Hmx].
    { rewrite !RepeatMatcher_stop. exact Hk0. }
    rewrite !RepeatMatcher_step by exact Hmx.
    assert (Hd : forall cr cr',
      body s cr (next_round body reset g fuel mn mx acc k) = None
      <-> body s cr' (next_round body reset g fuel mn mx acc k') = None).
    { intros cr cr'. apply Hbody. intros n s1 c1 c2. unfold next_round.
      destruct ((mn =? 0) && (n =? 0)); [tauto|]. apply IH; auto. }
    destruct (negb (mn =? 0)); [apply Hd|].
    destruct g; rewrite !or_else_none, Hk0,
      (Hd (if reset then None else c) (if reset then None else c')); tauto.
Qed.

Lemma m_fail_ext (r : regex) :
  forall s c c' k k',
    same_failures k k' -> m ic r s c k = None <-> m ic r s c' k' = None.
Proof.
  induction r as [|a| |inv items|r1 IH1 r2 IH2|r1 IH1 r2 IH2|r1 IH1 mn mx g|r1 IH1];
    intros s c c' k k' Hk; simpl.
  - apply Hk.
  - apply one_char_fail_ext; auto.
  - apply one_char_fail_ext; auto.
  - apply one_char_fail_ext; auto.
  - apply IH1. intros n1 s1 c1 c2. apply IH2. intros n2 s2 c3 c4. apply Hk.
  - rewrite !or_else_none, (IH1 s c c' k k' Hk), (IH2 s c c' k k' Hk). tauto.
  - apply repeat_fail_ext; auto.
  - apply IH1. intros n s' c1 c2. apply Hk.
Qed.

Lemma or_else_map (f : result -> result) z alt :
  or_else (option_map f z) (option_map f alt) = option_map f (or_else z alt).
Proof. destruct z; reflexivity. Qed.

Lemma one_char_map f p s c k k' :
  maps_to f k k' -> one_char p s c k' = option_map f (one_char p s c k).
Proof.
  intros H. destruct s as [|ch s']; simpl; [reflexivity|].
  destruct (p ch); [apply H | reflexivity].
Qed.

Lemma repeat_map (body : jsstring -> captures -> cont -> option result)
    (reset g : bool) (f : result -> result) :
  (forall s c k k', maps_to f k k' -> body s c k' = option_map f (body s c k)) ->
  forall fuel mn mx acc s c k k',
    maps_to f k k' ->
    RepeatMatcher body reset g fuel mn mx acc s c k'
    = option_map f (RepeatMatcher body reset g fuel mn mx acc s c k).
Proof.
  intros Hbody. induction fuel as [|fuel IH]; intros mn mx acc s c k k' Hk.
  - rewrite !RepeatMatcher_out. apply Hk.
  - destruct (max_zero_dec mx) as [-> | Hmx].
    { rewrite !RepeatMatcher_stop. apply Hk. }
    rewrite !RepeatMatcher_step by exact Hmx.
    assert (Hd : forall cr,
      body s cr (next_round body reset g fuel mn mx acc k')
      = option_map f (body s cr (next_round body reset g fuel mn mx acc k))).
    { intros cr. apply Hbody. intros n s1 c1. unfold next_round.
      destruct ((mn =? 0) && (n =? 0)); [reflexivity|]. apply IH; auto. }
    destruct (negb (mn =? 0)); [apply Hd|].
    destruct g; rewrite Hd, (Hk acc s c); apply or_else_map.
Qed.

Lemma m_map (f : result -> result) (r : regex) :
  forall s c k k',
    maps_to f k k' -> m ic r s c k' = option_map f (m ic r s c k).
Proof.
  induction r as [|a| |inv items|r1 IH1 r2 IH2|r1 IH1 r2 IH2|r1 IH1 mn mx g|r1 IH1];
    intros s c k k' Hk; simpl.
  - apply Hk.
  - apply one_char_map; auto.
  - apply one_char_map; auto.
  - apply one_char_map; auto.
  - apply IH1. intros n1 s1 c1. apply IH2. intros n2 s2 c2. apply Hk.
  - rewrite (IH1 s c k k' Hk), (IH2 s c k k' Hk). apply or_else_map.
  - apply repeat_map; auto.
  - apply IH1. intros n s' c'. apply Hk.
Qed.

(** A lazy repetition of a character class stops at the first place where
    the rest of the pattern succeeds. *)
Lemma repeat_lazy_first inv items :
  forall fuel acc s c (k : cont) res,
    RepeatMatcher (m ic (Class inv items)) false false fuel 0 None acc s c k = Some res ->
    exists g s2,
      s = g ++ s2 /\ k (acc + List.length g) s2 c = Some res /\
      forall j, j < List.length g -> k (acc + j) (skipn j s) c = None.
Proof.
  induction fuel as [|fuel IH]; intros acc s c k res H.
  - simpl in H. exists [], s. simpl. rewrite Nat.add_0_r.
    repeat split; auto. intros j Hj. lia.
  - simpl in H. apply or_else_some in H. destruct H as [H | [Hk H]].
    + exists [], s. simpl. rewrite Nat.add_0_r.
      repeat split; auto. intros j Hj. lia.
    + apply one_char_some in H. destruct H as (ch & s' & -> & _ & H).
      simpl in H. apply IH in H. destruct H as (g & s2 & -> & Hres & Hfirst).
      exists (ch :: g), s2. simpl. repeat split.
      * rewrite <- Hres. f_equal. lia.
      * intros [|j] Hj; simpl.
        -- rewrite Nat.add_0_r. exact Hk.
        -- replace (acc + S j) with (acc + 1 + j) by lia. apply Hfirst. lia.
Qed.

(** ** [match_at] and [String_match] *)

Lemma match_at_sound r s n cap :
  match_at ic r s = Some (n, cap) ->
  exists w s', s = w ++ s' /\ n = List.length w /\ sem ic r w None cap.
Proof.
  unfold match_at. intros H. apply m_sound in H.
  destruct H as (w & s' & c' & -> & Hs & Hk). unfold accept in Hk.
  inversion Hk; subst. exists w, s'. auto.
Qed.

Lemma String_match_sound r : forall s m0 cap,
  String_match ic s r = Some (m0, cap) ->
  exists pre post,
    s = pre ++ m0 ++ post /\ sem ic r m0 None cap /\
    match_at ic r (m0 ++ post) = Some (List.length m0, cap) /\
    forall j, j < List.length pre -> match_at ic r (skipn j s) = None.
Proof.
  induction s as [|ch s IH]; intros m0 cap H; simpl in H.
  - destruct (match_at ic r []) as [[n c]|] eqn:E; [|discriminate].
    inversion H; subst. pose proof E as E'. apply match_at_sound in E'.
    destruct E' as (w & s' & Hs & -> & Hsem).
    symmetry in Hs. apply app_eq_nil in Hs. destruct Hs as [-> ->]. simpl.
    exists [], []. simpl. repeat split; auto. intros j Hj. lia.
  - destruct (match_at ic r (ch :: s)) as [[n c]|] eqn:E.
    + inversion H; subst. pose proof E as E'. apply match_at_sound in E'.
      destruct E' as (w & s' & Hs & -> & Hsem). rewrite Hs.
      rewrite firstn_app, Nat.sub_diag, firstn_all. simpl. rewrite app_nil_r.
      exists [], s'. simpl. rewrite <- Hs. repeat split; auto. intros j Hj. lia.
    + apply IH in H. destruct H as (pre & post & -> & Hsem & Hm & Hnone).
      exists (ch :: pre), post. repeat split; auto.
      intros [|j] Hj; simpl; [exact E|]. apply Hnone. simpl in Hj. lia.
Qed.

Lemma String_match_none r : forall s,
  String_match ic s r = None ->
  forall j, match_at ic r (skipn j s) = None.
Proof.
  induction s as [|ch s IH]; intros H j; simpl in H.
  - destruct (match_at ic r []) as [[n c]|] eqn:E; [discriminate|].
    destruct j; exact E.
  - destruct (match_at ic r (ch :: s)) as [[n c]|] eqn:E; [discriminate|].
    destruct j as [|j]; simpl; [exact E | apply IH; exact H].
Qed.

(** Start indices at which the pattern fails are skipped. *)
Lemma String_match_skip r : forall pre rest,
  (forall j, j < List.length pre -> match_at ic r (skipn j (pre ++ rest)) = None) ->
  String_match ic (pre ++ rest) r = String_match ic rest r.
Proof.
  induction pre as [|ch pre IH]; intros rest H; [reflexivity|].
  pose proof (H 0 (Nat.lt_0_succ _)) as H0. simpl in H0.
  simpl. rewrite H0.
  apply IH. intros j Hj. apply (H (S j)). simpl. lia.
Qed.

Lemma String_match_first r s n cap :
  match_at ic r s = Some (n, cap) ->
  String_match ic s r = Some (firstn n s, cap).
Proof. intros H. destruct s; simpl; rewrite H; reflexivity. Qed.

End MatcherFacts.

(** * Code units *)

Section CodeUnitFacts.
Open Scope N_scope.

Ltac split_cmp :=
  repeat match goal with
  | |- context [N.leb ?a ?b] => destruct (N.leb_spec a b); try (exfalso; lia)
  | H : context [N.leb ?a ?b] |- _ => destruct (N.leb_spec a b); try (exfalso; lia)
  | |- context [N.eqb ?a ?b] => destruct (N.eqb_spec a b); try (exfalso; lia)
  | H : context [N.eqb ?a ?b] |- _ => destruct (N.eqb_spec a b); try (exfalso; lia)
  end.

Ltac cu_unfold :=
  unfold is_junk, class_match, chr_match, class_has, existsb, item_has,
    canonicalize, swapcase, is_alnum, is_digit, is_upper, is_lower, is_space,
    is_line_terminator, in_range, chr in *;
  simpl N_of_ascii in *.

Ltac cu_solve :=
  cu_unfold; split_cmp; simpl in *;
  try discriminate; try reflexivity; try (exfalso; lia); try lia; auto.

Lemma is_digit_alnum c : is_digit c = true -> is_alnum c = true.
Proof. cu_solve. Qed.

Lemma is_alnum_not_space c : is_alnum c = true -> is_space c = false.
Proof. cu_solve. Qed.

Lemma class_AZ09_alnum c :
  class_match true false [CRange (chr "A") (chr "Z"); CRange (chr "0") (chr "9")] c = true ->
  is_alnum c = true.
Proof. cu_solve. Qed.

Lemma class_digit c : class_match true false [CDigit] c = true -> is_digit c = true.
Proof. cu_solve. Qed.

Lemma class_digit_comma c :
  class_match true false [CDigit; CChar (chr ",")] c = true ->
  is_digit c || N.eqb c (chr ",") = true.
Proof. cu_solve. Qed.

Lemma swapcase_space c : is_space (swapcase c) = is_space c.
Proof.
  unfold swapcase. destruct (is_upper c) eqn:U; [|destruct (is_lower c) eqn:L; [|reflexivity]].
  - rewrite (is_alnum_not_space (c + 32)), (is_alnum_not_space c); auto; cu_solve.
  - rewrite (is_alnum_not_space (c - 32)), (is_alnum_not_space c); auto; cu_solve.
Qed.

Lemma class_space c : class_match true false [CSpace] c = true -> is_space c = true.
Proof.
  unfold class_match, class_has, existsb, item_has. rewrite swapcase_space.
  destruct (is_space c); simpl; auto.
Qed.

Lemma class_colon_dash c :
  class_match true false [CChar (chr ":"); CChar (chr "-")] c = true ->
  c = chr ":" \/ c = chr "-".
Proof. cu_solve. Qed.

Lemma chr_match_dot c : chr_match true (chr ".") c = true -> c = chr ".".
Proof. cu_solve. Qed.

Lemma chr_match_dash c : chr_match true (chr "-") c = true -> c = chr "-".
Proof. cu_solve. Qed.

Lemma class_junk c :
  class_match false true
    [CRange (chr "a") (chr "z"); CRange (chr "A") (chr "Z");
     CRange (chr "0") (chr "9")] c = is_junk c.
Proof. cu_solve. Qed.

(** Two code units have the same canonical form exactly when they are equal
    or case variants of each other, so the test of [class_match] finds a
    member of the class with the canonical form of the input character. *)
Lemma canonicalize_swapcase a c :
  canonicalize true a = canonicalize true c <-> a = c \/ a = swapcase c.
Proof.
  unfold canonicalize, swapcase, is_upper, is_lower, in_range.
  split_cmp; simpl; split; intros Hx; try lia;
    try (destruct Hx as [Hx | Hx]; lia).
Qed.

Theorem class_found_canonical items c :
  class_has items c || class_has items (swapcase c) = true <->
  exists a, class_has items a = true /\
            canonicalize true a = canonicalize true c.
Proof.
  rewrite orb_true_iff. split.
  - intros [H | H]; [exists c | exists (swapcase c)]; split; auto.
    apply canonicalize_swapcase. right. reflexivity.
  - intros (a & Ha & Hc). apply canonicalize_swapcase in Hc.
    destruct Hc as [-> | ->]; auto.
Qed.

End CodeUnitFacts.

(** * The relational semantics of the building blocks *)

Section SemFacts.

Variable ic : bool.

(** A pattern without the capturing group leaves the captures alone. *)
Lemma sem_nocap r w c c' : sem ic r w c c' -> has_cap r = false -> c' = c.
Proof.
  induction 1 as [c|a ch c Hp|ch c Hp|inv items ch c Hp
                  |r1 r2 w1 w2 c c1 c2 H1 IH1 H2 IH2
                  |r1 r2 w c c' H1 IH1|r1 r2 w c c' H1 IH1
                  |r mn g c|r mx g c
                  |r mn mx g w1 w2 c c1 c2 Hmx H1 IH1 Hne H2 IH2
                  |r w c c' H1 IH1]; simpl; intros Hc; auto; try discriminate.
  - apply orb_false_iff in Hc. destruct Hc as [Ha Hb].
    rewrite (IH2 Hb), (IH1 Ha). reflexivity.
  - apply orb_false_iff in Hc. destruct Hc as [Ha Hb]. auto.
  - apply orb_false_iff in Hc. destruct Hc as [Ha Hb]. auto.
  - rewrite (IH2 Hc), (IH1 Hc), Hc. reflexivity.
Qed.

Lemma sem_minlen r w c c' : sem ic r w c c' -> minlen r <= List.length w.
Proof.
  induction 1 as [c|a ch c Hp|ch c Hp|inv items ch c Hp
                  |r1 r2 w1 w2 c c1 c2 H1 IH1 H2 IH2
                  |r1 r2 w c c' H1 IH1|r1 r2 w c c' H1 IH1
                  |r mn g c|r mx g c
                  |r mn mx g w1 w2 c c1 c2 Hmx H1 IH1 Hne H2 IH2
                  |r w c c' H1 IH1]; simpl in *; auto; try lia.
  - rewrite length_app. lia.
  - destruct mx; simpl; lia.
  - rewrite length_app. destruct mx as [[|n]|]; simpl in *; try congruence.
    + destruct mn as [|mn]; simpl in *; lia.
    + destruct mn as [|mn]; simpl in *; lia.
Qed.

Lemma sem_seq_inv r1 r2 w c c' :
  sem ic (Seq r1 r2) w c c' ->
  exists w1 w2 c1, w = w1 ++ w2 /\ sem ic r1 w1 c c1 /\ sem ic r2 w2 c1 c'.
Proof. intros H. inversion H; subst. eauto 7. Qed.

Lemma sem_eps_inv w c c' : sem ic Eps w c c' -> w = [] /\ c' = c.
Proof. intros H. inversion H; subst. auto. Qed.

Lemma sem_cap_inv r w c c' :
  sem ic (Cap r) w c c' -> c' = Some w /\ exists c1, sem ic r w c c1.
Proof. intros H. inversion H; subst. eauto. Qed.

Lemma sem_chr_inv a w c c' :
  sem ic (Chr a) w c c' -> exists ch, w = [ch] /\ chr_match ic a ch = true /\ c' = c.
Proof. intros H. inversion H; subst. eauto. Qed.

Lemma sem_class_inv inv items w c c' :
  sem ic (Class inv items) w c c' ->
  exists ch, w = [ch] /\ class_match ic inv items ch = true /\ c' = c.
Proof. intros H. inversion H; subst. eauto. Qed.

(** A quantified character class matches a run of members of the class, of
    a length within the bounds. *)
Lemma sem_quant_class inv items g :
  forall q w c c', sem ic q w c c' ->
  forall mn mx, q = Quant (Class inv items) mn mx g ->
    forallb (class_match ic inv items) w = true /\ c' = c /\
    (le_opt mn mx -> mn <= List.length w /\
                     forall n, mx = Some n -> List.length w <= n).
Proof.
  induction 1 as [c|a ch c Hp|ch c Hp|inv' items' ch c Hp
                  |r1 r2 w1 w2 c c1 c2 H1 IH1 H2 IH2
                  |r1 r2 w c c' H1 IH1|r1 r2 w c c' H1 IH1
                  |r mn' g' c|r mx' g' c
                  |r mn' mx' g' w1 w2 c c1 c2 Hmx H1 IH1 Hne H2 IH2
                  |r w c c' H1 IH1]; intros mn mx E; try discriminate.
  - inversion E; subst. simpl. repeat split; auto; simpl in *; try lia.
  - inversion E; subst. simpl. repeat split; auto; simpl in *; try lia.
  - inversion E; subst. clear IH1. simpl in H1.
    apply sem_class_inv in H1. destruct H1 as (ch & -> & Hp & ->).
    destruct (IH2 (pred mn) (option_map pred mx) eq_refl) as (Hall & -> & Hlen).
    simpl. rewrite Hp, Hall. repeat split; auto.
    + assert (Hle : le_opt (pred mn) (option_map pred mx))
        by (destruct mx as [[|n]|]; simpl in *; try congruence; lia).
      destruct (Hlen Hle) as [Ha _]. lia.
    + intros n ->. simpl in *.
      assert (Hle : pred mn <= pred n) by lia.
      destruct (Hlen Hle) as [_ Hb]. specialize (Hb _ eq_refl).
      destruct n; [congruence | simpl in Hb; lia].
Qed.

Lemma sem_class_run inv items mn mx g w c c' :
  sem ic (Quant (Class inv items) mn mx g) w c c' ->
  forallb (class_match ic inv items) w = true /\ c' = c /\
  (le_opt mn mx -> mn <= List.length w /\
                   forall n, mx = Some n -> List.length w <= n).
Proof. intros H. exact (sem_quant_class inv items g _ _ _ _ H mn mx eq_refl). Qed.

Lemma sem_word_length (w : string) : forall u c c',
  sem ic (word w) u c c' -> List.length u = String.length w /\ c' = c.
Proof.
  unfold word. induction w as [|a w IH]; simpl; intros u c c' H.
  - apply sem_eps_inv in H. destruct H as [-> ->]. auto.
  - apply sem_seq_inv in H. destruct H as (w1 & w2 & c1 & -> & H1 & H2).
    apply sem_chr_inv in H1. destruct H1 as (ch & -> & _ & ->).
    apply IH in H2. destruct H2 as [E ->]. simpl. auto.
Qed.

End SemFacts.

(** * Cleaning *)

Section CleaningFacts.

Lemma dropwhile_head p ch s : p ch = false -> dropwhile p (ch :: s) = ch :: s.
Proof. intros H. simpl. rewrite H. reflexivity. Qed.

Lemma skipn_takewhile p s : skipn (List.length (takewhile p s)) s = dropwhile p s.
Proof.
  induction s as [|ch s IH]; simpl; [reflexivity|].
  destruct (p ch); simpl; auto.
Qed.

Lemma takewhile_dropwhile p s : takewhile p s ++ dropwhile p s = s.
Proof.
  induction s as [|ch s IH]; simpl; [reflexivity|].
  destruct (p ch); simpl; [rewrite IH|]; reflexivity.
Qed.

Lemma takewhile_all p s : forallb p (takewhile p s) = true.
Proof.
  induction s as [|ch s IH]; simpl; [reflexivity|].
  destruct (p ch) eqn:E; simpl; [rewrite E|]; auto.
Qed.

Lemma dropwhile_starts p s :
  match dropwhile p s with
  | [] => True
  | ch :: _ => p ch = false
  end.
Proof.
  induction s as [|ch s IH]; simpl; [exact I|].
  destruct (p ch) eqn:E; [exact IH | exact E].
Qed.

Lemma dropwhile_nonempty p s :
  existsb (fun ch => negb (p ch)) s = true -> dropwhile p s <> [].
Proof.
  induction s as [|ch s IH]; simpl; [discriminate|].
  destruct (p ch); simpl; [exact IH | discriminate].
Qed.

Lemma dropwhile_keeps_all (p q : char -> bool) s :
  forallb q s = true -> forallb q (dropwhile p s) = true.
Proof.
  induction s as [|ch s IH]; simpl; [reflexivity|].
  intros H. apply andb_true_iff in H. destruct H as [Ha Hb].
  destruct (p ch); simpl; [auto | rewrite Ha, Hb; reflexivity].
Qed.

(** The greedy repetition of a character class before the end of the pattern
    takes the longest run. *)
Lemma repeat_class_run ic inv items :
  forall fuel mn acc s c,
    mn <= 1 -> mn + List.length s <= fuel ->
    RepeatMatcher (m ic (Class inv items)) false true fuel mn None acc s c (accept)
    = if (mn =? 1) && (match takewhile (class_match ic inv items) s with
                       | [] => true | _ => false end)
      then None
      else Some (acc + List.length (takewhile (class_match ic inv items) s), c).
Proof.
  induction fuel as [|fuel IH]; intros mn acc s c Hmn Hle.
  - assert (mn = 0) as -> by lia. destruct s; [|simpl in Hle; lia].
    simpl. unfold accept. rewrite Nat.add_0_r. reflexivity.
  - destruct s as [|ch s].
    + destruct mn as [|[|mn]]; simpl; try lia; unfold accept;
        rewrite ?Nat.add_0_r; reflexivity.
    + simpl in Hle.
      destruct mn as [|[|mn]]; [| |lia]; simpl;
        destruct (class_match ic inv items ch) eqn:E; simpl;
        unfold accept; rewrite ?Nat.add_0_r; try reflexivity;
        rewrite IH by (simpl; lia); simpl;
        rewrite <- Nat.add_assoc; reflexivity.
Qed.

Lemma m_quant ic r mn mx g s c k :
  m ic (Quant r mn mx g) s c k
  = RepeatMatcher (m ic r) (has_cap r) g (mn + List.length s) mn mx 0 s c k.
Proof. reflexivity. Qed.

Lemma replace_leading_junk s : replace_leading leading_junk s = dropwhile is_junk s.
Proof.
  unfold replace_leading, match_at, leading_junk. rewrite m_quant.
  simpl has_cap. rewrite repeat_class_run by lia.
  assert (E : forall t, takewhile (class_match false true
            [CRange (chr "a") (chr "z"); CRange (chr "A") (chr "Z");
             CRange (chr "0") (chr "9")]) t = takewhile is_junk t).
  { induction t as [|ch t IHt]; [reflexivity|]. cbn [takewhile].
    rewrite class_junk, IHt. reflexivity. }
  rewrite E. cbn [Nat.eqb andb].
  destruct (takewhile is_junk s) eqn:Et.
  - destruct s as [|ch s]; simpl in *; [reflexivity|].
    destruct (is_junk ch); [discriminate | reflexivity].
  - rewrite <- Et. apply skipn_takewhile.
Qed.

(** The cleaning step, without the pattern machinery. *)
Theorem clean_spec raw : clean raw = trim (dropwhile is_junk (trim raw)).
Proof. unfold clean. rewrite replace_leading_junk. reflexivity. Qed.

Lemma rev_last (v : jsstring) d : v <> [] -> exists l, rev v = last v d :: l.
Proof.
  intros H. exists (rev (removelast v)).
  transitivity (rev (removelast v ++ [last v d])).
  - f_equal. apply app_removelast_last. exact H.
  - rewrite rev_app_distr. reflexivity.
Qed.

Lemma trim_fixed v : no_surrounding_space v -> trim v = v.
Proof.
  destruct v as [|ch v]; [reflexivity|].
  intros [Hh Hl]. unfold trim. rewrite dropwhile_head by exact Hh.
  destruct (rev_last (ch :: v) ch) as [l El]; [discriminate|].
  rewrite El, dropwhile_head by exact Hl. rewrite <- El. apply rev_involutive.
Qed.

Lemma no_space_no_surrounding v :
  forallb (fun ch => negb (is_space ch)) v = true -> no_surrounding_space v.
Proof.
  intros H. destruct v as [|ch v]; [exact I|]. rewrite forallb_forall in H.
  split.
  - apply negb_true_iff. apply H. left. reflexivity.
  - apply negb_true_iff. apply H.
    destruct (rev_last (ch :: v) ch) as [l El]; [discriminate|].
    apply in_rev. rewrite El. left. reflexivity.
Qed.

(** [trim] keeps a prefix of what is left once the leading white space is
    gone. *)
Lemma trim_prefix s : exists t, dropwhile is_space s = trim s ++ t.
Proof.
  unfold trim. set (a := dropwhile is_space s).
  exists (rev (takewhile is_space (rev a))).
  rewrite <- rev_app_distr, takewhile_dropwhile, rev_involutive. reflexivity.
Qed.

(** What [trim] returns has no white space at either end. *)
Lemma trim_no_surrounding s : no_surrounding_space (trim s).
Proof.
  destruct (trim s) as [|y0 ys] eqn:E; [exact I|].
  cbn [no_surrounding_space]. split.
  - destruct (trim_prefix s) as [t Ht]. rewrite E in Ht.
    pose proof (dropwhile_starts is_space s) as H1. rewrite Ht in H1. exact H1.
  - unfold trim in E.
    pose proof (dropwhile_starts is_space (rev (dropwhile is_space s))) as H2.
    destruct (dropwhile is_space (rev (dropwhile is_space s))) as [|z l];
      [discriminate|].
    cbn [rev] in E.
    assert (El : last (y0 :: ys) y0 = z) by (rewrite <- E; apply last_last).
    rewrite El. exact H2.
Qed.

Lemma existsb_rev (q : char -> bool) s : existsb q (rev s) = existsb q s.
Proof.
  induction s as [|ch s IH]; [reflexivity|].
  cbn [rev]. rewrite existsb_app, IH. simpl. rewrite orb_false_r. apply orb_comm.
Qed.

Lemma dropwhile_keeps_exists p s :
  existsb (fun ch => negb (p ch)) s = true ->
  existsb (fun ch => negb (p ch)) (dropwhile p s) = true.
Proof.
  induction s as [|ch s IH]; simpl; [discriminate|].
  destruct (p ch) eqn:E; simpl; [exact IH | rewrite E; auto].
Qed.

Lemma trim_nonempty s :
  existsb (fun ch => negb (is_space ch)) s = true -> trim s <> [].
Proof.
  intros H E. unfold trim in E.
  apply (f_equal (@rev char)) in E. rewrite rev_involutive in E. simpl in E.
  revert E. apply dropwhile_nonempty. rewrite existsb_rev.
  apply dropwhile_keeps_exists. exact H.
Qed.

(** The first character of a trimmed string is the first one after the
    leading white space. *)
Lemma trim_head ch s : is_space ch = false -> exists t, trim (ch :: s) = ch :: t.
Proof.
  intros H. destruct (trim_prefix (ch :: s)) as [t Ht].
  rewrite dropwhile_head in Ht by exact H.
  destruct (trim (ch :: s)) as [|y0 ys] eqn:E.
  - exfalso. revert E. apply trim_nonempty. simpl. rewrite H. reflexivity.
  - simpl in Ht. inversion Ht; subst. eauto.
Qed.

(** The outcome of the cleaning step needs no cleaning. *)
Lemma clean_is_clean raw :
  no_surrounding_space (clean raw) /\ no_leading_junk (clean raw).
Proof.
  rewrite clean_spec. split; [apply trim_no_surrounding|].
  pose proof (dropwhile_starts is_junk (trim raw)) as H.
  destruct (dropwhile is_junk (trim raw)) as [|y0 ys]; [exact I|].
  unfold is_junk in H. apply negb_false_iff in H.
  destruct (trim_head y0 ys (is_alnum_not_space y0 H)) as [t ->]. exact H.
Qed.

Lemma clean_fixed v : no_surrounding_space v -> no_leading_junk v -> clean v = v.
Proof.
  intros Hs Hj. rewrite clean_spec, (trim_fixed v Hs).
  destruct v as [|ch v]; [reflexivity|]. simpl in Hj.
  rewrite dropwhile_head by (unfold is_junk; rewrite Hj; reflexivity).
  apply trim_fixed. exact Hs.
Qed.

Theorem clean_idempotent raw : clean (clean raw) = clean raw.
Proof. destruct (clean_is_clean raw). apply clean_fixed; assumption. Qed.

(** A captured value without white space only loses its leading junk. *)
Lemma clean_no_space raw :
  forallb (fun ch => negb (is_space ch)) raw = true ->
  clean raw = dropwhile is_junk raw.
Proof.
  intros H. rewrite clean_spec.
  rewrite (trim_fixed raw) by (apply no_space_no_surrounding; exact H).
  apply trim_fixed. apply no_space_no_surrounding.
  apply dropwhile_keeps_all. exact H.
Qed.

Lemma forallb_impl (p q : char -> bool) s :
  (forall ch, p ch = true -> q ch = true) ->
  forallb p s = true -> forallb q s = true.
Proof.
  intros Hpq. induction s as [|ch s IH]; simpl; [reflexivity|].
  intros H. apply andb_true_iff in H. destruct H as [Ha Hb].
  rewrite (Hpq ch Ha), (IH Hb). reflexivity.
Qed.

Lemma clean_alnum raw : forallb is_alnum raw = true -> clean raw = raw.
Proof.
  intros H. rewrite clean_no_space.
  - destruct raw as [|ch raw]; [reflexivity|]. simpl in H.
    apply andb_true_iff in H. destruct H as [Ha _].
    apply dropwhile_head. unfold is_junk. rewrite Ha. reflexivity.
  - revert H. apply forallb_impl. intros ch Hc.
    rewrite (is_alnum_not_space ch Hc). reflexivity.
Qed.

End CleaningFacts.

(** * The closure [extract] and the returned object *)

Section ExtractFacts.

Lemma m_seq ic r1 r2 s c k :
  m ic (Seq r1 r2) s c k
  = m ic r1 s c (fun n1 s1 c1 => m ic r2 s1 c1 (fun n2 s2 c2 => k (n1 + n2) s2 c2)).
Proof. reflexivity. Qed.

Lemma m_cap ic r1 s c k :
  m ic (Cap r1) s c k = m ic r1 s c (fun n s' _ => k n s' (Some (firstn n s))).
Proof. reflexivity. Qed.

(** The two outcomes of [extract]. *)
Lemma extract_cases text r :
  extract text r = NotFound \/
  exists m0 raw, String_match true text r = Some (m0, Some raw) /\ raw <> [] /\
                 extract text r = clean raw.
Proof.
  unfold extract. destruct (String_match true text r) as [[m0 [[|ch raw]|]]|];
    auto. right. exists m0, (ch :: raw). repeat split; auto. discriminate.
Qed.

Lemma extract_no_match text r :
  String_match true text r = None -> extract text r = NotFound.
Proof. unfold extract. intros ->. reflexivity. Qed.

Lemma extract_no_group text r m0 :
  String_match true text r = Some (m0, None) -> extract text r = NotFound.
Proof. unfold extract. intros ->. reflexivity. Qed.

Lemma extract_group text r m0 raw :
  String_match true text r = Some (m0, Some raw) -> raw <> [] ->
  extract text r = clean raw.
Proof. unfold extract. intros -> H. destruct raw; [congruence | reflexivity]. Qed.

(** A pattern without the capturing group always yields the sentinel. *)
Lemma extract_nocap text r : has_cap r = false -> extract text r = NotFound.
Proof.
  intros Hc. destruct (extract_cases text r) as [E | (m0 & raw & E & _ & _)]; auto.
  apply String_match_sound in E. destruct E as (pre & post & _ & Hs & _).
  apply sem_nocap in Hs; [discriminate | exact Hc].
Qed.

Lemma get_map_assoc (f : regex -> jsstring) key : forall l,
  get key (map (fun kr => (fst kr, f (snd kr))) l) = option_map f (assoc key l).
Proof.
  induction l as [|[k r] l IH]; simpl; [reflexivity|].
  destruct (String.eqb k key); auto.
Qed.

(** The object literal applies [extract] to each pattern of the table. *)
Lemma extractDetails_rules text :
  extractDetails text = map (fun kr => (fst kr, extract text (snd kr))) rules.
Proof. reflexivity. Qed.

Lemma get_extractDetails key text :
  get key (extractDetails text) = option_map (extract text) (assoc key rules).
Proof. rewrite extractDetails_rules. apply get_map_assoc. Qed.

Lemma assoc_in {A : Type} key : forall (l : list (string * A)) v,
  assoc key l = Some v -> In (key, v) l.
Proof.
  induction l as [|[k a] l IH]; simpl; intros v H; [discriminate|].
  destruct (String.eqb_spec k key) as [-> | _].
  - inversion H; subst. auto.
  - right. auto.
Qed.

Lemma rules_labels :
  map (fun kr => (fst kr, rule_label (snd kr))) rules
  = map (fun kl => (fst kl, Some (snd kl))) labels.
Proof. reflexivity. Qed.

Lemma rule_has_label f r :
  In (f, r) rules -> exists L T, r = Seq L T /\ In (f, L) labels.
Proof.
  intros H.
  apply (in_map (fun kr => (fst kr, rule_label (snd kr)))) in H.
  rewrite rules_labels in H. apply in_map_iff in H.
  destruct H as ([f' L] & E & Hin). simpl in E. inversion E; subst.
  destruct r; try discriminate. simpl in *. inversion H1; subst. eauto.
Qed.

(** A field found by its pattern shows an occurrence of its label. *)
Lemma extract_label_occurs text L T :
  extract text (Seq L T) <> NotFound -> occurs true L text.
Proof.
  intros H. destruct (extract_cases text (Seq L T)) as [E | (m0 & raw & E & _ & _)];
    [contradiction|].
  apply String_match_sound in E. destruct E as (pre & post & -> & Hs & _).
  apply sem_seq_inv in Hs. destruct Hs as (w1 & w2 & c1 & -> & H1 & H2).
  exists pre, w1, (w2 ++ post). rewrite <- app_assoc. split; [reflexivity|].
  exists None, c1. exact H1.
Qed.

(** ** The shape of each captured value *)

Lemma sem_separator w c c' : sem true separator w c c' -> is_separator w /\ c' = c.
Proof.
  unfold separator, seqs. simpl. intros H.
  apply sem_seq_inv in H. destruct H as (a & w2 & c1 & -> & Ha & H).
  apply sem_seq_inv in H. destruct H as (o & w3 & c2 & -> & Ho & H).
  apply sem_seq_inv in H. destruct H as (b & w4 & c3 & -> & Hb & H).
  apply sem_eps_inv in H. destruct H as [-> ->]. rewrite app_nil_r.
  apply sem_class_run in Ha. destruct Ha as (Fa & -> & _).
  apply sem_class_run in Ho. destruct Ho as (Fo & -> & Lo).
  apply sem_class_run in Hb. destruct Hb as (Fb & -> & _).
  split; [|reflexivity]. exists a, o, b. repeat split.
  - revert Fa. apply forallb_impl. exact class_space.
  - revert Fb. apply forallb_impl. exact class_space.
  - destruct (Lo (Nat.le_0_l 1)) as [_ Hlen]. specialize (Hlen 1 eq_refl).
    destruct o as [|ch [|? ?]]; simpl in Hlen; [auto | | lia].
    simpl in Fo. rewrite andb_true_r in Fo.
    apply class_colon_dash in Fo. destruct Fo as [-> | ->]; auto.
Qed.

Lemma sem_id_group w c c' :
  sem true (Cap (times 10 AZ09)) w c c' ->
  c' = Some w /\ List.length w = 10 /\ forallb is_alnum w = true.
Proof.
  intros H. apply sem_cap_inv in H. destruct H as (-> & c1 & H).
  unfold times, AZ09 in H.
  apply sem_class_run in H. destruct H as (F & _ & Len).
  destruct (Len (Nat.le_refl 10)) as [L1 L2]. specialize (L2 10 eq_refl).
  repeat split; [lia|]. revert F. apply forallb_impl. exact class_AZ09_alnum.
Qed.

Lemma sem_digits n mx g w c c' :
  sem true (Quant digit n mx g) w c c' -> le_opt n mx ->
  forallb is_digit w = true /\ c' = c /\ n <= List.length w /\
  forall k, mx = Some k -> List.length w <= k.
Proof.
  intros H Hle. unfold digit in H.
  apply sem_class_run in H. destruct H as (F & -> & Len).
  destruct (Len Hle) as [L1 L2]. repeat split; auto.
  revert F. apply forallb_impl. exact class_digit.
Qed.

Lemma sem_year_group w c c' :
  sem true (Cap (seqs [times 4 digit; Chr (chr "-"); Quant digit 2 (Some 4) true]))
      w c c' ->
  c' = Some w /\ is_year w.
Proof.
  intros H. apply sem_cap_inv in H. destruct H as (-> & c1 & H).
  unfold seqs, times in H. simpl in H.
  apply sem_seq_inv in H. destruct H as (y1 & w2 & c2 & -> & H1 & H).
  apply sem_seq_inv in H. destruct H as (d & w3 & c3 & -> & Hd & H).
  apply sem_seq_inv in H. destruct H as (y2 & w4 & c4 & -> & H2 & H).
  apply sem_eps_inv in H. destruct H as [-> _]. rewrite app_nil_r.
  apply sem_chr_inv in Hd. destruct Hd as (ch & -> & Hch & _).
  apply chr_match_dash in Hch. subst ch.
  apply sem_digits in H1; [|simpl; lia]. destruct H1 as (F1 & _ & La & Lb).
  apply sem_digits in H2; [|simpl; lia]. destruct H2 as (F2 & _ & Lc & Ld).
  specialize (Lb 4 eq_refl). specialize (Ld 4 eq_refl).
  split; [reflexivity|]. exists y1, y2. repeat split; auto; lia.
Qed.

Lemma sem_currency w c c' :
  sem true currencyRegex w c c' -> c' = Some w /\ is_currency w.
Proof.
  unfold currencyRegex. intros H.
  apply sem_cap_inv in H. destruct H as (-> & c1 & H).
  unfold seqs, times in H. simpl in H.
  apply sem_seq_inv in H. destruct H as (ds & w2 & c2 & -> & H1 & H).
  apply sem_seq_inv in H. destruct H as (d & w3 & c3 & -> & Hd & H).
  apply sem_seq_inv in H. destruct H as (dd & w4 & c4 & -> & H2 & H).
  apply sem_eps_inv in H. destruct H as [-> _]. rewrite app_nil_r.
  apply sem_chr_inv in Hd. destruct Hd as (ch & -> & Hch & _).
  apply chr_match_dot in Hch. subst ch.
  apply sem_class_run in H1. destruct H1 as (F1 & _ & L1).
  destruct (L1 I) as [L1a _].
  apply sem_digits in H2; [|simpl; lia]. destruct H2 as (F2 & _ & La & Lb).
  specialize (Lb 2 eq_refl).
  destruct dd as [|d1 [|d2 [|? ?]]]; simpl in La, Lb; try lia.
  simpl in F2. rewrite andb_true_r in F2. apply andb_true_iff in F2.
  destruct F2 as [Fd1 Fd2].
  split; [reflexivity|]. exists ds, d1, d2. repeat split; auto.
  - intros ->. simpl in L1a. lia.
  - revert F1. apply forallb_impl. exact class_digit_comma.
Qed.

Lemma no_space_of (p : char -> bool) s :
  (forall ch, p ch = true -> is_space ch = false) ->
  forallb p s = true -> forallb (fun ch => negb (is_space ch)) s = true.
Proof.
  intros H. apply forallb_impl. intros ch Hc. rewrite (H ch Hc). reflexivity.
Qed.

Lemma digit_not_space ch : is_digit ch = true -> is_space ch = false.
Proof. intros H. apply is_alnum_not_space, is_digit_alnum, H. Qed.

Lemma digit_comma_not_space ch :
  is_digit ch || N.eqb ch (chr ",") = true -> is_space ch = false.
Proof.
  intros H. apply orb_true_iff in H. destruct H as [H | H].
  - apply digit_not_space, H.
  - apply N.eqb_eq in H. subst ch. reflexivity.
Qed.

Lemma year_value raw : is_year raw -> clean raw = raw /\ raw <> [].
Proof.
  intros (y1 & y2 & -> & L1 & L2 & F1 & F2).
  destruct y1 as [|d y1]; [discriminate|]. split; [|discriminate].
  simpl in F1. apply andb_true_iff in F1. destruct F1 as [Fd F1].
  rewrite clean_no_space.
  - apply dropwhile_head. unfold is_junk.
    rewrite (is_digit_alnum d Fd). reflexivity.
  - simpl. rewrite (digit_not_space d Fd). simpl.
    rewrite forallb_app. simpl.
    rewrite (no_space_of is_digit y1 digit_not_space F1).
    rewrite (no_space_of is_digit y2 digit_not_space F2). reflexivity.
Qed.

(** A currency match loses at most leading commas (and, with them, a bare
    dot); its two decimals always stay. *)
Lemma currency_value raw :
  is_currency raw ->
  clean raw = dropwhile is_junk raw /\ clean raw <> [] /\
  (forall d rest, raw = d :: rest -> is_digit d = true -> clean raw = raw).
Proof.
  intros (ds & d1 & d2 & -> & Hne & F & Fd1 & Fd2).
  assert (E : clean (ds ++ [chr "."; d1; d2])
              = dropwhile is_junk (ds ++ [chr "."; d1; d2])).
  { apply clean_no_space. rewrite forallb_app.
    rewrite (no_space_of _ ds digit_comma_not_space F). simpl.
    rewrite (digit_not_space d1 Fd1), (digit_not_space d2 Fd2). reflexivity. }
  split; [exact E|]. split.
  - rewrite E. apply dropwhile_nonempty. rewrite existsb_app. simpl.
    unfold is_junk. rewrite (is_digit_alnum d1 Fd1). simpl.
    rewrite orb_true_r. reflexivity.
  - intros d rest Eraw Hd. rewrite E, Eraw. apply dropwhile_head.
    unfold is_junk. rewrite (is_digit_alnum d Hd). reflexivity.
Qed.

(** ** The three kinds of capturing patterns *)

Lemma id_rule_sem L m0 cap :
  sem true (id_rule L) m0 None cap ->
  exists lab sp raw,
    m0 = lab ++ sp ++ raw /\ matches true L lab /\ is_separator sp /\
    cap = Some raw /\ List.length raw = 10 /\ forallb is_alnum raw = true.
Proof.
  unfold id_rule. intros H.
  apply sem_seq_inv in H. destruct H as (lab & w2 & c1 & -> & Hl & H).
  apply sem_seq_inv in H. destruct H as (sp & raw & c2 & -> & Hs & H).
  apply sem_separator in Hs. destruct Hs as [Hs _].
  apply sem_id_group in H. destruct H as (-> & Hlen & Hall).
  exists lab, sp, raw. repeat split; auto. exists None, c1. exact Hl.
Qed.

Lemma year_rule_sem m0 cap :
  sem true year_rule m0 None cap ->
  exists lab sp raw,
    m0 = lab ++ sp ++ raw /\ matches true label_assessmentYear lab /\
    is_separator sp /\ cap = Some raw /\ is_year raw.
Proof.
  unfold year_rule. intros H.
  apply sem_seq_inv in H. destruct H as (lab & w2 & c1 & -> & Hl & H).
  apply sem_seq_inv in H. destruct H as (sp & raw & c2 & -> & Hs & H).
  apply sem_separator in Hs. destruct Hs as [Hs _].
  apply sem_year_group in H. destruct H as (-> & Hy).
  exists lab, sp, raw. repeat split; auto. exists None, c1. exact Hl.
Qed.

Lemma money_rule_sem L m0 cap :
  sem true (money_rule L) m0 None cap ->
  exists lab g raw,
    m0 = lab ++ g ++ raw /\ matches true L lab /\
    cap = Some raw /\ is_currency raw.
Proof.
  unfold money_rule. intros H.
  apply sem_seq_inv in H. destruct H as (lab & w2 & c1 & -> & Hl & H).
  apply sem_seq_inv in H. destruct H as (g & raw & c2 & -> & Hg & H).
  apply sem_currency in H. destruct H as (-> & Hc).
  exists lab, g, raw. repeat split; auto. exists None, c1. exact Hl.
Qed.

(** Whatever a pattern of the table captures, its cleaned form is not
    empty. *)
Lemma rule_capture_clean f r m0 raw :
  In (f, r) rules -> sem true r m0 None (Some raw) -> clean raw <> [].
Proof.
  intros Hin Hs. simpl in Hin.
  repeat (destruct Hin as [E | Hin]; [inversion E; subst; clear E|]);
    try contradiction;
    first
      [ (* no capturing group *)
        apply sem_nocap in Hs; [discriminate | reflexivity]
      | (* identifier *)
        apply id_rule_sem in Hs;
        destruct Hs as (lab & sp & raw' & _ & _ & _ & E & Hlen & Hall);
        inversion E; subst; rewrite (clean_alnum _ Hall);
        intros ->; discriminate
      | (* assessment year *)
        apply year_rule_sem in Hs;
        destruct Hs as (lab & sp & raw' & _ & _ & _ & E & Hy);
        inversion E; subst; destruct (year_value _ Hy) as [-> Hne]; exact Hne
      | (* amount *)
        apply money_rule_sem in Hs;
        destruct Hs as (lab & g & raw' & _ & _ & E & Hc);
        inversion E; subst; apply (currency_value _ Hc) ].
Qed.

Lemma keys_extractDetails text : map fst (extractDetails text) = map fst rules.
Proof. rewrite extractDetails_rules, map_map. reflexivity. Qed.

Lemma in_extractDetails text f v :
  In (f, v) (extractDetails text) ->
  exists r, In (f, r) rules /\ v = extract text r.
Proof.
  rewrite extractDetails_rules. intros H. apply in_map_iff in H.
  destruct H as ([f' r] & E & Hin). simpl in E. inversion E; subst. eauto.
Qed.

Lemma get_rule text f r :
  In (f, r) rules -> get f (extractDetails text) = Some (extract text r).
Proof.
  intros Hin. rewrite get_extractDetails. simpl in Hin.
  repeat (destruct Hin as [E | Hin]; [inversion E; subst; reflexivity|]).
  contradiction.
Qed.

Lemma no_label_in_empty f L : In (f, L) labels -> ~ occurs true L [].
Proof.
  intros Hin (pre & w & post & E & c & c' & Hs).
  symmetry in E. apply app_eq_nil in E. destruct E as [_ E].
  apply app_eq_nil in E. destruct E as [-> _].
  apply sem_minlen in Hs. simpl in Hin.
  repeat (destruct Hin as [E | Hin];
          [inversion E; subst; vm_compute in Hs; lia|]).
  contradiction.
Qed.

(** When an occurrence [V] of the label is the first way the label matches
    and the rest of the pattern matches right after it, the field is what
    that rest captures. *)
Lemma extract_after_label L T V rest n cap :
  (forall (K : cont) x,
     K (List.length V) rest None = Some x ->
     m true L (V ++ rest) None K = Some x) ->
  match_at true T rest = Some (n, cap) ->
  extract (V ++ rest) (Seq L T) = cleaned_or_sentinel cap.
Proof.
  intros HL HT. unfold extract.
  rewrite (String_match_first true (Seq L T) (V ++ rest) (List.length V + n) cap).
  - destruct cap as [[|ch raw]|]; reflexivity.
  - unfold match_at. rewrite m_seq. apply HL.
    rewrite (m_map true (fun res => (List.length V + fst res, snd res)) T rest
               None accept).
    + unfold match_at in HT. rewrite HT. reflexivity.
    + intros k s' c'. reflexivity.
Qed.

End ExtractFacts.

(** * A complete run *)

Example extractDetails_sample :
  extractDetails sample_text =
  [ ("employerName"%string, lit "Not Found");
    ("TAN"%string, lit "DELH12345B");
    ("employerPAN"%string, lit "AAACA1111A");
    ("employeeName"%string, lit "Not Found");
    ("employeePAN"%string, lit "ABCDE1234F");
    ("assessmentYear"%string, lit "2024-25");
    ("grossSalary"%string, lit "12,34,567.00");
    ("standardDeduction"%string, lit "50,000.00");
    ("professionalTax"%string, lit "2,400.00");
    ("incomeChargeable"%string, lit "11,82,167.00");
    ("totalDeductionsVIA"%string, lit "Not Found");
    ("totalTaxableIncome"%string, lit "Not Found");
    ("taxOnTotalIncome"%string, lit "Not Found");
    ("cess"%string, lit "Not Found");
    ("totalTDS"%string, lit "1,50,000.00") ].
Proof. vm_compute. reflexivity. Qed.

(** * The properties of the specification *)

(** C1 — Totality: for every input string, the empty one included,
    [extractDetails] returns an object that holds each of the fifteen
    canonical field keys exactly once (and nothing else), each bound to a
    string; being a total function it raises no error. *)
Theorem extractDetails_total (text : jsstring) :
  List.length (extractDetails text) = 15 /\
  NoDup (map fst (extractDetails text)) /\
  forall key, In key canonical_keys ->
    count_occ string_dec (map fst (extractDetails text)) key = 1 /\
    exists v : jsstring, get key (extractDetails text) = Some v.
Proof.
  rewrite keys_extractDetails. split; [|split].
  - reflexivity.
  - simpl. repeat (constructor; [simpl; intuition discriminate|]). constructor.
  - intros key Hin. rewrite get_extractDetails. simpl in Hin.
    repeat (destruct Hin as [<- | Hin];
            [split; [reflexivity | eexists; reflexivity]|]).
    contradiction.
Qed.

(** C3 — The patterns of [employerName] and [employeeName] define no
    capturing group, so [match[1]] is always absent and both fields are
    ["Not Found"] whatever the text holds. *)
Theorem name_fields_always_not_found (text : jsstring) :
  get "employerName" (extractDetails text) = Some NotFound /\
  get "employeeName" (extractDetails text) = Some NotFound.
Proof.
  rewrite !get_extractDetails. simpl.
  rewrite !extract_nocap by reflexivity. split; reflexivity.
Qed.

(** C9 — Cleaning idempotence: a value that is already clean, with no white
    space at either end and no leading character outside letters and digits,
    is left unchanged by the cleaning step. *)
Theorem clean_already_clean (v : jsstring) :
  no_surrounding_space v -> no_leading_junk v -> clean v = v.
Proof. intros Hs Hj. apply clean_fixed; assumption. Qed.

Lemma clean_already_clean_witness :
  no_surrounding_space (lit "ABCDE1234F") /\ no_leading_junk (lit "ABCDE1234F") /\
  clean (lit "ABCDE1234F") = lit "ABCDE1234F".
Proof.
  assert (Hs : no_surrounding_space (lit "ABCDE1234F")) by (split; reflexivity).
  assert (Hj : no_leading_junk (lit "ABCDE1234F")) by reflexivity.
  split; [exact Hs|]. split; [exact Hj|].
  exact (clean_already_clean (lit "ABCDE1234F") Hs Hj).
Defined.

(** C7 — Sentinel correctness: when the text holds no occurrence of any
    label phrase, every field of the result is ["Not Found"]. *)
Theorem sentinel_without_labels (text : jsstring) :
  (forall f L, In (f, L) labels -> ~ occurs true L text) ->
  Forall (fun kv => snd kv = NotFound) (extractDetails text).
Proof.
  intros Hno. apply Forall_forall. intros [f v] Hin. simpl.
  apply in_extractDetails in Hin. destruct Hin as (r & Hr & ->).
  destruct (rule_has_label f r Hr) as (L & T & -> & HL).
  destruct (list_eq_dec N.eq_dec (extract text (Seq L T)) NotFound) as [E | E];
    [exact E|].
  exfalso. apply (Hno f L HL). apply extract_label_occurs with (T := T). exact E.
Qed.

Lemma sentinel_without_labels_witness :
  Forall (fun kv => snd kv = NotFound) (extractDetails []).
Proof.
  exact (sentinel_without_labels [] no_label_in_empty).
Defined.

(** C6 — Identifier fields: a value of [TAN], [employerPAN] or
    [employeePAN] other than the sentinel is a run of ten letters or digits
    that stands in the text right after an occurrence of the field's label
    and a separator (white space around at most one colon or dash). *)
Theorem identifier_value (text : jsstring) (f : string) (L : regex) (v : jsstring) :
  In f identifier_fields -> assoc f labels = Some L ->
  get f (extractDetails text) = Some v -> v <> NotFound ->
  List.length v = 10 /\ forallb is_alnum v = true /\
  exists pre lab sep post,
    text = pre ++ lab ++ sep ++ v ++ post /\
    matches true L lab /\ is_separator sep.
Proof.
  intros Hf HL Hget Hv.
  assert (Hr : v = extract text (id_rule L)).
  { rewrite get_extractDetails in Hget. simpl in Hf.
    destruct Hf as [<- | [<- | [<- | []]]]; simpl in HL, Hget;
      inversion HL; subst; inversion Hget; reflexivity. }
  destruct (extract_cases text (id_rule L)) as [E | (m0 & raw & E & _ & Ec)];
    [congruence|].
  apply String_match_sound in E. destruct E as (pre & post & -> & Hs & _).
  apply id_rule_sem in Hs.
  destruct Hs as (lab & sp & raw' & -> & Hl & Hsp & E & Hlen & Hall).
  inversion E; subst raw'; clear E.
  rewrite (clean_alnum raw Hall) in Ec. rewrite Ec in Hr. subst v.
  repeat split; auto. exists pre, lab, sp, post.
  rewrite <- !app_assoc. auto.
Qed.

Lemma identifier_value_witness :
  List.length (lit "ABCDE1234F") = 10 /\
  forallb is_alnum (lit "ABCDE1234F") = true /\
  exists pre lab sep post,
    lit "TAN: ABCDE1234F" = pre ++ lab ++ sep ++ lit "ABCDE1234F" ++ post /\
    matches true label_TAN lab /\ is_separator sep.
Proof.
  apply (identifier_value (lit "TAN: ABCDE1234F") "TAN" label_TAN
           (lit "ABCDE1234F")).
  - left. reflexivity.
  - reflexivity.
  - vm_compute. reflexivity.
  - vm_compute. discriminate.
Defined.

(** C4 — Cleaning and sentinel of each rule: on a match the captured value
    is trimmed, stripped of its leading run of characters outside letters and
    digits, and trimmed again; without a match, or when that cleaned value is
    empty, the field is ["Not Found"].  The raw value [": ABCDE1234F"] cleans
    to ["ABCDE1234F"]. *)
Theorem rule_cleaning_and_sentinel (f : string) (r : regex) (text : jsstring) :
  In (f, r) rules ->
  get f (extractDetails text)
  = Some match String_match true text r with
         | Some (_, Some raw) =>
             match trim (dropwhile is_junk (trim raw)) with
             | [] => NotFound
             | cleaned => cleaned
             end
         | _ => NotFound
         end
  /\ clean (lit ": ABCDE1234F") = lit "ABCDE1234F".
Proof.
  intros Hin. split; [|vm_compute; reflexivity].
  rewrite (get_rule text f r Hin). f_equal.
  destruct (String_match true text r) as [[m0 [raw|]]|] eqn:E.
  - destruct raw as [|ch raw].
    + unfold extract. rewrite E. reflexivity.
    + rewrite (extract_group text r m0 (ch :: raw) E) by discriminate.
      apply String_match_sound in E. destruct E as (pre & post & _ & Hs & _).
      pose proof (rule_capture_clean f r m0 (ch :: raw) Hin Hs) as Hne.
      rewrite clean_spec in *.
      destruct (trim (dropwhile is_junk (trim (ch :: raw)))); congruence.
  - apply (extract_no_group text r m0 E).
  - apply extract_no_match. exact E.
Qed.

Lemma rule_cleaning_and_sentinel_witness :
  get "TAN" (extractDetails (lit "TAN: ABCDE1234F"))
  = Some match String_match true (lit "TAN: ABCDE1234F") (id_rule label_TAN) with
         | Some (_, Some raw) =>
             match trim (dropwhile is_junk (trim raw)) with
             | [] => NotFound
             | cleaned => cleaned
             end
         | _ => NotFound
         end
  /\ clean (lit ": ABCDE1234F") = lit "ABCDE1234F".
Proof.
  apply (rule_cleaning_and_sentinel "TAN" (id_rule label_TAN)
           (lit "TAN: ABCDE1234F")).
  right. left. reflexivity.
Defined.

(** C2 (as amended) — Full-match scenario: for a text that holds
    ["Name of the Employer: Acme Corp TAN: ABCDE1234F"], with the pattern of
    [TAN] matching at no index before that substring, [extractDetails]
    returns [TAN = "ABCDE1234F"]. *)
Theorem full_match_TAN (pre post : jsstring) :
  (forall j, j < List.length pre ->
     match_at true (id_rule label_TAN) (skipn j (pre ++ acme_text ++ post)) = None) ->
  get "TAN" (extractDetails (pre ++ acme_text ++ post)) = Some (lit "ABCDE1234F").
Proof.
  intros Hpre.
  rewrite (get_rule _ "TAN" (id_rule label_TAN)) by (right; left; reflexivity).
  unfold extract. rewrite String_match_skip by exact Hpre.
  assert (E : String_match true (acme_text ++ post) (id_rule label_TAN)
              = Some (lit "TAN: ABCDE1234F", Some (lit "ABCDE1234F")))
    by (vm_compute; reflexivity).
  rewrite E. vm_compute. reflexivity.
Qed.

Lemma full_match_TAN_witness :
  get "TAN" (extractDetails (lit "Form 16 " ++ acme_text ++ lit " PAN of the Deductor"))
  = Some (lit "ABCDE1234F").
Proof.
  apply (full_match_TAN (lit "Form 16 ") (lit " PAN of the Deductor")).
  intros j Hj.
  do 8 (destruct j as [|j]; [vm_compute; reflexivity|]).
  vm_compute in Hj. lia.
Defined.

(** The scenario as written fails twice: [employerName] is ["Not Found"] on
    the scenario text itself, and an earlier match of the [TAN] pattern
    wins over the one of the substring. *)
Lemma full_match_counterexample :
  get "employerName" (extractDetails acme_text) = Some NotFound /\
  NotFound <> lit "Acme Corp" /\
  (exists pre post, lit "TAN: 0000000000 " ++ acme_text = pre ++ acme_text ++ post) /\
  get "employerName" (extractDetails (lit "TAN: 0000000000 " ++ acme_text))
  = Some NotFound /\
  get "TAN" (extractDetails (lit "TAN: 0000000000 " ++ acme_text))
  = Some (lit "0000000000") /\
  lit "0000000000" <> lit "ABCDE1234F".
Proof.
  split; [vm_compute; reflexivity|]. split; [discriminate|]. split.
  - exists (lit "TAN: 0000000000 "), []. rewrite app_nil_r. reflexivity.
  - vm_compute. repeat split; try reflexivity. discriminate.
Qed.

(** C8 — Label-variant tolerance: the label of a rule accepts each of its
    wordings, and the same value follows either wording (for [totalTDS],
    whose optional words end the label, on the two texts given); a text with
    ["Name of Employer"] and the one with ["Name of the Employer"] extract
    the same way, and both ["Tax on employment u/s 16(iii) ... 2,000.00"] and
    ["Professional Tax u/s 16(iii) ... 2,000.00"] give
    [professionalTax = "2,000.00"]. *)
Theorem label_variant_tolerance :
  (forall f V1 V2 L,
     In (f, (V1, V2)) label_wordings -> assoc f labels = Some L ->
     match_at true L V1 = Some (List.length V1, None) /\
     match_at true L V2 = Some (List.length V2, None)) /\
  (forall f V1 V2 L T rest n cap,
     In (f, (V1, V2)) label_wordings -> f <> "totalTDS"%string ->
     assoc f rules = Some (Seq L T) ->
     match_at true T rest = Some (n, cap) ->
     get f (extractDetails (V1 ++ rest)) = Some (cleaned_or_sentinel cap) /\
     get f (extractDetails (V2 ++ rest)) = Some (cleaned_or_sentinel cap)) /\
  (forall pre post,
     get "employerName" (extractDetails (pre ++ lit "Name of Employer" ++ post))
     = get "employerName" (extractDetails (pre ++ lit "Name of the Employer" ++ post))) /\
  get "professionalTax"
    (extractDetails (lit "Tax on employment u/s 16(iii) ... 2,000.00"))
  = Some (lit "2,000.00") /\
  get "professionalTax"
    (extractDetails (lit "Professional Tax u/s 16(iii) ... 2,000.00"))
  = Some (lit "2,000.00") /\
  get "totalTDS" (extractDetails (lit "Total Tax Deducted 5,000.00"))
  = Some (lit "5,000.00") /\
  get "totalTDS" (extractDetails (lit "Total Tax Deducted at Source 5,000.00"))
  = Some (lit "5,000.00").
Proof.
  split; [|split; [|split]].
  - intros f V1 V2 L Hin HL. simpl in Hin.
    repeat (destruct Hin as [E | Hin];
            [inversion E; subst; simpl in HL; inversion HL; subst;
             split; vm_compute; reflexivity|]).
    contradiction.
  - intros f V1 V2 L T rest n cap Hin Hf Hr HT.
    rewrite !(get_rule _ f (Seq L T)) by (apply assoc_in; exact Hr).
    simpl in Hin.
    repeat (destruct Hin as [E | Hin];
            [inversion E; subst; simpl in Hr; inversion Hr; subst;
             split; f_equal; apply extract_after_label with (n := n);
             try exact HT; intros K x HK; vm_compute in HK; vm_compute;
             rewrite HK; reflexivity|]).
    destruct Hin as [E | []]. inversion E; subst. congruence.
  - intros pre post.
    rewrite !(get_rule _ "employerName" (name_rule label_employerName "TAN"))
      by (left; reflexivity).
    rewrite !extract_nocap by reflexivity. reflexivity.
  - vm_compute. repeat split; reflexivity.
Qed.

Lemma label_variant_tolerance_witness :
  get "employerPAN" (extractDetails (lit "PAN of Deductor" ++ lit ": ABCDE1234F"))
  = Some (cleaned_or_sentinel (Some (lit "ABCDE1234F"))) /\
  get "employerPAN" (extractDetails (lit "PAN of the Deductor" ++ lit ": ABCDE1234F"))
  = Some (cleaned_or_sentinel (Some (lit "ABCDE1234F"))).
Proof.
  apply (proj1 (proj2 label_variant_tolerance) "employerPAN"%string
           (lit "PAN of Deductor") (lit "PAN of the Deductor")
           label_employerPAN (Seq separator (Cap (times 10 AZ09)))
           (lit ": ABCDE1234F") 12 (Some (lit "ABCDE1234F"))).
  - right. right. left. reflexivity.
  - discriminate.
  - reflexivity.
  - vm_compute. reflexivity.
Defined.

(** * Further properties of [extractDetails] *)

Section FurtherExtractFacts.

Lemma year_no_space raw :
  is_year raw -> forallb (fun ch => negb (is_space ch)) raw = true.
Proof.
  intros (y1 & y2 & -> & _ & _ & F1 & F2).
  rewrite forallb_app, (no_space_of is_digit y1 digit_not_space F1).
  cbn [app forallb andb].
  rewrite (no_space_of is_digit y2 digit_not_space F2). reflexivity.
Qed.

Lemma currency_no_space raw :
  is_currency raw -> forallb (fun ch => negb (is_space ch)) raw = true.
Proof.
  intros (ds & d1 & d2 & -> & _ & F & Fd1 & Fd2).
  rewrite forallb_app. rewrite (no_space_of _ ds digit_comma_not_space F).
  simpl. rewrite (digit_not_space d1 Fd1), (digit_not_space d2 Fd2). reflexivity.
Qed.

Lemma alnum_no_space raw :
  forallb is_alnum raw = true -> forallb (fun ch => negb (is_space ch)) raw = true.
Proof. apply no_space_of. exact is_alnum_not_space. Qed.

Lemma alnum_shape raw :
  List.length raw = 10 -> forallb is_alnum raw = true ->
  forallb (fun ch => negb (is_space ch)) raw = true /\ existsb is_alnum raw = true.
Proof.
  intros Hlen Hall. split; [apply alnum_no_space; exact Hall|].
  destruct raw as [|ch raw]; [discriminate|]. simpl in Hall |- *.
  apply andb_true_iff in Hall. destruct Hall as [-> _]. reflexivity.
Qed.

Lemma year_shape raw :
  is_year raw ->
  forallb (fun ch => negb (is_space ch)) raw = true /\ existsb is_alnum raw = true.
Proof.
  intros Hy. split; [apply year_no_space; exact Hy|].
  destruct Hy as (y1 & y2 & -> & L1 & _ & F1 & _).
  destruct y1 as [|d y1]; [discriminate|]. simpl in F1 |- *.
  apply andb_true_iff in F1. destruct F1 as [Fd _].
  rewrite (is_digit_alnum d Fd). reflexivity.
Qed.

Lemma currency_shape raw :
  is_currency raw ->
  forallb (fun ch => negb (is_space ch)) raw = true /\ existsb is_alnum raw = true.
Proof.
  intros Hc. split; [apply currency_no_space; exact Hc|].
  destruct Hc as (ds & d1 & d2 & -> & _ & _ & Fd1 & _).
  rewrite existsb_app. cbn [existsb]. rewrite (is_digit_alnum d1 Fd1).
  rewrite !orb_true_r. reflexivity.
Qed.

(** What each pattern of the table captures: no white space inside, and a
    letter or digit somewhere. *)
Lemma rule_capture_shape f r m0 raw :
  In (f, r) rules -> sem true r m0 None (Some raw) ->
  forallb (fun ch => negb (is_space ch)) raw = true /\
  existsb is_alnum raw = true.
Proof.
  intros Hin Hs. simpl in Hin.
  repeat (destruct Hin as [E | Hin]; [inversion E; subst; clear E|]);
    try contradiction;
    first
      [ apply sem_nocap in Hs; [discriminate | reflexivity]
      | apply id_rule_sem in Hs;
        destruct Hs as (lab & sp & raw' & _ & _ & _ & E & Hlen & Hall);
        inversion E; subst; apply alnum_shape; assumption
      | apply year_rule_sem in Hs;
        destruct Hs as (lab & sp & raw' & _ & _ & _ & E & Hy);
        inversion E; subst; apply year_shape; assumption
      | apply money_rule_sem in Hs;
        destruct Hs as (lab & g & raw' & _ & _ & E & Hc);
        inversion E; subst; apply currency_shape; assumption ].
Qed.

Lemma not_found_has_space v :
  forallb (fun ch => negb (is_space ch)) v = true -> v <> NotFound.
Proof. intros H ->. vm_compute in H. discriminate. Qed.

(** The cleaned capture of a pattern of the table: what is left of the
    capture from its first letter or digit on. *)
Lemma rule_capture_cleaned f r m0 raw :
  In (f, r) rules -> sem true r m0 None (Some raw) ->
  clean raw = dropwhile is_junk raw /\
  forallb (fun ch => negb (is_space ch)) (clean raw) = true /\
  no_leading_junk (clean raw) /\ clean raw <> [].
Proof.
  intros Hin Hs. destruct (rule_capture_shape f r m0 raw Hin Hs) as [Hsp Hal].
  assert (E : clean raw = dropwhile is_junk raw) by (apply clean_no_space; exact Hsp).
  split; [exact E|]. split; [|split].
  - rewrite E. apply dropwhile_keeps_all. exact Hsp.
  - apply clean_is_clean.
  - apply (rule_capture_clean f r m0 raw Hin Hs).
Qed.

End FurtherExtractFacts.

(** Every field of the result is the sentinel or a non-empty token without
    white space that starts with a letter or digit; it is never the empty
    string. *)
Theorem field_value_shape (text : jsstring) (f : string) (v : jsstring) :
  In (f, v) (extractDetails text) ->
  v <> [] /\
  (v = NotFound \/
   (forallb (fun ch => negb (is_space ch)) v = true /\ no_leading_junk v)).
Proof.
  intros Hin. apply in_extractDetails in Hin. destruct Hin as (r & Hr & ->).
  destruct (extract_cases text r) as [E | (m0 & raw & E & _ & Ec)].
  - rewrite E. split; [discriminate | left; reflexivity].
  - apply String_match_sound in E. destruct E as (pre & post & _ & Hs & _).
    destruct (rule_capture_cleaned f r m0 raw Hr Hs) as (_ & Hsp & Hj & Hne).
    rewrite Ec. split; [exact Hne | right; split; assumption].
Qed.

Lemma field_value_shape_witness :
  lit "ABCDE1234F" <> [] /\
  (lit "ABCDE1234F" = NotFound \/
   (forallb (fun ch => negb (is_space ch)) (lit "ABCDE1234F") = true /\
    no_leading_junk (lit "ABCDE1234F"))).
Proof.
  apply (field_value_shape (lit "TAN: ABCDE1234F") "TAN" (lit "ABCDE1234F")).
  vm_compute. right. left. reflexivity.
Defined.

(** The sentinel is unambiguous: a field of the table is ["Not Found"]
    exactly when the pattern found nothing to capture; no text can make a
    pattern extract the words of the sentinel. *)
Theorem sentinel_iff_no_capture (f : string) (r : regex) (text : jsstring) :
  In (f, r) rules ->
  (extract text r = NotFound <->
   forall m0 raw, String_match true text r <> Some (m0, Some raw)).
Proof.
  intros Hr. split.
  - intros E m0 raw Hm.
    pose proof Hm as Hm'. apply String_match_sound in Hm'.
    destruct Hm' as (pre & post & _ & Hs & _).
    destruct (rule_capture_cleaned f r m0 raw Hr Hs) as (_ & Hsp & _ & Hne).
    assert (raw <> []) by (intros ->; apply Hne; reflexivity).
    rewrite (extract_group text r m0 raw Hm) in E by assumption.
    revert E. apply not_found_has_space. exact Hsp.
  - intros Hno. destruct (extract_cases text r) as [E | (m0 & raw & E & _ & _)];
      [exact E|]. exfalso. apply (Hno m0 raw E).
Qed.

Lemma sentinel_iff_no_capture_witness :
  extract (lit "no label here") (id_rule label_TAN) = NotFound <->
  forall m0 raw,
    String_match true (lit "no label here") (id_rule label_TAN) <> Some (m0, Some raw).
Proof.
  apply (sentinel_iff_no_capture "TAN" (id_rule label_TAN) (lit "no label here")).
  right. left. reflexivity.
Defined.

(** The assessment year: a value other than the sentinel is four digits, a
    dash and two to four digits, right after an occurrence of the label
    and a separator. *)
Theorem assessmentYear_value (text v : jsstring) :
  get "assessmentYear" (extractDetails text) = Some v -> v <> NotFound ->
  is_year v /\
  exists pre lab sep post,
    text = pre ++ lab ++ sep ++ v ++ post /\
    matches true label_assessmentYear lab /\ is_separator sep.
Proof.
  intros Hget Hv.
  assert (Hr : v = extract text year_rule).
  { rewrite get_extractDetails in Hget. simpl in Hget. inversion Hget. reflexivity. }
  destruct (extract_cases text year_rule) as [E | (m0 & raw & E & _ & Ec)];
    [congruence|].
  apply String_match_sound in E. destruct E as (pre & post & -> & Hs & _).
  apply year_rule_sem in Hs. destruct Hs as (lab & sp & raw' & -> & Hl & Hsp & E & Hy).
  inversion E; subst raw'; clear E.
  destruct (year_value raw Hy) as [Eclean _]. rewrite Eclean in Ec.
  rewrite Ec in Hr. subst v. split; [exact Hy|].
  exists pre, lab, sp, post. rewrite <- !app_assoc. auto.
Qed.

Lemma assessmentYear_value_witness :
  is_year (lit "2024-25") /\
  exists pre lab sep post,
    lit "Assessment Year : 2024-25" = pre ++ lab ++ sep ++ lit "2024-25" ++ post /\
    matches true label_assessmentYear lab /\ is_separator sep.
Proof.
  apply (assessmentYear_value (lit "Assessment Year : 2024-25") (lit "2024-25")).
  - vm_compute. reflexivity.
  - vm_compute. discriminate.
Defined.

Section FurtherCleaningFacts.

Lemma dropwhile_app_nonempty (p : char -> bool) a b :
  dropwhile p a <> [] -> dropwhile p (a ++ b) = dropwhile p a ++ b.
Proof.
  induction a as [|ch a IH]; simpl; [congruence|].
  destruct (p ch); [exact IH | reflexivity].
Qed.

Lemma dropwhile_app_all (p : char -> bool) a b :
  forallb p a = true -> dropwhile p (a ++ b) = dropwhile p b.
Proof.
  induction a as [|ch a IH]; simpl; [reflexivity|].
  intros H. apply andb_true_iff in H. destruct H as [-> H]. auto.
Qed.

Lemma dropwhile_nil_all (p : char -> bool) s :
  dropwhile p s = [] -> forallb p s = true.
Proof.
  induction s as [|ch s IH]; simpl; [reflexivity|].
  destruct (p ch); [exact IH | discriminate].
Qed.

(** A cleaned currency match. *)
Lemma currency_cleaned raw : is_currency raw -> is_amount (dropwhile is_junk raw).
Proof.
  intros (ds & d1 & d2 & -> & Hne & F & Fd1 & Fd2).
  destruct (dropwhile is_junk ds) as [|d ints] eqn:E.
  - apply dropwhile_nil_all in E. rewrite (dropwhile_app_all is_junk _ _ E).
    assert (Ed : dropwhile is_junk [chr "."; d1; d2] = [d1; d2]).
    { cbn [dropwhile]. replace (is_junk (chr ".")) with true by reflexivity.
      unfold is_junk. rewrite (is_digit_alnum d1 Fd1). reflexivity. }
    rewrite Ed. exists [], d1, d2. repeat split; auto.
  - rewrite dropwhile_app_nonempty by (rewrite E; discriminate). rewrite E.
    pose proof (dropwhile_starts is_junk ds) as Hs. rewrite E in Hs.
    pose proof (dropwhile_keeps_all is_junk _ ds F) as Hk. rewrite E in Hk.
    simpl in Hk. apply andb_true_iff in Hk. destruct Hk as [Hd Hints].
    assert (Hdig : is_digit d = true).
    { apply orb_true_iff in Hd. destruct Hd as [Hd | Hd]; [exact Hd|].
      apply N.eqb_eq in Hd. subst d. discriminate. }
    exists (d :: ints ++ [chr "."]), d1, d2. repeat split; auto.
    + simpl. rewrite <- app_assoc. reflexivity.
    + right. exists d, ints. auto.
Qed.

(** [trim] and the cleaning step only cut characters off the two ends. *)
Lemma trim_inside s : exists a b, s = a ++ trim s ++ b.
Proof.
  destruct (trim_prefix s) as [t Ht]. exists (takewhile is_space s), t.
  rewrite <- Ht. symmetry. apply takewhile_dropwhile.
Qed.

Lemma clean_inside raw : exists a b, raw = a ++ clean raw ++ b.
Proof.
  rewrite clean_spec.
  destruct (trim_inside raw) as (a1 & b1 & E1).
  destruct (trim_inside (dropwhile is_junk (trim raw))) as (a2 & b2 & E2).
  pose proof (takewhile_dropwhile is_junk (trim raw)) as E3.
  exists (a1 ++ takewhile is_junk (trim raw) ++ a2), (b2 ++ b1).
  rewrite E1 at 1. rewrite <- E3 at 1. rewrite E2 at 1.
  repeat rewrite <- app_assoc. reflexivity.
Qed.

(** Group 1 after a match is the group before it, or unset, or a part of
    what was matched. *)
Lemma sem_capture_inside ic r w c c' :
  sem ic r w c c' ->
  c' = c \/ c' = None \/ exists a x b, c' = Some x /\ w = a ++ x ++ b.
Proof.
  induction 1 as [c|a ch c Hp|ch c Hp|inv items ch c Hp
                  |r1 r2 w1 w2 c c1 c2 H1 IH1 H2 IH2
                  |r1 r2 w c c' H1 IH1|r1 r2 w c c' H1 IH1
                  |r mn g c|r mx g c
                  |r mn mx g w1 w2 c c1 c2 Hmx H1 IH1 Hne H2 IH2
                  |r w c c' H1 IH1]; auto.
  - destruct IH2 as [-> | [-> | (a & x & b & -> & ->)]]; auto.
    + destruct IH1 as [-> | [-> | (a & x & b & -> & ->)]]; auto.
      right. right. exists a, x, (b ++ w2). split; [reflexivity|].
      repeat rewrite <- app_assoc. reflexivity.
    + right. right. exists (w1 ++ a), x, b. split; [reflexivity|].
      repeat rewrite <- app_assoc. reflexivity.
  - destruct IH2 as [-> | [-> | (a & x & b & -> & ->)]]; auto.
    + destruct IH1 as [-> | [-> | (a & x & b & -> & ->)]]; auto.
      * destruct (has_cap r); auto.
      * right. right. exists a, x, (b ++ w2). split; [reflexivity|].
        repeat rewrite <- app_assoc. reflexivity.
    + right. right. exists (w1 ++ a), x, b. split; [reflexivity|].
      repeat rewrite <- app_assoc. reflexivity.
  - right. right. exists [], w, []. rewrite app_nil_r. auto.
Qed.

Lemma monetary_field_rule f :
  In f monetary_fields ->
  exists L, assoc f rules = Some (money_rule L) /\ assoc f labels = Some L.
Proof.
  intros Hin. simpl in Hin.
  repeat (destruct Hin as [<- | Hin]; [eexists; split; reflexivity|]).
  contradiction.
Qed.

End FurtherCleaningFacts.

(** A monetary field other than the sentinel starts with a digit and ends
    with two digits: it is two digits, or a digit, digits and commas, a dot
    and two digits. *)
Theorem monetary_amount_shape (text : jsstring) (f : string) (v : jsstring) :
  In f monetary_fields ->
  get f (extractDetails text) = Some v -> v <> NotFound -> is_amount v.
Proof.
  intros Hf Hget Hv. destruct (monetary_field_rule f Hf) as (L & HR & _).
  rewrite get_extractDetails, HR in Hget. simpl in Hget. inversion Hget as [Hr].
  destruct (extract_cases text (money_rule L)) as [E | (m0 & raw & E & _ & Ec)];
    [congruence|].
  apply String_match_sound in E. destruct E as (pre & post & _ & Hs & _).
  apply money_rule_sem in Hs. destruct Hs as (lab & g & raw' & _ & _ & E & Hc).
  inversion E; subst raw'; clear E.
  destruct (currency_value raw Hc) as (Eclean & _ & _).
  rewrite Ec, Eclean. apply currency_cleaned. exact Hc.
Qed.

Lemma monetary_amount_shape_witness : is_amount (lit "50").
Proof.
  apply (monetary_amount_shape (lit "Gross Salary ,.50") "grossSalary" (lit "50")).
  - left. reflexivity.
  - vm_compute. reflexivity.
  - vm_compute. discriminate.
Defined.

(** Extraction invents nothing: a field other than the sentinel stands
    verbatim in the text. *)
Theorem value_occurs_verbatim (text : jsstring) (f : string) (v : jsstring) :
  In (f, v) (extractDetails text) -> v <> NotFound ->
  exists pre post, text = pre ++ v ++ post.
Proof.
  intros Hin Hv. apply in_extractDetails in Hin. destruct Hin as (r & Hr & ->).
  destruct (extract_cases text r) as [E | (m0 & raw & E & _ & Ec)];
    [contradiction|].
  apply String_match_sound in E. destruct E as (pre & post & -> & Hs & _).
  apply sem_capture_inside in Hs.
  destruct Hs as [Hs | [Hs | (a & x & b & Hx & ->)]]; try discriminate.
  inversion Hx; subst x; clear Hx.
  destruct (clean_inside raw) as (a' & b' & Eraw). rewrite Ec.
  exists (pre ++ a ++ a'), (b' ++ b ++ post).
  rewrite Eraw at 1. repeat rewrite <- app_assoc. reflexivity.
Qed.

Lemma value_occurs_verbatim_witness :
  exists pre post, lit "Gross Salary ,.50" = pre ++ lit "50" ++ post.
Proof.
  apply (value_occurs_verbatim (lit "Gross Salary ,.50") "grossSalary" (lit "50")).
  - vm_compute. do 6 right. left. reflexivity.
  - vm_compute. discriminate.
Defined.

(** The leftmost match decides: when the pattern of a field matches at the
    start of [rest] and at no index inside [pre], the field of
    [pre ++ rest] is what that match captures. *)
Theorem leftmost_match_decides (f : string) (r : regex) (pre rest : jsstring)
    (n : nat) (cap : captures) :
  In (f, r) rules ->
  (forall j, j < List.length pre ->
     match_at true r (skipn j (pre ++ rest)) = None) ->
  match_at true r rest = Some (n, cap) ->
  get f (extractDetails (pre ++ rest)) = Some (cleaned_or_sentinel cap).
Proof.
  intros Hr Hpre Hm. rewrite (get_rule _ f r Hr). f_equal. unfold extract.
  rewrite String_match_skip by exact Hpre.
  rewrite (String_match_first true r rest n cap Hm).
  destruct cap as [[|ch raw]|]; reflexivity.
Qed.

Lemma leftmost_match_decides_witness :
  get "TAN" (extractDetails (lit "x " ++ lit "TAN: AAAAA1111A TAN: BBBBB2222B"))
  = Some (cleaned_or_sentinel (Some (lit "AAAAA1111A"))).
Proof.
  apply (leftmost_match_decides "TAN" (id_rule label_TAN) (lit "x ")
           (lit "TAN: AAAAA1111A TAN: BBBBB2222B") 15 (Some (lit "AAAAA1111A"))).
  - right. left. reflexivity.
  - intros j Hj. do 2 (destruct j as [|j]; [vm_compute; reflexivity|]).
    vm_compute in Hj. lia.
  - vm_compute. reflexivity.
Defined.

(** Cleaning is idempotent on every input, its outcome has no white space
    at either end and no leading character outside letters and digits, and
    it is a part of the raw value. *)
Theorem cleaning_idempotent (raw : jsstring) :
  clean (clean raw) = clean raw /\
  no_surrounding_space (clean raw) /\ no_leading_junk (clean raw) /\
  exists a b, raw = a ++ clean raw ++ b.
Proof.
  destruct (clean_is_clean raw) as [Hs Hj].
  split; [apply clean_fixed; assumption|].
  split; [exact Hs|]. split; [exact Hj|]. apply clean_inside.
Qed.

Section SameLine.

Lemma sem_quant_dot ic g :
  forall q w c c', sem ic q w c c' ->
  forall mn mx, q = Quant Dot mn mx g ->
    forallb dot_match w = true /\ c' = c.
Proof.
  induction 1 as [c|a ch c Hp|ch c Hp|inv' items' ch c Hp
                  |r1 r2 w1 w2 c c1 c2 H1 IH1 H2 IH2
                  |r1 r2 w c c' H1 IH1|r1 r2 w c c' H1 IH1
                  |r mn' g' c|r mx' g' c
                  |r mn' mx' g' w1 w2 c c1 c2 Hmx H1 IH1 Hne H2 IH2
                  |r w c c' H1 IH1]; intros mn mx E; try discriminate.
  - split; reflexivity.
  - split; reflexivity.
  - inversion E; subst. clear IH1. simpl in H1.
    inversion H1; subst.
    destruct (IH2 (pred mn) (option_map pred mx) eq_refl) as (Hall & ->).
    simpl. rewrite Hall. split; [|reflexivity].
    match goal with Hd : dot_match _ = true |- _ => rewrite Hd end. reflexivity.
Qed.

Lemma sem_dots w c c' :
  sem true dots w c c' ->
  forallb (fun ch => negb (is_line_terminator ch)) w = true /\ c' = c.
Proof. intros H. exact (sem_quant_dot true false _ _ _ _ H 0 None eq_refl). Qed.

Lemma sem_label_standardDeduction lab c c' :
  sem true label_standardDeduction lab c c' ->
  exists a d b,
    lab = a ++ d ++ b /\ matches true head_standardDeduction a /\
    forallb (fun ch => negb (is_line_terminator ch)) d = true /\
    matches true section_16ia b.
Proof.
  unfold label_standardDeduction, seqs. cbn [fold_right]. intros H.
  apply sem_seq_inv in H. destruct H as (w1 & x1 & c1 & -> & H1 & H).
  apply sem_seq_inv in H. destruct H as (w2 & x2 & c2 & -> & H2 & H).
  apply sem_seq_inv in H. destruct H as (w3 & x3 & c3 & -> & H3 & H).
  apply sem_seq_inv in H. destruct H as (d & x4 & c4 & -> & H4 & H).
  apply sem_seq_inv in H. destruct H as (w5 & x5 & c5 & -> & H5 & H).
  apply sem_seq_inv in H. destruct H as (w6 & x6 & c6 & -> & H6 & H).
  apply sem_seq_inv in H. destruct H as (w7 & x7 & c7 & -> & H7 & H).
  apply sem_eps_inv in H. destruct H as [-> ->].
  apply sem_dots in H4. destruct H4 as [Hd ->].
  exists (w1 ++ w2 ++ w3 ++ []), d, (w5 ++ w6 ++ w7 ++ []). repeat split.
  - rewrite !app_nil_r. repeat rewrite <- app_assoc. reflexivity.
  - exists c, c3. unfold head_standardDeduction, seqs. cbn [fold_right].
    repeat (eapply sem_seq; [eassumption|]). apply sem_eps.
  - exact Hd.
  - exists c3, c7. unfold section_16ia, seqs. cbn [fold_right].
    repeat (eapply sem_seq; [eassumption|]). apply sem_eps.
Qed.

End SameLine.

(** The standard deduction is found only when ["u/s 16(ia)"] stands on the
    line of ["Standard Deduction"]: between the two parts of the label no
    line terminator occurs (the [.] of the pattern does not match one), while
    the amount may follow on a later line. *)
Theorem standardDeduction_same_line (text v : jsstring) :
  get "standardDeduction" (extractDetails text) = Some v -> v <> NotFound ->
  exists pre a d b rest,
    text = pre ++ a ++ d ++ b ++ rest /\
    matches true head_standardDeduction a /\
    forallb (fun ch => negb (is_line_terminator ch)) d = true /\
    matches true section_16ia b.
Proof.
  intros Hget Hv.
  assert (Hr : v = extract text (money_rule label_standardDeduction)).
  { rewrite get_extractDetails in Hget. simpl in Hget. inversion Hget. reflexivity. }
  destruct (extract_cases text (money_rule label_standardDeduction))
    as [E | (m0 & raw & E & _ & _)]; [congruence|].
  apply String_match_sound in E. destruct E as (pre & post & -> & Hs & _).
  apply money_rule_sem in Hs.
  destruct Hs as (lab & g & raw' & -> & (c & c' & Hl) & _ & _).
  apply sem_label_standardDeduction in Hl.
  destruct Hl as (a & d & b & -> & Ha & Hd & Hb).
  exists pre, a, d, b, (g ++ raw' ++ post). repeat split; auto.
  repeat rewrite <- app_assoc. reflexivity.
Qed.

Lemma standardDeduction_same_line_witness :
  exists pre a d b rest,
    lit "Standard Deduction under section u/s 16(ia) 50,000.00"
    = pre ++ a ++ d ++ b ++ rest /\
    matches true head_standardDeduction a /\
    forallb (fun ch => negb (is_line_terminator ch)) d = true /\
    matches true section_16ia b.
Proof.
  apply (standardDeduction_same_line
           (lit "Standard Deduction under section u/s 16(ia) 50,000.00")
           (lit "50,000.00")).
  - vm_compute. reflexivity.
  - vm_compute. discriminate.
Defined.

(** * Case *)

Section CaseFacts.
Open Scope N_scope.

Ltac split_cmp :=
  repeat match goal with
  | |- context [N.leb ?a ?b] => destruct (N.leb_spec a b); try (exfalso; lia)
  | H : context [N.leb ?a ?b] |- _ => destruct (N.leb_spec a b); try (exfalso; lia)
  | |- context [N.eqb ?a ?b] => destruct (N.eqb_spec a b); try (exfalso; lia)
  | H : context [N.eqb ?a ?b] |- _ => destruct (N.eqb_spec a b); try (exfalso; lia)
  end.

Lemma up_idempotent c : canonicalize true (canonicalize true c) = canonicalize true c.
Proof.
  unfold canonicalize, is_lower, in_range. split_cmp; simpl in *; try reflexivity; lia.
Qed.

Lemma up_swapcase c :
  canonicalize true c = c /\ swapcase (canonicalize true c) = swapcase c \/
  canonicalize true c = swapcase c /\ swapcase (canonicalize true c) = c.
Proof.
  unfold canonicalize, swapcase, is_upper, is_lower, in_range.
  split_cmp; simpl in *; try (left; split; reflexivity); lia.
Qed.

Lemma up_alnum c : is_alnum (canonicalize true c) = is_alnum c.
Proof.
  unfold canonicalize, is_alnum, is_digit, is_upper, is_lower, in_range.
  split_cmp; simpl in *; try reflexivity; lia.
Qed.

Lemma up_space c : is_space (canonicalize true c) = is_space c.
Proof.
  unfold canonicalize. destruct (is_lower c) eqn:L; simpl; [|reflexivity].
  rewrite (is_alnum_not_space (c - 32)), (is_alnum_not_space c); auto.
  - unfold is_alnum. rewrite L. reflexivity.
  - revert L. unfold is_alnum, is_digit, is_upper, is_lower, in_range.
    split_cmp; simpl in *; intros; try reflexivity; try discriminate; lia.
Qed.

Lemma up_line_terminator c :
  is_line_terminator (canonicalize true c) = is_line_terminator c.
Proof.
  unfold canonicalize, is_line_terminator, is_lower, in_range.
  split_cmp; simpl in *; try reflexivity; lia.
Qed.

Lemma up_chr_match a c :
  chr_match true a (canonicalize true c) = chr_match true a c.
Proof. unfold chr_match. rewrite up_idempotent. reflexivity. Qed.

Lemma up_class_match inv items c :
  class_match true inv items (canonicalize true c) = class_match true inv items c.
Proof.
  unfold class_match. simpl.
  destruct (up_swapcase c) as [[E1 E2] | [E1 E2]]; rewrite E2, E1;
    [reflexivity|]. f_equal. apply orb_comm.
Qed.

Lemma up_dot_match c : dot_match (canonicalize true c) = dot_match c.
Proof. unfold dot_match. rewrite up_line_terminator. reflexivity. Qed.

End CaseFacts.

Section UpcaseFacts.

Lemma one_char_upcase (p : char -> bool) s c k k' :
  (forall ch, p (canonicalize true ch) = p ch) ->
  upcase_related k k' ->
  one_char p (upcase s) (option_map upcase c) k'
  = option_map upcase_result (one_char p s c k).
Proof.
  intros Hp Hk. destruct s as [|ch s]; simpl; [reflexivity|].
  rewrite Hp. destruct (p ch); [apply Hk | reflexivity].
Qed.

Lemma repeat_upcase (body : jsstring -> captures -> cont -> option result)
    (reset g : bool) :
  (forall s c k k', upcase_related k k' ->
     body (upcase s) (option_map upcase c) k'
     = option_map upcase_result (body s c k)) ->
  forall fuel mn mx acc s c k k',
    upcase_related k k' ->
    RepeatMatcher body reset g fuel mn mx acc (upcase s) (option_map upcase c) k'
    = option_map upcase_result (RepeatMatcher body reset g fuel mn mx acc s c k).
Proof.
  intros Hbody. induction fuel as [|fuel IH]; intros mn mx acc s c k k' Hk.
  - rewrite !RepeatMatcher_out. apply Hk.
  - destruct (max_zero_dec mx) as [-> | Hmx].
    { rewrite !RepeatMatcher_stop. apply Hk. }
    rewrite !RepeatMatcher_step by exact Hmx.
    assert (Hd :
      body (upcase s) (if reset then None else option_map upcase c)
        (next_round body reset g fuel mn mx acc k')
      = option_map upcase_result
          (body s (if reset then None else c)
             (next_round body reset g fuel mn mx acc k))).
    { assert (Hn : upcase_related (next_round body reset g fuel mn mx acc k)
                                  (next_round body reset g fuel mn mx acc k')).
      { intros n s1 c1. unfold next_round.
        destruct ((mn =? 0) && (n =? 0)); [reflexivity|]. apply IH; auto. }
      destruct reset; [apply (Hbody s None) | apply (Hbody s c)]; exact Hn. }
    destruct (negb (mn =? 0)); [apply Hd|].
    destruct g; rewrite Hd, (Hk acc s c); apply or_else_map.
Qed.

(** The matcher with the [i] flag does on the upper-cased input what it
    does on the input. *)
Lemma m_upcase (r : regex) :
  forall s c k k',
    upcase_related k k' ->
    m true r (upcase s) (option_map upcase c) k'
    = option_map upcase_result (m true r s c k).
Proof.
  induction r as [|a| |inv items|r1 IH1 r2 IH2|r1 IH1 r2 IH2|r1 IH1 mn mx g|r1 IH1];
    intros s c k k' Hk; simpl.
  - apply Hk.
  - apply one_char_upcase; auto. apply up_chr_match.
  - apply one_char_upcase; auto. apply up_dot_match.
  - apply one_char_upcase; auto. apply up_class_match.
  - apply IH1. intros n1 s1 c1. apply IH2. intros n2 s2 c2. apply Hk.
  - rewrite (IH1 s c k k' Hk), (IH2 s c k k' Hk). apply or_else_map.
  - unfold upcase at 1. rewrite length_map. apply repeat_upcase; auto.
  - apply IH1. intros n s' c'.
    replace (Some (firstn n (upcase s)))
      with (option_map upcase (Some (firstn n s)))
      by (simpl; unfold upcase; rewrite firstn_map; reflexivity).
    apply Hk.
Qed.

Lemma match_at_upcase r s :
  match_at true r (upcase s) = option_map upcase_result (match_at true r s).
Proof.
  unfold match_at. apply (m_upcase r s None). intros n s' c'. reflexivity.
Qed.

Lemma String_match_upcase r : forall s,
  String_match true (upcase s) r
  = option_map (fun mc => (upcase (fst mc), option_map upcase (snd mc)))
      (String_match true s r).
Proof.
  induction s as [|ch s IH].
  - simpl. change (@nil char) with (upcase []) at 1. rewrite match_at_upcase.
    destruct (match_at true r []) as [[n c]|]; simpl;
      rewrite ?firstn_nil; reflexivity.
  - change (String_match true (upcase (ch :: s)) r) with
      (match match_at true r (upcase (ch :: s)) with
       | Some (n, c) => Some (firstn n (upcase (ch :: s)), c)
       | None => String_match true (upcase s) r
       end).
    rewrite match_at_upcase. simpl String_match.
    destruct (match_at true r (ch :: s)) as [[n c]|]; simpl.
    + unfold upcase. rewrite <- firstn_map. reflexivity.
    + exact IH.
Qed.

Lemma dropwhile_map (p : char -> bool) (f : char -> char) s :
  (forall ch, p (f ch) = p ch) ->
  dropwhile p (map f s) = map f (dropwhile p s).
Proof.
  intros Hp. induction s as [|ch s IH]; simpl; [reflexivity|].
  rewrite Hp. destruct (p ch); [exact IH | reflexivity].
Qed.

Lemma trim_upcase s : trim (upcase s) = upcase (trim s).
Proof.
  unfold trim, upcase.
  rewrite (dropwhile_map is_space) by exact up_space.
  rewrite <- map_rev, (dropwhile_map is_space) by exact up_space.
  rewrite map_rev. reflexivity.
Qed.

Lemma clean_upcase s : clean (upcase s) = upcase (clean s).
Proof.
  rewrite !clean_spec, trim_upcase. unfold upcase at 1.
  rewrite (dropwhile_map is_junk).
  - apply trim_upcase.
  - intros ch. unfold is_junk. rewrite up_alnum. reflexivity.
Qed.

End UpcaseFacts.

(** Letter case does not matter for finding a field: on the upper-cased text
    a field is the sentinel exactly when it is on the text, and otherwise it
    is the upper-cased value. *)
Theorem extraction_ignores_case (f : string) (r : regex) (text : jsstring) :
  In (f, r) rules ->
  get f (extractDetails (upcase text))
  = Some (if list_eq_dec N.eq_dec (extract text r) NotFound
          then NotFound
          else upcase (extract text r)).
Proof.
  intros Hr. rewrite (get_rule _ f r Hr). f_equal.
  unfold extract at 1. rewrite String_match_upcase.
  destruct (String_match true text r) as [[m0 [[|ch raw]|]]|] eqn:E; simpl.
  - unfold extract. rewrite E.
    destruct (list_eq_dec N.eq_dec NotFound NotFound); congruence.
  - pose proof E as E'. apply String_match_sound in E'.
    destruct E' as (pre & post & _ & Hs & _).
    destruct (rule_capture_cleaned f r m0 (ch :: raw) Hr Hs) as (_ & Hsp & _ & _).
    rewrite (extract_group text r m0 (ch :: raw) E) by discriminate.
    destruct (list_eq_dec N.eq_dec (clean (ch :: raw)) NotFound) as [Eq | _].
    + exfalso. revert Eq. apply not_found_has_space. exact Hsp.
    + exact (clean_upcase (ch :: raw)).
  - unfold extract. rewrite E.
    destruct (list_eq_dec N.eq_dec NotFound NotFound); congruence.
  - unfold extract. rewrite E.
    destruct (list_eq_dec N.eq_dec NotFound NotFound); congruence.
Qed.

Lemma extraction_ignores_case_witness :
  get "employeePAN" (extractDetails (upcase (lit "pan of the employee: abcde1234f")))
  = Some (if list_eq_dec N.eq_dec
               (extract (lit "pan of the employee: abcde1234f")
                  (id_rule label_employeePAN)) NotFound
          then NotFound
          else upcase (extract (lit "pan of the employee: abcde1234f")
                         (id_rule label_employeePAN))).
Proof.
  apply (extraction_ignores_case "employeePAN" (id_rule label_employeePAN)
           (lit "pan of the employee: abcde1234f")).
  do 4 right. left. reflexivity.
Defined.

(** * The page text and the report *)

Section PipelineFacts.

Lemma fold_left_linearize pages : forall acc,
  fold_left (fun fullText items => fullText ++ (join [SP] items ++ [LF])) pages acc
  = acc ++ List.concat (map (fun items => join [SP] items ++ [LF]) pages).
Proof.
  induction pages as [|p pages IH]; intros acc; simpl.
  - rewrite app_nil_r. reflexivity.
  - rewrite IH, <- app_assoc. reflexivity.
Qed.

Lemma linearize_concat pages :
  linearize pages = List.concat (map (fun items => join [SP] items ++ [LF]) pages).
Proof. unfold linearize. rewrite fold_left_linearize. reflexivity. Qed.

(** A pattern that starts with a letter or digit fails where the input
    starts with white space or is over. *)
Lemma starts_with_alnum_fails (r : regex) :
  starts_with_alnum r = true ->
  forall s c k,
    match s with [] => True | ch :: _ => is_space ch = true end ->
    m true r s c k = None.
Proof.
  induction r as [|a| |inv items|r1 IH1 r2 IH2|r1 IH1 r2 IH2|r1 IH1 mn mx g|r1 IH1];
    simpl; intros Hst s c k Hs; try discriminate.
  - destruct s as [|ch s]; [reflexivity|]. simpl.
    destruct (chr_match true a ch) eqn:E; [|reflexivity]. exfalso.
    unfold chr_match in E. apply N.eqb_eq in E.
    pose proof (up_space ch) as H1. rewrite E, Hs in H1.
    rewrite is_alnum_not_space in H1; [discriminate|].
    rewrite up_alnum. exact Hst.
  - apply IH1; assumption.
  - apply andb_true_iff in Hst. destruct Hst as [H1 H2].
    rewrite (IH1 H1 s c k Hs), (IH2 H2 s c k Hs). reflexivity.
  - apply IH1; assumption.
Qed.

Lemma rules_start_with_alnum f r : In (f, r) rules -> starts_with_alnum r = true.
Proof.
  intros Hin. simpl in Hin.
  repeat (destruct Hin as [E | Hin]; [inversion E; reflexivity|]). contradiction.
Qed.

Lemma String_match_blank r :
  starts_with_alnum r = true ->
  forall s, forallb is_space s = true -> String_match true s r = None.
Proof.
  intros Hst. induction s as [|ch s IH]; intros Hs; simpl.
  - unfold match_at. rewrite (starts_with_alnum_fails r Hst); auto.
  - simpl in Hs. apply andb_true_iff in Hs. destruct Hs as [Hc Hs].
    unfold match_at. rewrite (starts_with_alnum_fails r Hst); auto.
Qed.

Lemma join_blank items :
  Forall (fun it => forallb is_space it = true) items ->
  forallb is_space (join [SP] items) = true.
Proof.
  induction 1 as [|x items Hx _ IH]; [reflexivity|].
  destruct items as [|y items]; [exact Hx|].
  change (join [SP] (x :: y :: items)) with (x ++ [SP] ++ join [SP] (y :: items)).
  rewrite !forallb_app, Hx, IH. reflexivity.
Qed.

Lemma linearize_blank pages :
  Forall (Forall (fun it => forallb is_space it = true)) pages ->
  forallb is_space (linearize pages) = true.
Proof.
  rewrite linearize_concat. induction 1 as [|p pages Hp _ IH]; [reflexivity|].
  simpl. rewrite !forallb_app, (join_blank p Hp), IH. reflexivity.
Qed.

(** The value of a field of the table is not the empty string. *)
Lemma extract_nonempty f r text : In (f, r) rules -> extract text r <> [].
Proof.
  intros Hr. destruct (extract_cases text r) as [E | (m0 & raw & E & _ & Ec)].
  - rewrite E. discriminate.
  - apply String_match_sound in E. destruct E as (pre & post & _ & Hs & _).
    rewrite Ec. apply (rule_capture_clean f r m0 raw Hr Hs).
Qed.

Lemma or_not_found_extract f r text :
  In (f, r) rules -> or_not_found (get f (extractDetails text)) = extract text r.
Proof.
  intros Hr. rewrite (get_rule text f r Hr).
  pose proof (extract_nonempty f r text Hr) as Hne.
  unfold or_not_found. destruct (extract text r); congruence.
Qed.

(** A found value: free of white space, not empty and part of the text. *)
Lemma found_value_facts f r text :
  In (f, r) rules -> extract text r <> NotFound ->
  forallb (fun ch => negb (is_space ch)) (extract text r) = true /\
  extract text r <> [] /\
  exists pre post, text = pre ++ extract text r ++ post.
Proof.
  intros Hr Hv.
  destruct (extract_cases text r) as [E | (m0 & raw & E & _ & Ec)];
    [contradiction|].
  apply String_match_sound in E. destruct E as (pre & post & -> & Hs & _).
  destruct (rule_capture_cleaned f r m0 raw Hr Hs) as (_ & Hsp & _ & Hne).
  rewrite Ec. split; [exact Hsp|]. split; [exact Hne|].
  apply sem_capture_inside in Hs.
  destruct Hs as [Hs | [Hs | (a & x & b & Hx & ->)]]; try discriminate.
  inversion Hx; subst x; clear Hx.
  destruct (clean_inside raw) as (a' & b' & Eraw).
  exists (pre ++ a ++ a'), (b' ++ b ++ post).
  rewrite Eraw at 1. repeat rewrite <- app_assoc. reflexivity.
Qed.

(** A run without white space that starts a text stays before the first
    white space. *)
Lemma prefix_before_space (v : jsstring) : forall a sep b post,
  forallb (fun ch => negb (is_space ch)) v = true -> is_space sep = true ->
  v ++ post = a ++ sep :: b -> exists q, a = v ++ q.
Proof.
  induction v as [|ch v IH]; intros a sep b post Hv Hsep E.
  - exists a. reflexivity.
  - simpl in Hv. apply andb_true_iff in Hv. destruct Hv as [Hc Hv].
    destruct a as [|x a]; simpl in E; inversion E; subst.
    + rewrite Hsep in Hc. discriminate.
    + destruct (IH a sep b post Hv Hsep H1) as [q ->]. exists q. reflexivity.
Qed.

Lemma part_beside_space (a : jsstring) : forall pre v post sep b,
  forallb (fun ch => negb (is_space ch)) v = true -> v <> [] ->
  is_space sep = true ->
  pre ++ v ++ post = a ++ sep :: b ->
  (exists p q, a = p ++ v ++ q) \/ (exists p q, b = p ++ v ++ q).
Proof.
  induction a as [|x a IH]; intros pre v post sep b Hv Hne Hsep E.
  - destruct pre as [|c pre]; simpl in E.
    + destruct v as [|ch v]; [congruence|]. simpl in E, Hv. inversion E; subst.
      rewrite Hsep in Hv. discriminate.
    + inversion E; subst. right. exists pre, post. reflexivity.
  - destruct pre as [|c pre]; simpl in E.
    + left. destruct (prefix_before_space v (x :: a) sep b post Hv Hsep E) as [q Hq].
      exists [], q. exact Hq.
    + inversion E; subst.
      destruct (IH pre v post sep b Hv Hne Hsep H1) as [(p & q & ->) | Hb];
        [left; exists (x :: p), q; reflexivity | right; exact Hb].
Qed.

Lemma part_of_join (v : jsstring) :
  forallb (fun ch => negb (is_space ch)) v = true -> v <> [] ->
  forall items pre post,
    join [SP] items = pre ++ v ++ post ->
    exists it p q, In it items /\ it = p ++ v ++ q.
Proof.
  intros Hv Hne. induction items as [|x items IH]; intros pre post E.
  - simpl in E. destruct pre; destruct v; simpl in E; congruence.
  - destruct items as [|y items].
    + exists x, pre, post. split; [left; reflexivity | exact E].
    + change (join [SP] (x :: y :: items))
        with (x ++ SP :: join [SP] (y :: items)) in E.
      symmetry in E.
      destruct (part_beside_space x pre v post SP _ Hv Hne eq_refl E)
        as [(p & q & Hx) | (p & q & Hb)].
      * exists x, p, q. split; [left; reflexivity | exact Hx].
      * destruct (IH p q Hb) as (it & p' & q' & Hin & Hit).
        exists it, p', q'. split; [right; exact Hin | exact Hit].
Qed.

Lemma part_of_pages (v : jsstring) :
  forallb (fun ch => negb (is_space ch)) v = true -> v <> [] ->
  forall pages pre post,
    List.concat (map (fun items => join [SP] items ++ [LF]) pages) = pre ++ v ++ post ->
    exists items it p q, In items pages /\ In it items /\ it = p ++ v ++ q.
Proof.
  intros Hv Hne. induction pages as [|pg pages IH]; intros pre post E.
  - simpl in E. destruct pre; destruct v; simpl in E; congruence.
  - simpl in E. rewrite <- app_assoc in E. simpl in E. symmetry in E.
    destruct (part_beside_space (join [SP] pg) pre v post LF _ Hv Hne eq_refl E)
      as [(p & q & Hx) | (p & q & Hb)].
    + destruct (part_of_join v Hv Hne pg p q Hx) as (it & p' & q' & Hin & Hit).
      exists pg, it, p', q'. repeat split; auto. left. reflexivity.
    + destruct (IH p q Hb) as (items & it & p' & q' & Hpg & Hin & Hit).
      exists items, it, p', q'. repeat split; auto. right. exact Hpg.
Qed.

(** The report reads keys of the table only. *)
Lemma report_field_rule key label :
  In (Field key label) reportFields -> exists r, In (key, r) rules.
Proof.
  intros Hin. simpl in Hin.
  repeat (destruct Hin as [E | Hin];
          [first [discriminate E
                 | inversion E; subst; eexists; simpl; intuition eauto]|]).
  contradiction.
Qed.

End PipelineFacts.

(** A document without text (a scan: every text item of every page is blank)
    gives the sentinel for every field, and the report shows
    ["Not Found"] in every value cell. *)
Theorem blank_document_report (pages : list (list jsstring)) :
  Forall (Forall (fun it => forallb is_space it = true)) pages ->
  Forall (fun kv => snd kv = NotFound) (extractDetails (linearize pages)) /\
  Forall (fun rw => match rw with
                    | HeaderRow _ => True
                    | ValueRow _ value => value = NotFound
                    end)
         (displayReport (extractDetails (linearize pages))).
Proof.
  intros Hblank. apply linearize_blank in Hblank.
  assert (Hx : forall f r, In (f, r) rules ->
                 extract (linearize pages) r = NotFound).
  { intros f r Hr. apply extract_no_match. apply String_match_blank; auto.
    apply (rules_start_with_alnum f r Hr). }
  split.
  - apply Forall_forall. intros [f v] Hin. simpl.
    apply in_extractDetails in Hin. destruct Hin as (r & Hr & ->). eauto.
  - apply Forall_forall. intros rw Hin. unfold displayReport in Hin.
    apply in_map_iff in Hin. destruct Hin as ([label | key label] & <- & Hf);
      [exact I|].
    destruct (report_field_rule key label Hf) as [r Hr].
    rewrite (or_not_found_extract key r _ Hr). apply (Hx key r Hr).
Qed.

Lemma blank_document_report_witness :
  Forall (fun kv => snd kv = NotFound)
         (extractDetails (linearize [[lit " "; []]; []])) /\
  Forall (fun rw => match rw with
                    | HeaderRow _ => True
                    | ValueRow _ value => value = NotFound
                    end)
         (displayReport (extractDetails (linearize [[lit " "; []]; []]))).
Proof.
  apply (blank_document_report [[lit " "; []]; []]).
  repeat constructor.
Defined.

(** Extraction never glues text items together: a field other than the
    sentinel, read from the text of a document, stands inside one text item
    of one page. *)
Theorem value_within_one_item (pages : list (list jsstring)) (f : string)
    (v : jsstring) :
  In (f, v) (extractDetails (linearize pages)) -> v <> NotFound ->
  exists items it pre post,
    In items pages /\ In it items /\ it = pre ++ v ++ post.
Proof.
  intros Hin Hv. apply in_extractDetails in Hin. destruct Hin as (r & Hr & ->).
  destruct (found_value_facts f r _ Hr Hv) as (Hsp & Hne & pre & post & E).
  rewrite linearize_concat in E at 1.
  apply (part_of_pages _ Hsp Hne pages pre post E).
Qed.

Lemma value_within_one_item_witness :
  exists items it pre post,
    In items [[lit "TAN"; lit ": ABCDE1234F"]; [lit "page 2"]] /\
    In it items /\ it = pre ++ lit "ABCDE1234F" ++ post.
Proof.
  apply (value_within_one_item [[lit "TAN"; lit ": ABCDE1234F"]; [lit "page 2"]]
           "TAN" (lit "ABCDE1234F")).
  - vm_compute. right. left. reflexivity.
  - vm_compute. discriminate.
Defined.

(** The report shows what was extracted: on the object of [extractDetails]
    the fallback of [displayReport] never replaces a value, and the table has
    the three section headers and the fifteen fields, each field once with its
    extracted value. *)
Theorem report_of_extraction (text : jsstring) :
  displayReport (extractDetails text) =
  [ HeaderRow (lit "<strong>Personal & Employer Information</strong>");
    ValueRow (lit "Employee Name") (extract text (name_rule label_employeeName "PAN"));
    ValueRow (lit "Employee PAN") (extract text (id_rule label_employeePAN));
    ValueRow (lit "Employer Name") (extract text (name_rule label_employerName "TAN"));
    ValueRow (lit "Employer PAN") (extract text (id_rule label_employerPAN));
    ValueRow (lit "TAN") (extract text (id_rule label_TAN));
    ValueRow (lit "Assessment Year") (extract text year_rule);
    HeaderRow (lit "<strong>Income & Deductions</strong>");
    ValueRow (lit "Gross Salary") (extract text (money_rule label_grossSalary));
    ValueRow (lit "Standard Deduction u/s 16(ia)")
      (extract text (money_rule label_standardDeduction));
    ValueRow (lit "Professional Tax u/s 16(iii)")
      (extract text (money_rule label_professionalTax));
    ValueRow (lit "Income Chargeable under Salaries")
      (extract text (money_rule label_incomeChargeable));
    ValueRow (lit "Deductions under Chapter VI-A")
      (extract text (money_rule label_totalDeductionsVIA));
    ValueRow (lit "Total Taxable Income")
      (extract text (money_rule label_totalTaxableIncome));
    HeaderRow (lit "<strong>Tax Calculation</strong>");
    ValueRow (lit "Tax on Total Income")
      (extract text (money_rule label_taxOnTotalIncome));
    ValueRow (lit "Health & Education Cess") (extract text (money_rule label_cess));
    ValueRow (lit "Total Tax Deducted (TDS)")
      (extract text (money_rule label_totalTDS)) ].
Proof.
  unfold displayReport, reportFields. cbn [map].
  repeat match goal with
  | |- context [or_not_found (get ?key (extractDetails text))] =>
      erewrite (or_not_found_extract key) by (simpl; intuition eauto)
  end.
  reflexivity.
Qed.

(** * The key labels of [renderAnalysisReport] *)

Section PrettifyFacts.
Open Scope N_scope.

Ltac split_cmp :=
  repeat match goal with
  | |- context [N.leb ?a ?b] => destruct (N.leb_spec a b); try (exfalso; lia)
  | H : context [N.leb ?a ?b] |- _ => destruct (N.leb_spec a b); try (exfalso; lia)
  | |- context [N.eqb ?a ?b] => destruct (N.eqb_spec a b); try (exfalso; lia)
  | H : context [N.eqb ?a ?b] |- _ => destruct (N.eqb_spec a b); try (exfalso; lia)
  end.

Ltac word_solve :=
  unfold is_word, toUpperCase1, is_alnum, is_digit, is_upper, is_lower,
    in_range in *;
  split_cmp; simpl in *; try reflexivity; try discriminate; try lia.

Lemma toUpperCase1_word c : is_word (toUpperCase1 c) = is_word c.
Proof. word_solve. Qed.

Lemma toUpperCase1_not_lower c : is_lower (toUpperCase1 c) = false.
Proof. word_solve. Qed.

Lemma toUpperCase1_idempotent c : toUpperCase1 (toUpperCase1 c) = toUpperCase1 c.
Proof. word_solve. Qed.

Lemma toUpperCase1_underscore c : toUpperCase1 c = 95 -> c = 95.
Proof. word_solve. Qed.

Lemma lower_is_word c : is_lower c = true -> is_word c = true.
Proof. word_solve. Qed.

End PrettifyFacts.

Section PrettifyLists.

Lemma capitalize_words_length prev s :
  List.length (capitalize_words prev s) = List.length s.
Proof.
  revert prev. induction s as [|c s IH]; intros prev; simpl; [reflexivity|].
  rewrite IH. reflexivity.
Qed.

Lemma capitalize_words_underscore prev s :
  In 95%N (capitalize_words prev s) -> In 95%N s.
Proof.
  revert prev. induction s as [|c s IH]; intros prev; simpl; [tauto|].
  intros [H | H]; [left | right; eapply IH; exact H].
  destruct (is_word c && negb prev); [apply toUpperCase1_underscore|]; exact H.
Qed.

Lemma replace_underscores_none s : ~ In 95%N (replace_underscores s).
Proof.
  unfold replace_underscores. intros H. apply in_map_iff in H.
  destruct H as (c & E & _). destruct (N.eqb_spec c 95); [discriminate | congruence].
Qed.

Lemma replace_underscores_fixed s : ~ In 95%N s -> replace_underscores s = s.
Proof.
  unfold replace_underscores. induction s as [|c s IH]; simpl; [reflexivity|].
  intros H. destruct (N.eqb_spec c 95) as [-> | _]; [exfalso; apply H; auto|].
  rewrite IH; [reflexivity | tauto].
Qed.

Lemma capitalize_words_idempotent prev s :
  capitalize_words prev (capitalize_words prev s) = capitalize_words prev s.
Proof.
  revert prev. induction s as [|c s IH]; intros prev; simpl; [reflexivity|].
  f_equal.
  - destruct (is_word c && negb prev) eqn:E.
    + rewrite toUpperCase1_word, E. apply toUpperCase1_idempotent.
    + rewrite E. reflexivity.
  - replace (is_word (if is_word c && negb prev then toUpperCase1 c else c))
      with (is_word c)
      by (destruct (is_word c && negb prev);
          [rewrite toUpperCase1_word|]; reflexivity).
    apply IH.
Qed.

(** A lower-case letter of the outcome follows a word character. *)
Lemma capitalize_words_lower s : forall prev pre c post,
  capitalize_words prev s = pre ++ c :: post -> is_lower c = true ->
  (pre = [] /\ prev = true) \/
  (exists pre' p, pre = pre' ++ [p] /\ is_word p = true).
Proof.
  induction s as [|x s IH]; intros prev pre c post E Hc.
  - destruct pre; discriminate.
  - simpl in E. destruct pre as [|y pre]; simpl in E; inversion E; subst; clear E.
    + left. split; [reflexivity|].
      destruct (is_word x) eqn:Hw, prev; simpl in Hc; try reflexivity.
      * rewrite toUpperCase1_not_lower in Hc. discriminate.
      * apply lower_is_word in Hc. congruence.
    + right.
      destruct (IH _ _ _ _ H1 Hc) as [[-> Hp] | (pre' & p & -> & Hp)].
      * exists [], (if is_word x && negb prev then toUpperCase1 x else x).
        split; [reflexivity|].
        destruct (is_word x && negb prev); [rewrite toUpperCase1_word|]; exact Hp.
      * exists ((if is_word x && negb prev then toUpperCase1 x else x) :: pre'), p.
        split; [reflexivity | exact Hp].
Qed.

End PrettifyLists.

(** The label shown for a key of the analysis has the length of the key, no
    underscore is left in it, no word of it starts with a lower-case letter
    (a lower-case letter always follows a word character), and labelling a
    label again changes nothing. *)
Theorem prettify_label (key : jsstring) :
  List.length (prettify key) = List.length key /\
  ~ In 95%N (prettify key) /\
  prettify (prettify key) = prettify key /\
  forall pre c post,
    prettify key = pre ++ c :: post -> is_lower c = true ->
    exists pre' p, pre = pre' ++ [p] /\ is_word p = true.
Proof.
  unfold prettify. split; [|split; [|split]].
  - rewrite capitalize_words_length. unfold replace_underscores.
    apply length_map.
  - intros H. apply capitalize_words_underscore in H.
    apply (replace_underscores_none key H).
  - rewrite (replace_underscores_fixed (capitalize_words false _)).
    + apply capitalize_words_idempotent.
    + intros H. apply capitalize_words_underscore in H.
      apply (replace_underscores_none key H).
  - intros pre c post E Hc.
    destruct (capitalize_words_lower _ _ _ _ _ E Hc) as [[_ Hp] | H];
      [discriminate | exact H].
Qed.

Lemma prettify_label_witness :
  exists pre' p, lit "E" = pre' ++ [p] /\ is_word p = true.
Proof.
  apply (proj2 (proj2 (proj2 (prettify_label (lit "employee_name"))))
           (lit "E") (chr "m") (lit "ployee Name")); reflexivity.
Defined.

Example prettify_employee_name :
  prettify (lit "employee_name") = lit "Employee Name" /\
  prettify (lit "gross_salary_2024") = lit "Gross Salary 2024" /\
  prettify (lit "employeeName") = lit "EmployeeName".
Proof. vm_compute. repeat split; reflexivity. Qed.

(** * Identifiers that are found *)

Section FoundFacts.
Open Scope N_scope.

Ltac split_cmp :=
  repeat match goal with
  | |- context [N.leb ?a ?b] => destruct (N.leb_spec a b); try (exfalso; lia)
  | H : context [N.leb ?a ?b] |- _ => destruct (N.leb_spec a b); try (exfalso; lia)
  | |- context [N.eqb ?a ?b] => destruct (N.eqb_spec a b); try (exfalso; lia)
  | H : context [N.eqb ?a ?b] |- _ => destruct (N.eqb_spec a b); try (exfalso; lia)
  end.

Lemma alnum_class_AZ09 c :
  is_alnum c = true ->
  class_match true false [CRange (chr "A") (chr "Z"); CRange (chr "0") (chr "9")] c
  = true.
Proof.
  unfold class_match, class_has, existsb, item_has, swapcase, is_alnum, is_digit,
    is_upper, is_lower, in_range, chr. simpl N_of_ascii.
  split_cmp; simpl in *; intros; try reflexivity; try discriminate; try lia.
Qed.

Lemma alnum_not_colon_dash c :
  is_alnum c = true ->
  class_match true false [CChar (chr ":"); CChar (chr "-")] c = false.
Proof.
  unfold class_match, class_has, existsb, item_has, swapcase, is_alnum, is_digit,
    is_upper, is_lower, in_range, chr. simpl N_of_ascii.
  split_cmp; simpl in *; intros; try reflexivity; try discriminate; try lia.
Qed.

Lemma space_class c : class_match true false [CSpace] c = is_space c.
Proof.
  unfold class_match, class_has, existsb, item_has. rewrite swapcase_space.
  destruct (is_space c); reflexivity.
Qed.

End FoundFacts.

Section FoundMatcherFacts.

Lemma m_class ic inv items s c k :
  m ic (Class inv items) s c k = one_char (class_match ic inv items) s c k.
Proof. reflexivity. Qed.

Lemma m_eps ic s c k : m ic Eps s c k = k 0 s c.
Proof. reflexivity. Qed.

Lemma one_char_cons p ch s c k :
  one_char p (ch :: s) c k = if p ch then k 1 s c else None.
Proof. reflexivity. Qed.

(** The greedy [\s*] takes a run of white space that ends before a
    character of another kind; when the rest of the pattern succeeds there,
    that is the answer. *)
Lemma ws_run_from (a : jsstring) : forall fuel acc rest c (k : cont) x,
  forallb is_space a = true ->
  match rest with [] => True | ch :: _ => is_space ch = false end ->
  List.length a <= fuel ->
  k (acc + List.length a) rest c = Some x ->
  RepeatMatcher (m true (Class false [CSpace])) false true fuel 0 None acc
    (a ++ rest) c k = Some x.
Proof.
  induction a as [|ch a IH]; intros fuel acc rest c k x Ha Hrest Hfuel Hk.
  - simpl in Hk. rewrite Nat.add_0_r in Hk. simpl app.
    destruct fuel as [|fuel]; [rewrite RepeatMatcher_out; exact Hk|].
    rewrite RepeatMatcher_step by discriminate.
    cbn [Nat.eqb negb]. rewrite m_class.
    destruct rest as [|r0 rest]; [exact Hk|].
    rewrite one_char_cons, space_class, Hrest. exact Hk.
  - simpl in Ha. apply andb_true_iff in Ha. destruct Ha as [Hc Ha].
    destruct fuel as [|fuel]; [simpl in Hfuel; lia|].
    rewrite RepeatMatcher_step by discriminate.
    cbn [Nat.eqb negb]. rewrite m_class.
    cbn [app]. rewrite one_char_cons, space_class, Hc.
    unfold next_round. cbn [Nat.eqb andb pred option_map].
    rewrite (IH fuel (acc + 1) rest c k x); auto.
    + simpl in Hfuel. lia.
    + rewrite <- Hk. f_equal. simpl. lia.
Qed.

Lemma ws_run a rest c (k : cont) x :
  forallb is_space a = true ->
  match rest with [] => True | ch :: _ => is_space ch = false end ->
  k (List.length a) rest c = Some x ->
  m true ws (a ++ rest) c k = Some x.
Proof.
  intros Ha Hrest Hk. unfold ws. rewrite m_quant. simpl has_cap.
  apply ws_run_from; auto. rewrite length_app. lia.
Qed.

Lemma colon_dash_take ch rest c (k : cont) x :
  class_match true false [CChar (chr ":"); CChar (chr "-")] ch = true ->
  k 1 rest c = Some x ->
  m true colon_dash (ch :: rest) c k = Some x.
Proof.
  intros Hc Hk. unfold colon_dash, opt. rewrite m_quant. simpl has_cap.
  simpl List.length. simpl Nat.add.
  rewrite RepeatMatcher_step by discriminate.
    cbn [Nat.eqb negb]. rewrite m_class.
  rewrite one_char_cons, Hc. unfold next_round. cbn [Nat.eqb andb pred option_map].
  rewrite RepeatMatcher_stop. cbn [Nat.add]. rewrite Hk. reflexivity.
Qed.

Lemma colon_dash_skip ch rest c (k : cont) x :
  class_match true false [CChar (chr ":"); CChar (chr "-")] ch = false ->
  k 0 (ch :: rest) c = Some x ->
  m true colon_dash (ch :: rest) c k = Some x.
Proof.
  intros Hc Hk. unfold colon_dash, opt. rewrite m_quant. simpl has_cap.
  simpl List.length. simpl Nat.add.
  rewrite RepeatMatcher_step by discriminate.
  cbn [Nat.eqb negb]. rewrite m_class, one_char_cons, Hc. exact Hk.
Qed.

(** [[A-Z0-9]{n}] before [n] letters or digits. *)
Lemma exact_run_from (v : jsstring) : forall fuel acc rest c (k : cont),
  forallb is_alnum v = true -> List.length v <= fuel ->
  RepeatMatcher (m true AZ09) false true fuel (List.length v)
    (Some (List.length v)) acc (v ++ rest) c k
  = k (acc + List.length v) rest c.
Proof.
  induction v as [|ch v IH]; intros fuel acc rest c k Hv Hfuel.
  - simpl. rewrite RepeatMatcher_stop, Nat.add_0_r. reflexivity.
  - simpl in Hv. apply andb_true_iff in Hv. destruct Hv as [Hc Hv].
    destruct fuel as [|fuel]; [simpl in Hfuel; lia|].
    cbn [List.length app]. rewrite RepeatMatcher_step by discriminate.
    cbn [Nat.eqb negb].
    change (m true AZ09 (ch :: v ++ rest) c) with
      (one_char (class_match true false
                   [CRange (chr "A") (chr "Z"); CRange (chr "0") (chr "9")])
         (ch :: v ++ rest) c).
    rewrite one_char_cons, (alnum_class_AZ09 ch Hc). unfold next_round.
    cbn [Nat.eqb andb pred option_map].
    rewrite IH; auto.
    + f_equal. lia.
    + simpl in Hfuel. lia.
Qed.

Lemma id_group v rest c (k : cont) :
  List.length v = 10 -> forallb is_alnum v = true ->
  m true (Cap (times 10 AZ09)) (v ++ rest) c k = k 10 rest (Some v).
Proof.
  intros Hlen Hv. rewrite m_cap. unfold times. rewrite m_quant.
  simpl has_cap. rewrite <- Hlen at 2 3.
  rewrite exact_run_from; auto.
  - cbn [Nat.add].
    rewrite firstn_app, Nat.sub_diag, firstn_all. cbn [firstn].
    rewrite app_nil_r, Hlen. reflexivity.
  - rewrite length_app. lia.
Qed.

(** The separator and the identifier after a label. *)
Lemma separator_and_id a o b v post (k : cont) x :
  forallb is_space a = true -> forallb is_space b = true ->
  (o = [] \/ o = [chr ":"] \/ o = [chr "-"]) ->
  List.length v = 10 -> forallb is_alnum v = true ->
  k (List.length a + (List.length o + (List.length b + 0 + 10)))%nat post (Some v)
  = Some x ->
  m true (Seq separator (Cap (times 10 AZ09))) (a ++ o ++ b ++ v ++ post) None k
  = Some x.
Proof.
  intros Ha Hb Ho Hlen Hv Hk.
  destruct v as [|v0 v]; [discriminate|].
  assert (Hv0 : is_alnum v0 = true)
    by (simpl in Hv; apply andb_true_iff in Hv; tauto).
  assert (Hns : is_space v0 = false) by (apply is_alnum_not_space; exact Hv0).
  rewrite m_seq. unfold separator, seqs. cbn [fold_right].
  rewrite m_seq.
  destruct Ho as [-> | Ho].
  - (* no colon or dash: the first run takes all the white space *)
    simpl app. rewrite app_assoc.
    apply ws_run; [rewrite forallb_app, Ha, Hb; reflexivity | exact Hns |].
    rewrite m_seq.
    apply colon_dash_skip; [apply alnum_not_colon_dash; exact Hv0|].
    rewrite m_seq.
    apply (ws_run [] (v0 :: v ++ post)); [reflexivity | exact Hns |].
    rewrite m_eps. change (v0 :: v ++ post) with ((v0 :: v) ++ post).
    rewrite (id_group (v0 :: v) post) by assumption.
    rewrite <- Hk. f_equal. rewrite ?length_app. simpl. lia.
  - assert (Hcd : exists ch, o = [ch] /\
              class_match true false [CChar (chr ":"); CChar (chr "-")] ch = true
              /\ is_space ch = false).
    { destruct Ho as [-> | ->]; eexists; repeat split; reflexivity. }
    destruct Hcd as (ch & -> & Hch & Hchs). simpl app.
    apply ws_run; [exact Ha | exact Hchs |].
    rewrite m_seq. apply colon_dash_take; [exact Hch|].
    rewrite m_seq.
    apply ws_run; [exact Hb | exact Hns |].
    rewrite m_eps. change (v0 :: v ++ post) with ((v0 :: v) ++ post).
    rewrite (id_group (v0 :: v) post) by assumption.
    rewrite <- Hk. f_equal. rewrite ?length_app. simpl. lia.
Qed.

End FoundMatcherFacts.

(** An identifier written after the full label is found: the label, white
    space around at most one colon or dash, then ten letters or digits give
    exactly these ten as the field, whatever follows, provided the pattern
    matches at no index before the label. *)
Theorem identifier_found (f : string) (L : regex) (V pre a o b v post : jsstring) :
  In (f, V) identifier_wordings -> assoc f labels = Some L ->
  forallb is_space a = true -> forallb is_space b = true ->
  (o = [] \/ o = [chr ":"] \/ o = [chr "-"]) ->
  List.length v = 10 -> forallb is_alnum v = true ->
  (forall j, j < List.length pre ->
     match_at true (id_rule L)
       (skipn j (pre ++ V ++ a ++ o ++ b ++ v ++ post)) = None) ->
  get f (extractDetails (pre ++ V ++ a ++ o ++ b ++ v ++ post)) = Some v.
Proof.
  intros Hin HL Ha Hb Ho Hlen Hv Hpre.
  assert (Hr : In (f, id_rule L) rules /\
               forall (K : cont) x rest,
                 K (List.length V) rest None = Some x ->
                 m true L (V ++ rest) None K = Some x).
  { simpl in Hin.
    destruct Hin as [E | [E | [E | []]]]; inversion E; subst;
      simpl in HL; inversion HL; subst;
      (split; [simpl; tauto|]);
      intros K x rest HK; vm_compute in HK; vm_compute; rewrite HK; reflexivity. }
  destruct Hr as [Hr Hlab].
  rewrite (get_rule _ f (id_rule L) Hr). f_equal. unfold extract.
  rewrite String_match_skip by exact Hpre.
  rewrite (String_match_first true (id_rule L) _
             (List.length V +
              (List.length a + (List.length o + (List.length b + 0 + 10))))
             (Some v)).
  - destruct v as [|v0 v]; [discriminate|]. apply clean_alnum. exact Hv.
  - unfold match_at, id_rule. rewrite m_seq. apply Hlab.
    apply separator_and_id; auto.
Qed.

Lemma identifier_found_witness :
  get "employeePAN"
    (extractDetails (lit "Form 16 " ++ lit "PAN of the Employee" ++ lit " " ++
                     [chr "-"] ++ lit "  " ++ lit "abcde1234f" ++ lit " etc."))
  = Some (lit "abcde1234f").
Proof.
  apply (identifier_found "employeePAN" label_employeePAN
           (lit "PAN of the Employee") (lit "Form 16 ") (lit " ") [chr "-"]
           (lit "  ") (lit "abcde1234f") (lit " etc.")).
  - right. right. left. reflexivity.
  - reflexivity.
  - reflexivity.
  - reflexivity.
  - right. right. reflexivity.
  - reflexivity.
  - reflexivity.
  - intros j Hj. do 8 (destruct j as [|j]; [vm_compute; reflexivity|]).
    vm_compute in Hj. lia.
Defined.

(** * Amounts that are found *)

Section AmountFacts.

Lemma any_class ch : class_match true false [CSpace; CNonSpace] ch = true.
Proof.
  unfold class_match, class_has, existsb, item_has.
  destruct (is_space ch); reflexivity.
Qed.

Lemma digit_class ch : is_digit ch = true -> class_match true false [CDigit] ch = true.
Proof.
  intros H. unfold class_match, class_has, existsb, item_has. rewrite H. reflexivity.
Qed.

Lemma digit_comma_class ch :
  is_digit ch || N.eqb ch (chr ",") = true ->
  class_match true false [CDigit; CChar (chr ",")] ch = true.
Proof.
  intros H. unfold class_match, class_has, existsb, item_has.
  apply orb_true_iff in H. destruct H as [-> | ->]; [reflexivity|].
  rewrite orb_true_r. reflexivity.
Qed.

(** A greedy repetition of a class takes a run of members that ends before
    a character outside the class; when the rest of the pattern succeeds
    there, that is the answer. *)
Lemma class_run_from inv items (a : jsstring) :
  forall fuel mn acc rest c (k : cont) x,
    forallb (class_match true inv items) a = true ->
    match rest with
    | [] => True
    | ch :: _ => class_match true inv items ch = false
    end ->
    mn <= List.length a -> List.length a <= fuel ->
    k (acc + List.length a) rest c = Some x ->
    RepeatMatcher (m true (Class inv items)) false true fuel mn None acc
      (a ++ rest) c k = Some x.
Proof.
  induction a as [|ch a IH]; intros fuel mn acc rest c k x Ha Hrest Hmn Hfuel Hk.
  - simpl in Hk, Hmn. rewrite Nat.add_0_r in Hk. assert (mn = 0) as -> by lia.
    cbn [app].
    destruct fuel as [|fuel]; [rewrite RepeatMatcher_out; exact Hk|].
    rewrite RepeatMatcher_step by discriminate.
    cbn [Nat.eqb negb]. rewrite m_class.
    destruct rest as [|r0 rest]; [exact Hk|].
    rewrite one_char_cons, Hrest. exact Hk.
  - simpl in Ha. apply andb_true_iff in Ha. destruct Ha as [Hc Ha].
    destruct fuel as [|fuel]; [simpl in Hfuel; lia|].
    assert (Hnext :
      next_round (m true (Class inv items)) false true fuel mn None acc k 1
        (a ++ rest) c = Some x).
    { unfold next_round. cbn [Nat.eqb andb]. rewrite andb_false_r.
      cbn [option_map]. apply IH; auto.
      - simpl in Hmn. lia.
      - simpl in Hfuel. lia.
      - rewrite <- Hk. f_equal. simpl. lia. }
    rewrite RepeatMatcher_step by discriminate. rewrite m_class.
    cbn [app]. rewrite one_char_cons, Hc, Hnext.
    destruct (negb (mn =? 0)); reflexivity.
Qed.

(** [\d{2}] before two digits. *)
Lemma two_digits d1 d2 rest c (k : cont) :
  is_digit d1 = true -> is_digit d2 = true ->
  m true (times 2 digit) (d1 :: d2 :: rest) c k = k 2 rest c.
Proof.
  intros H1 H2. unfold times, digit. rewrite m_quant. simpl has_cap.
  cbn [List.length Nat.add].
  rewrite RepeatMatcher_step by discriminate. cbn [Nat.eqb negb].
  rewrite m_class, one_char_cons, (digit_class d1 H1).
  unfold next_round. cbn [Nat.eqb andb pred option_map].
  rewrite RepeatMatcher_step by discriminate. cbn [Nat.eqb negb].
  rewrite m_class, one_char_cons, (digit_class d2 H2).
  unfold next_round. cbn [Nat.eqb andb pred option_map].
  rewrite RepeatMatcher_stop. reflexivity.
Qed.

(** The currency pattern on an amount. *)
Lemma currency_at raw post c (k : cont) x :
  is_currency raw ->
  k (List.length raw) post (Some raw) = Some x ->
  m true currencyRegex (raw ++ post) c k = Some x.
Proof.
  intros (ds & d1 & d2 & -> & Hne & F & Fd1 & Fd2) Hk.
  unfold currencyRegex. rewrite m_cap. unfold seqs. cbn [fold_right].
  rewrite m_seq, m_quant. simpl has_cap. rewrite <- app_assoc.
  apply class_run_from.
  - revert F. apply forallb_impl. exact digit_comma_class.
  - reflexivity.
  - destruct ds; [congruence | simpl; lia].
  - rewrite length_app. lia.
  - rewrite m_seq.
    change (m true (Chr (chr ".")) ([chr "."; d1; d2] ++ post) c) with
      (one_char (chr_match true (chr ".")) (chr "." :: d1 :: d2 :: post) c).
    rewrite one_char_cons.
    replace (chr_match true (chr ".") (chr ".")) with true by reflexivity.
    rewrite m_seq, two_digits by assumption. rewrite m_eps.
    rewrite <- Hk. f_equal.
    + rewrite length_app. simpl. lia.
    + f_equal. replace (0 + List.length ds + (1 + (2 + 0)))
        with (List.length (ds ++ [chr "."; d1; d2]))
        by (rewrite length_app; simpl; lia).
      rewrite app_assoc. rewrite firstn_app, Nat.sub_diag, firstn_all.
      simpl. rewrite app_nil_r. reflexivity.
Qed.

(** The lazy gap stops at the first place where the rest succeeds. *)
Lemma lazy_gap_from (g : jsstring) : forall fuel acc rest c (k : cont) x,
  List.length g <= fuel ->
  (forall j, j < List.length g -> k (acc + j) (skipn j (g ++ rest)) c = None) ->
  k (acc + List.length g) rest c = Some x ->
  RepeatMatcher (m true (Class false [CSpace; CNonSpace])) false false fuel 0
    None acc (g ++ rest) c k = Some x.
Proof.
  induction g as [|ch g IH]; intros fuel acc rest c k x Hfuel Hno Hk.
  - simpl in Hk. rewrite Nat.add_0_r in Hk. cbn [app].
    destruct fuel as [|fuel]; [rewrite RepeatMatcher_out; exact Hk|].
    rewrite RepeatMatcher_step by discriminate. cbn [Nat.eqb negb].
    rewrite Hk. reflexivity.
  - destruct fuel as [|fuel]; [simpl in Hfuel; lia|].
    rewrite RepeatMatcher_step by discriminate. cbn [Nat.eqb negb].
    pose proof (Hno 0 (Nat.lt_0_succ _)) as H0. simpl in H0.
    rewrite Nat.add_0_r in H0. cbn [app]. rewrite H0. cbn [or_else].
    rewrite m_class, one_char_cons, any_class.
    unfold next_round. cbn [Nat.eqb andb pred option_map].
    apply IH.
    + simpl in Hfuel. lia.
    + intros j Hj. specialize (Hno (S j)). simpl in Hno.
      replace (acc + 1 + j) with (acc + S j) by lia. apply Hno. lia.
    + rewrite <- Hk. f_equal. simpl. lia.
Qed.

(** Failure is monotone in the continuation: where a pattern fails before a
    continuation, it fails before every continuation that fails at least as
    often. *)
Lemma one_char_fail_mono p s c c' (k k' : cont) :
  (forall n s' c1 c2, k n s' c1 = None -> k' n s' c2 = None) ->
  one_char p s c k = None -> one_char p s c' k' = None.
Proof.
  intros H. destruct s as [|ch s']; simpl; [tauto|].
  destruct (p ch); [apply H | tauto].
Qed.

Lemma repeat_fail_mono (body : jsstring -> captures -> cont -> option result)
    (reset g : bool) :
  (forall s c c' (k k' : cont),
     (forall n s' c1 c2, k n s' c1 = None -> k' n s' c2 = None) ->
     body s c k = None -> body s c' k' = None) ->
  forall fuel mn mx acc s c c' (k k' : cont),
    (forall n s' c1 c2, k n s' c1 = None -> k' n s' c2 = None) ->
    RepeatMatcher body reset g fuel mn mx acc s c k = None ->
    RepeatMatcher body reset g fuel mn mx acc s c' k' = None.
Proof.
  intros Hbody. induction fuel as [|fuel IH]; intros mn mx acc s c c' k k' Hk.
  - rewrite !RepeatMatcher_out. apply Hk.
  - destruct (max_zero_dec mx) as [-> | Hmx].
    { rewrite !RepeatMatcher_stop. apply Hk. }
    rewrite !RepeatMatcher_step by exact Hmx.
    assert (Hd : forall cr cr',
      body s cr (next_round body reset g fuel mn mx acc k) = None ->
      body s cr' (next_round body reset g fuel mn mx acc k') = None).
    { intros cr cr'. apply Hbody. intros n s1 c1 c2. unfold next_round.
      destruct ((mn =? 0) && (n =? 0)); [tauto|]. apply IH; auto. }
    destruct (negb (mn =? 0)); [apply Hd|].
    destruct g; rewrite !or_else_none; intros [H1 H2]; split;
      first [revert H1; apply Hd | revert H2; apply Hd
            | revert H1; apply Hk | revert H2; apply Hk].
Qed.

Lemma m_fail_mono (r : regex) :
  forall s c c' (k k' : cont),
    (forall n s' c1 c2, k n s' c1 = None -> k' n s' c2 = None) ->
    m true r s c k = None -> m true r s c' k' = None.
Proof.
  induction r as [|a| |inv items|r1 IH1 r2 IH2|r1 IH1 r2 IH2|r1 IH1 mn mx g|r1 IH1];
    intros s c c' k k' Hk; simpl.
  - apply Hk.
  - apply one_char_fail_mono; auto.
  - apply one_char_fail_mono; auto.
  - apply one_char_fail_mono; auto.
  - apply IH1. intros n1 s1 c1 c2. apply IH2. intros n2 s2 c3 c4. apply Hk.
  - rewrite !or_else_none. intros [H1 H2]. split;
      [revert H1; apply IH1 | revert H2; apply IH2]; exact Hk.
  - apply repeat_fail_mono; auto.
  - apply IH1. intros n s' c1 c2. apply Hk.
Qed.

Lemma match_at_fails_everywhere r s c (k : cont) :
  match_at true r s = None -> m true r s c k = None.
Proof.
  unfold match_at. apply m_fail_mono. intros n s' c1 c2. unfold accept.
  discriminate.
Qed.

Lemma gap_then_currency g raw post (k : cont) x :
  is_currency raw ->
  (forall j, j < List.length g ->
     match_at true currencyRegex (skipn j (g ++ raw ++ post)) = None) ->
  k (List.length g + List.length raw) post (Some raw) = Some x ->
  m true (Seq gap currencyRegex) (g ++ raw ++ post) None k = Some x.
Proof.
  intros Hc Hno Hk. rewrite m_seq. unfold gap. rewrite m_quant. simpl has_cap.
  apply lazy_gap_from.
  - rewrite length_app. lia.
  - intros j Hj. apply match_at_fails_everywhere. apply Hno. exact Hj.
  - apply currency_at; [exact Hc | exact Hk].
Qed.

End AmountFacts.

(** An amount written after the full label is found: the label, any text
    in which the currency pattern matches nowhere, then an amount (digits
    and commas, a dot, two digits) give that amount as the field, less its
    leading commas, whatever follows, provided the pattern of the field
    matches at no index before the label. *)
Theorem amount_found (f : string) (L : regex) (V pre g raw post : jsstring) :
  In (f, V) amount_wordings -> assoc f labels = Some L ->
  is_currency raw ->
  (forall j, j < List.length g ->
     match_at true currencyRegex (skipn j (g ++ raw ++ post)) = None) ->
  (forall j, j < List.length pre ->
     match_at true (money_rule L) (skipn j (pre ++ V ++ g ++ raw ++ post)) = None) ->
  get f (extractDetails (pre ++ V ++ g ++ raw ++ post))
  = Some (dropwhile is_junk raw).
Proof.
  intros Hin HL Hc Hgap Hpre.
  assert (Hr : In (f, money_rule L) rules /\
               forall (K : cont) x rest,
                 K (List.length V) rest None = Some x ->
                 m true L (V ++ rest) None K = Some x).
  { simpl in Hin.
    repeat (destruct Hin as [E | Hin];
            [inversion E; subst; simpl in HL; inversion HL; subst;
             (split; [simpl; tauto|]);
             intros K x rest HK; vm_compute in HK; vm_compute; rewrite HK;
             reflexivity|]).
    contradiction. }
  destruct Hr as [Hr Hlab].
  rewrite (get_rule _ f (money_rule L) Hr). f_equal. unfold extract.
  rewrite String_match_skip by exact Hpre.
  rewrite (String_match_first true (money_rule L) _
             (List.length V + (List.length g + List.length raw)) (Some raw)).
  - destruct (currency_value raw Hc) as (Eclean & _ & _).
    destruct raw as [|r0 raw]; [|exact Eclean].
    destruct Hc as (ds & d1 & d2 & E & _). destruct ds; discriminate.
  - unfold match_at, money_rule. rewrite m_seq. apply Hlab.
    apply gap_then_currency; auto.
Qed.

Lemma amount_found_witness :
  get "grossSalary"
    (extractDetails (lit "1. " ++ lit "Gross Salary" ++ (lit " (a) 17(1)" ++ [LF])
                     ++ lit "1,23,456.00" ++ lit " etc."))
  = Some (dropwhile is_junk (lit "1,23,456.00")).
Proof.
  apply (amount_found "grossSalary" label_grossSalary (lit "Gross Salary")
           (lit "1. ") (lit " (a) 17(1)" ++ [LF]) (lit "1,23,456.00") (lit " etc.")).
  - left. reflexivity.
  - reflexivity.
  - exists (lit "1,23,456"), (chr "0"), (chr "0"). repeat split; discriminate.
  - intros j Hj. do 11 (destruct j as [|j]; [vm_compute; reflexivity|]).
    vm_compute in Hj. lia.
  - intros j Hj. do 3 (destruct j as [|j]; [vm_compute; reflexivity|]).
    vm_compute in Hj. lia.
Defined.

(** * The page of [form_16_20255.js] *)

Section PageFacts.

Ltac pieces :=
  repeat match goal with
         | |- Forall _ [] => constructor
         | |- Forall _ (_ :: _) => constructor
         | |- Forall _ (_ ++ _) => apply Forall_app; split
         | |- later_piece _ =>
             let q := fresh "q" in
             unfold later_piece; intros q; destruct q; unfold ready; simpl;
             intuition congruence
         end.

Lemma listener_pieces e p seg rest :
  listener e p = seg :: rest -> ready p ->
  ready (seg p) /\
  (lastUploadedFile p <> None -> lastUploadedFile (seg p) <> None) /\
  Forall later_piece rest /\
  (rest <> [] -> lastUploadedFile (seg p) <> None).
Proof.
  intros E Hp.
  assert (Hst : forall s,
            ready (setStatus s p) /\
            (lastUploadedFile p <> None -> lastUploadedFile (setStatus s p) <> None)).
  { intros s. destruct p; unfold ready in *; simpl in *. intuition congruence. }
  destruct e as [selected reply | reply r | r |]; simpl in E.
  - unfold uploadAndAnalyzePdf in E. destruct selected as [f|].
    + inversion E; subst; clear E.
      refine (conj _ (conj _ (conj _ _))).
      * destruct p; unfold ready in *; simpl in *; intuition congruence.
      * destruct p; simpl; congruence.
      * destruct reply as [err | [|] code txt [err | data]]; pieces.
      * destruct p; simpl; congruence.
    + inversion E; subst; clear E.
      refine (conj (proj1 (Hst _)) (conj (proj2 (Hst _)) (conj _ _)));
        [constructor | congruence].
  - unfold generatePdfAndPreview in E.
    destruct (lastAnalysisData p) as [d|] eqn:Ed.
    + assert (Hf : lastUploadedFile p <> None) by (apply Hp; congruence).
      inversion E; subst; clear E.
      refine (conj (proj1 (Hst _)) (conj (proj2 (Hst _)) (conj _ _))).
      * destruct reply as [err | [|] code txt [err | b]]; destruct r;
          unfold renderPdfUrlToCanvas; pieces.
      * intros _. apply (Hst _), Hf.
    + inversion E; subst; clear E.
      refine (conj (proj1 (Hst _)) (conj (proj2 (Hst _)) (conj _ _)));
        [constructor | congruence].
  - unfold showUploadedPdf in E. destruct (lastUploadedFile p) as [f|] eqn:Ef.
    + inversion E; subst; clear E.
      refine (conj (proj1 (Hst _)) (conj (proj2 (Hst _)) (conj _ _))).
      * destruct r; unfold renderPdfUrlToCanvas; pieces.
      * intros _. apply (Hst _). congruence.
    + inversion E; subst; clear E.
      refine (conj (proj1 (Hst _)) (conj (proj2 (Hst _)) (conj _ _)));
        [constructor | congruence].
  - unfold downloadCanvasAsPng in E. inversion E; subst; clear E.
    refine (conj (proj1 (Hst _)) (conj (proj2 (Hst _)) (conj _ _)));
      [constructor | congruence].
Qed.

Lemma reach_ready p0 p tasks :
  ready p0 -> reach p0 p tasks ->
  ready p /\ Forall (Forall later_piece) tasks /\
  ((exists t, In t tasks /\ t <> []) -> lastUploadedFile p <> None).
Proof.
  intros H0 Hr. induction Hr as [| e p tasks seg rest Hr IH E
                                 | p tasks1 seg rest tasks2 Hr IH].
  - refine (conj H0 (conj _ _)); [constructor|].
    intros (t & [] & _).
  - destruct IH as (Hp & Ht & Hf).
    destruct (listener_pieces e p seg rest E Hp) as (H1 & H2 & H3 & H4).
    refine (conj H1 (conj _ _)); [constructor; assumption|].
    intros (t & [<- | Hin] & Hne); [apply H4; exact Hne|].
    apply H2, Hf. exists t. split; assumption.
  - destruct IH as (Hp & Ht & Hf).
    apply Forall_app in Ht. destruct Ht as (Ht1 & Ht2).
    inversion Ht2 as [|t ts Hhd Htl]; subst.
    inversion Hhd as [|s ss Hseg Hrest]; subst.
    assert (Hfile : lastUploadedFile p <> None).
    { apply Hf. exists (seg :: rest). split; [|discriminate].
      apply in_or_app. right. left. reflexivity. }
    destruct (Hseg p Hfile Hp) as (H1 & H2).
    refine (conj H1 (conj _ (fun _ => H2))).
    apply Forall_app. split; [exact Ht1 | constructor; assumption].
Qed.

(** Handlers run one after the other are among the interleavings. *)
Lemma reach_finish p0 rest : forall p tasks,
  reach p0 p (rest :: tasks) -> reach p0 (run rest p) ([] :: tasks).
Proof.
  induction rest as [|seg rest IH]; intros p tasks Hr; [exact Hr|].
  simpl. apply IH. apply (reach_resume p0 p [] seg rest tasks). exact Hr.
Qed.

Lemma listener_nonempty e p : listener e p <> [].
Proof.
  destruct e as [[f|] reply | reply r | r |]; simpl; try discriminate.
  - unfold generatePdfAndPreview. destruct (lastAnalysisData p); discriminate.
  - unfold showUploadedPdf. destruct (lastUploadedFile p); discriminate.
Qed.

Lemma reach_run p0 p tasks e :
  reach p0 p tasks -> reach p0 (run (listener e p) p) ([] :: tasks).
Proof.
  intros Hr. destruct (listener e p) as [|seg rest] eqn:E.
  - exfalso. exact (listener_nonempty e p E).
  - simpl. apply reach_finish. apply (reach_click p0 e); assumption.
Qed.

Lemma status_not_render_error (msg msg' : jsstring) :
  (lit "Error: " ++ msg <> lit "Error rendering PDF preview: " ++ msg').
Proof. simpl. discriminate. Qed.

End PageFacts.

(** While the script holds analysis data, the generate button and the
    show button are enabled and the uploaded file is known, whatever the
    order in which the pieces of the handlers under way run. *)
Theorem analysis_data_enables_buttons (html_status : jsstring)
    (html_output : rendered) (html_show_disabled : bool) (p : page)
    (tasks : list segments) :
  reach (initial html_status html_output html_show_disabled) p tasks ->
  lastAnalysisData p <> None ->
  btnGenerate_disabled p = false /\ btnShowOriginal_disabled p = false /\
  lastUploadedFile p <> None.
Proof.
  intros Hr. apply (reach_ready _ p tasks) in Hr; [apply Hr|].
  simpl. intros H. exfalso. apply H. reflexivity.
Qed.

Lemma analysis_data_enables_buttons_witness :
  btnGenerate_disabled
    (run (uploadAndAnalyzePdf (Some (file (lit "form16.pdf") []))
            (Response true 200 (lit "OK")
               (inr (Some [(lit "gross_salary", lit "1,23,456.00")]))))
         (initial [] (Message []) true)) = false /\
  btnShowOriginal_disabled
    (run (uploadAndAnalyzePdf (Some (file (lit "form16.pdf") []))
            (Response true 200 (lit "OK")
               (inr (Some [(lit "gross_salary", lit "1,23,456.00")]))))
         (initial [] (Message []) true)) = false /\
  lastUploadedFile
    (run (uploadAndAnalyzePdf (Some (file (lit "form16.pdf") []))
            (Response true 200 (lit "OK")
               (inr (Some [(lit "gross_salary", lit "1,23,456.00")]))))
         (initial [] (Message []) true)) <> None.
Proof.
  apply (analysis_data_enables_buttons [] (Message []) true _ [[]]).
  - apply (reach_run _ _ []
             (ClickFetch (Some (file (lit "form16.pdf") []))
                (Response true 200 (lit "OK")
                   (inr (Some [(lit "gross_salary", lit "1,23,456.00")]))))).
    apply reach_start.
  - simpl. discriminate.
Defined.

(** A failure to render the preview does not stay in the status line: no
    handler, run to its end, leaves the rendering error there; after the
    summary PDF has arrived, [generatePdfAndPreview] ends with the status
    ["Generated PDF preview is ready."] and [showUploadedPdf] with
    ["Uploaded PDF is shown in the preview canvas."] whether the rendering
    succeeded or failed, and only the download button tells the two apart:
    it is disabled exactly after a failure. *)
Theorem render_failure_masked :
  (forall e p err,
     status (run (listener e p) p)
     <> lit "Error rendering PDF preview: " ++ message err) /\
  (forall p r code statusText blob,
     lastAnalysisData p <> None ->
     status (run (generatePdfAndPreview
                    (Response true code statusText (inr blob)) r p) p)
     = lit "Generated PDF preview is ready." /\
     btnDownloadPng_disabled
       (run (generatePdfAndPreview
               (Response true code statusText (inr blob)) r p) p)
     = match r with RenderOk => false | RenderFailed _ => true end) /\
  (forall p r,
     lastUploadedFile p <> None ->
     status (run (showUploadedPdf r p) p)
     = lit "Uploaded PDF is shown in the preview canvas." /\
     btnDownloadPng_disabled (run (showUploadedPdf r p) p)
     = match r with RenderOk => false | RenderFailed _ => true end).
Proof.
  split; [|split].
  - intros e p err.
    destruct e as [[f|] [e1 | [|] code txt [e1 | data]]
                  | [e1 | [|] code txt [e1 | b]] r | r |]; simpl;
      unfold generatePdfAndPreview, showUploadedPdf;
      try destruct (lastAnalysisData p); try destruct (lastUploadedFile p);
      try destruct r; simpl;
      first [apply status_not_render_error | discriminate].
  - intros p r code txt b Hd. unfold generatePdfAndPreview.
    destruct (lastAnalysisData p); [|congruence].
    destruct r; simpl; split; reflexivity.
  - intros p r Hf. unfold showUploadedPdf.
    destruct (lastUploadedFile p); [|congruence].
    destruct r; simpl; split; reflexivity.
Qed.

Lemma render_failure_masked_witness :
  status
    (run (generatePdfAndPreview (Response true 200 (lit "OK") (inr tt))
            (RenderFailed (Error_ (lit "Invalid PDF structure")))
            (set_lastAnalysisData (Some [(lit "gross_salary", lit "1,23,456.00")])
               (initial [] (Message []) true)))
         (set_lastAnalysisData (Some [(lit "gross_salary", lit "1,23,456.00")])
            (initial [] (Message []) true)))
  = lit "Generated PDF preview is ready." /\
  btnDownloadPng_disabled
    (run (generatePdfAndPreview (Response true 200 (lit "OK") (inr tt))
            (RenderFailed (Error_ (lit "Invalid PDF structure")))
            (set_lastAnalysisData (Some [(lit "gross_salary", lit "1,23,456.00")])
               (initial [] (Message []) true)))
         (set_lastAnalysisData (Some [(lit "gross_salary", lit "1,23,456.00")])
            (initial [] (Message []) true)))
  = true.
Proof.
  apply (proj1 (proj2 render_failure_masked)
           (set_lastAnalysisData (Some [(lit "gross_salary", lit "1,23,456.00")])
              (initial [] (Message []) true))
           (RenderFailed (Error_ (lit "Invalid PDF structure")))
           200%N (lit "OK") tt).
  simpl. discriminate.
Defined.

(** * Monetary fields *)

Section MonetaryFacts.

(** The rule of a monetary field, and its label followed through on the full
    wording. *)
Lemma amount_wording_rule f V L :
  In (f, V) amount_wordings -> assoc f labels = Some L ->
  In (f, money_rule L) rules /\
  forall (K : cont) x rest,
    K (List.length V) rest None = Some x ->
    m true L (V ++ rest) None K = Some x.
Proof.
  intros Hin HL. simpl in Hin.
  repeat (destruct Hin as [E | Hin];
          [inversion E; subst; simpl in HL; inversion HL; subst;
           (split; [simpl; tauto|]);
           intros K x rest HK; vm_compute in HK; vm_compute; rewrite HK;
           reflexivity|]).
  contradiction.
Qed.

Lemma currency_nonempty raw : is_currency raw -> raw <> [].
Proof.
  intros (ds & d1 & d2 & -> & _) E. destruct ds; discriminate.
Qed.

End MonetaryFacts.

(** C5 (as amended) — Monetary fields: the value is the cleaned form of the
    first occurrence of the currency pattern (a run of digits and commas, a
    dot, two digits) after the field's label phrase, whatever lies in
    between, line breaks included.  In a text that reads label phrase, gap
    without an occurrence of the currency pattern, amount, with no match of
    the field's pattern further left, the field is the cleaned amount; and a
    value other than the sentinel always arises so, from the leftmost match
    of the field's pattern.  Cleaning drops the leading commas of the
    amount (and a dot they leave bare), and nothing when it starts with a
    digit.  For the text
    ["Gross Salary\n(a) as per provisions...\n1,23,456.00"] the field
    [grossSalary] is ["1,23,456.00"]. *)
Theorem monetary_value :
  (forall (f : string) (L : regex) (V pre g raw post : jsstring),
     In (f, V) amount_wordings -> assoc f labels = Some L ->
     is_currency raw ->
     (forall j, j < List.length g ->
        match_at true currencyRegex (skipn j (g ++ raw ++ post)) = None) ->
     (forall j, j < List.length pre ->
        match_at true (money_rule L)
          (skipn j (pre ++ V ++ g ++ raw ++ post)) = None) ->
     get f (extractDetails (pre ++ V ++ g ++ raw ++ post))
     = Some (dropwhile is_junk raw) /\
     (forall d rest, raw = d :: rest -> is_digit d = true ->
        dropwhile is_junk raw = raw)) /\
  (forall (text : jsstring) (f : string) (L : regex) (v : jsstring),
     In f monetary_fields -> assoc f labels = Some L ->
     get f (extractDetails text) = Some v -> v <> NotFound ->
     exists pre lab g raw post,
       text = pre ++ lab ++ g ++ raw ++ post /\
       matches true L lab /\ is_currency raw /\
       (forall j, j < List.length pre ->
          match_at true (money_rule L) (skipn j text) = None) /\
       (forall j, j < List.length g ->
          match_at true currencyRegex (skipn j (g ++ raw ++ post)) = None) /\
       v = dropwhile is_junk raw /\
       (forall d rest, raw = d :: rest -> is_digit d = true -> v = raw)) /\
  get "grossSalary"
    (extractDetails (lit "Gross Salary" ++ [LF] ++ lit "(a) as per provisions..."
                     ++ [LF] ++ lit "1,23,456.00"))
  = Some (lit "1,23,456.00").
Proof.
  split; [|split; [|vm_compute; reflexivity]].
  - intros f L V pre g raw post Hin HL Hc Hgap Hpre.
    destruct (amount_wording_rule f V L Hin HL) as [Hr Hlab].
    destruct (currency_value raw Hc) as (Eclean & _ & Hdigit).
    split.
    + rewrite (get_rule _ f (money_rule L) Hr). f_equal. unfold extract.
      rewrite String_match_skip by exact Hpre.
      rewrite (String_match_first true (money_rule L) _
                 (List.length V + (List.length g + List.length raw)) (Some raw)).
      * pose proof (currency_nonempty raw Hc) as Hne.
        destruct raw as [|r0 raw]; [congruence | exact Eclean].
      * unfold match_at, money_rule. rewrite m_seq. apply Hlab.
        apply gap_then_currency; auto.
    + intros d rest Ed Hd. rewrite <- Eclean. apply (Hdigit d rest Ed Hd).
  - intros text f L v Hf HL Hget Hv.
    assert (Hr : v = extract text (money_rule L)).
    { rewrite get_extractDetails in Hget. simpl in Hf.
      repeat (destruct Hf as [<- | Hf];
              [simpl in HL, Hget; inversion HL; subst; inversion Hget; reflexivity|]).
      contradiction. }
    destruct (extract_cases text (money_rule L)) as [E | (m0 & raw & E & _ & Ec)];
      [congruence|].
    apply String_match_sound in E.
    destruct E as (pre & post0 & Etext & _ & Hm & Hleft).
    unfold match_at, money_rule in Hm. rewrite m_seq in Hm.
    apply m_sound in Hm. destruct Hm as (lab & s1 & c1 & Hsplit & Hl & Hm).
    rewrite m_seq in Hm. unfold gap in Hm at 1. rewrite m_quant in Hm.
    apply repeat_lazy_first in Hm.
    destruct Hm as (g & s2 & -> & Hm & Hfirst).
    pose proof Hm as Hm'. apply m_sound in Hm'.
    destruct Hm' as (raw' & post & c3 & -> & Hcur & Hacc).
    apply sem_currency in Hcur. destruct Hcur as (-> & Hcur).
    unfold accept in Hacc. inversion Hacc; subst raw'; clear Hacc.
    destruct (currency_value raw Hcur) as (Eclean & _ & Hdigit).
    exists pre, lab, g, raw, post.
    split; [rewrite Etext, Hsplit; reflexivity|].
    split; [exists None, c1; exact Hl|].
    split; [exact Hcur|].
    split; [exact Hleft|].
    split.
    { intros j Hj. specialize (Hfirst j Hj). cbv beta in Hfirst.
      unfold match_at.
      refine (proj1 (m_fail_ext true currencyRegex _ _ _ _ _ _) Hfirst).
      intros n s' ca cb. unfold accept. split; discriminate. }
    split; [congruence|].
    intros d rest Ed Hd. rewrite Hr, Ec. apply (Hdigit d rest Ed Hd).
Qed.

Lemma monetary_value_witness :
  (get "grossSalary"
     (extractDetails ([] ++ lit "Gross Salary" ++ lit " " ++ lit "1.00"
                      ++ lit " Gross Salary 2.00"))
   = Some (dropwhile is_junk (lit "1.00")) /\
   (forall d rest, lit "1.00" = d :: rest -> is_digit d = true ->
      dropwhile is_junk (lit "1.00") = lit "1.00")) /\
  exists pre lab g raw post,
    lit "Gross Salary: 1,000.00" = pre ++ lab ++ g ++ raw ++ post /\
    matches true label_grossSalary lab /\ is_currency raw /\
    (forall j, j < List.length pre ->
       match_at true (money_rule label_grossSalary)
         (skipn j (lit "Gross Salary: 1,000.00")) = None) /\
    (forall j, j < List.length g ->
       match_at true currencyRegex (skipn j (g ++ raw ++ post)) = None) /\
    lit "1,000.00" = dropwhile is_junk raw /\
    (forall d rest, raw = d :: rest -> is_digit d = true -> lit "1,000.00" = raw).
Proof.
  split.
  - apply (proj1 monetary_value "grossSalary"%string label_grossSalary
             (lit "Gross Salary") [] (lit " ") (lit "1.00")
             (lit " Gross Salary 2.00")).
    + left. reflexivity.
    + reflexivity.
    + exists (lit "1"), (chr "0"), (chr "0"). repeat split; discriminate.
    + intros j Hj. destruct j as [|j]; [vm_compute; reflexivity|].
      vm_compute in Hj. lia.
    + intros j Hj. simpl in Hj. lia.
  - apply (proj1 (proj2 monetary_value) (lit "Gross Salary: 1,000.00")
             "grossSalary"%string label_grossSalary (lit "1,000.00")).
    + left. reflexivity.
    + reflexivity.
    + vm_compute. reflexivity.
    + vm_compute. discriminate.
Defined.

(** The reading of C5 as written fails on a captured value that starts with a
    comma: after the label of ["Gross Salary ,.50"] the first occurrence of
    the currency pattern is [",.50"], while the field is ["50"], which is
    no occurrence of the currency pattern at all. *)
Lemma monetary_value_counterexample :
  get "grossSalary" (extractDetails (lit "Gross Salary ,.50")) = Some (lit "50") /\
  String_match true (lit " ,.50") currencyRegex
    = Some (lit ",.50", Some (lit ",.50")) /\
  lit "50" <> lit ",.50" /\
  String_match true (lit "50") currencyRegex = None.
Proof. vm_compute. repeat split; try reflexivity. discriminate. Qed.

(** * The RegExp objects of [extractDetails] *)

Section StoreFacts.

(** Without the y flag the search from index 0 is the search of
    [String_match]. *)
Lemma search_String_match ic r : forall s pre,
  match search ic r false s (List.length pre) with
  | Some (j, (n, c)) =>
      String_match ic s r = Some (firstn n (skipn j (pre ++ s)), c)
  | None => String_match ic s r = None
  end.
Proof.
  induction s as [|ch s IH]; intros pre; simpl.
  - destruct (match_at ic r []) as [[n c]|]; [|reflexivity].
    rewrite app_nil_r, skipn_all. reflexivity.
  - destruct (match_at ic r (ch :: s)) as [[n c]|].
    + rewrite skipn_app, skipn_all, Nat.sub_diag. reflexivity.
    + specialize (IH (pre ++ [ch])).
      rewrite length_app, Nat.add_1_r, <- app_assoc in IH. exact IH.
Qed.

(** On an object without the g and the y flag, [exec] answers as
    [String_match] does, whatever [lastIndex] holds, and writes nothing. *)
Lemma exec_plain h ref R str :
  nth_error h ref = Some R -> global R = false -> sticky R = false ->
  RegExpBuiltinExec ref str h
  = (match String_match (ignoreCase R) str (source R) with
     | Some (m0, c) => Some (Some m0 :: if has_cap (source R) then [c] else [])
     | None => None
     end, h).
Proof.
  intros Hn Hg Hy. unfold RegExpBuiltinExec. rewrite Hn, Hg, Hy.
  cbn [orb Nat.ltb Nat.leb skipn].
  pose proof (search_String_match (ignoreCase R) (source R) str []) as H.
  cbn [List.length app] in H.
  destruct (search (ignoreCase R) (source R) false str 0) as [[j [n c]]|];
    rewrite H; reflexivity.
Qed.

Lemma extract_plain h ref R text :
  nth_error h ref = Some R -> global R = false -> sticky R = false ->
  ignoreCase R = true ->
  Stateful.extract text ref h = (extract text (source R), h).
Proof.
  intros Hn Hg Hy Hi. unfold Stateful.extract, bind, String_prototype_match.
  rewrite Hn, Hg, (exec_plain h ref R text Hn Hg Hy), Hi. unfold ret.
  f_equal. unfold extract.
  destruct (String_match true text (source R)) as [[m0 c]|] eqn:E; [|reflexivity].
  destruct (has_cap (source R)) eqn:Hc; [reflexivity|].
  apply String_match_sound in E. destruct E as (pre & post & _ & Hs & _).
  apply sem_nocap in Hs; [|exact Hc]. subst c. reflexivity.
Qed.

Lemma nth_error_snoc {A : Type} (h : list A) (a : A) :
  nth_error (h ++ [a]) (List.length h) = Some a.
Proof.
  induction h as [|b h IH]; [reflexivity | exact IH].
Qed.

Lemma nth_error_grow {A : Type} (h l : list A) ref a :
  nth_error h ref = Some a -> nth_error (h ++ l) ref = Some a.
Proof.
  revert ref. induction h as [|b h IH]; intros [|ref] H; try discriminate.
  - exact H.
  - simpl. apply IH. exact H.
Qed.

(** One property of the object literal: a new object with the i flag, then
    [extract]. *)
Lemma bind_field {A : Type} text r (k : jsstring -> St A) h :
  (ref <- RegExpCreate r true false false ;;
   v <- Stateful.extract text ref ;; k v) h
  = k (extract text r)
      (h ++ [{| source := r; ignoreCase := true; global := false;
                sticky := false; lastIndex := 0 |}]).
Proof.
  unfold bind at 1. unfold RegExpCreate. unfold bind at 1.
  rewrite (extract_plain _ _ _ text (nth_error_snoc h _)); reflexivity.
Qed.

Lemma bind_money {A : Type} text label cur Rc (k : jsstring -> St A) h :
  nth_error h cur = Some Rc -> source Rc = currencyRegex ->
  (ref <- Stateful.money label cur ;;
   v <- Stateful.extract text ref ;; k v) h
  = k (extract text (money_rule label))
      (h ++ [{| source := money_rule label; ignoreCase := true; global := false;
                sticky := false; lastIndex := 0 |}]).
Proof.
  intros Hn Hs. rewrite <- (bind_field text (money_rule label) k h).
  unfold Stateful.money, bind, Get_source. rewrite Hn, Hs. reflexivity.
Qed.

(** A call of [extractDetails] returns the object of the pattern-level
    definition and only adds objects to the store. *)
Lemma extractDetails_run text h :
  exists l, Stateful.extractDetails text h = (extractDetails text, h ++ l).
Proof.
  unfold Stateful.extractDetails.
  unfold bind at 1. unfold RegExpCreate at 1.
  set (c := {| source := currencyRegex; ignoreCase := false; global := false;
               sticky := false; lastIndex := 0 |}).
  assert (Hc : nth_error (h ++ [c]) (List.length h) = Some c)
    by apply nth_error_snoc.
  repeat rewrite bind_field.
  repeat (erewrite bind_money;
          [| repeat (first [exact Hc | apply nth_error_grow]) | reflexivity]).
  unfold ret. rewrite <- !app_assoc. eexists. reflexivity.
Qed.

(** The rounds of [match_all]: a match found from index [i] lies in the
    input from [i] on, so every round moves [lastIndex] forward and the fuel
    of [String_prototype_match] is never used up. *)
Lemma search_bounds ic r y : forall s i j n c,
  search ic r y s i = Some (j, (n, c)) ->
  i <= j /\ j + n <= i + List.length s.
Proof.
  induction s as [|ch s IH]; intros i j n c H; simpl in H.
  - destruct (match_at ic r []) as [[n0 c0]|] eqn:E.
    + inversion H; subst. apply match_at_sound in E.
      destruct E as (w & s' & Hs & -> & _).
      symmetry in Hs. apply app_eq_nil in Hs. destruct Hs as [-> _].
      simpl. lia.
    + destruct y; discriminate.
  - destruct (match_at ic r (ch :: s)) as [[n0 c0]|] eqn:E.
    + inversion H; subst. apply match_at_sound in E.
      destruct E as (w & s' & Hs & -> & _).
      apply (f_equal (@List.length _)) in Hs. rewrite length_app in Hs.
      simpl in *. lia.
    + destruct y; [discriminate|]. apply IH in H. simpl. lia.
Qed.

Lemma nth_error_set_lastIndex n : forall h ref R,
  nth_error h ref = Some R ->
  nth_error (set_lastIndex ref n h) ref
  = Some {| source := source R; ignoreCase := ignoreCase R; global := global R;
            sticky := sticky R; lastIndex := n |}.
Proof.
  induction h as [|R0 h IH]; intros [|ref] R H; try discriminate; simpl in *.
  - inversion H; subst. reflexivity.
  - apply IH. exact H.
Qed.

Lemma match_all_fuel ref str : forall fuel1 fuel2 A h R,
  nth_error h ref = Some R -> global R = true ->
  lastIndex R <= List.length str + 1 ->
  List.length str + 2 <= fuel1 + lastIndex R ->
  List.length str + 2 <= fuel2 + lastIndex R ->
  match_all fuel1 ref str A h = match_all fuel2 ref str A h.
Proof.
  induction fuel1 as [|fuel1 IH]; intros fuel2 A h R Hn Hg HL H1 H2; [lia|].
  destruct fuel2 as [|fuel2]; [lia|].
  cbn [match_all]. unfold bind, RegExpBuiltinExec. rewrite Hn, Hg. cbn [orb].
  destruct (List.length str <? lastIndex R) eqn:Elt; [reflexivity|].
  apply Nat.ltb_ge in Elt.
  destruct (search (ignoreCase R) (source R) (sticky R)
              (skipn (lastIndex R) str) (lastIndex R))
    as [[j [n c]]|] eqn:Es; [|reflexivity].
  apply search_bounds in Es. rewrite length_skipn in Es.
  pose proof (nth_error_set_lastIndex (j + n) h ref R Hn) as Hn1.
  set (h1 := set_lastIndex ref (j + n) h) in *.
  destruct (firstn n (skipn j str)) as [|m0 ms] eqn:Em.
  - unfold Get_lastIndex, Set_lastIndex. rewrite Hn1. cbn [lastIndex].
    pose proof (nth_error_set_lastIndex (S (j + n)) h1 ref _ Hn1) as Hn2.
    apply (IH fuel2 _ _ _ Hn2); cbn [global lastIndex]; [exact Hg | lia | lia | lia].
  - assert (Hpos : 0 < n) by (destruct n; [discriminate | lia]).
    unfold ret.
    apply (IH fuel2 _ _ _ Hn1); cbn [global lastIndex]; [exact Hg | lia | lia | lia].
Qed.

Lemma String_prototype_match_fuel ref str h R extra :
  nth_error h ref = Some R -> global R = true ->
  String_prototype_match str ref h
  = (_ <- Set_lastIndex ref 0 ;;
     match_all (List.length str + 2 + extra) ref str []) h.
Proof.
  intros Hn Hg. unfold String_prototype_match. rewrite Hn, Hg.
  unfold bind, Set_lastIndex.
  pose proof (nth_error_set_lastIndex 0 h ref R Hn) as Hn0.
  apply (match_all_fuel ref str _ _ [] _ _ Hn0); cbn [global lastIndex];
    [exact Hg | lia | lia | lia].
Qed.

End StoreFacts.

(** The store matters to [match] in general: on an object with the y flag
    the answer depends on [lastIndex], and [exec] on an object with the g
    flag moves it. *)
Example match_reads_lastIndex :
  fst (String_prototype_match (lit "a1")
         0 [{| source := digit; ignoreCase := false; global := false;
               sticky := true; lastIndex := 0 |}]) = None /\
  fst (String_prototype_match (lit "a1")
         0 [{| source := digit; ignoreCase := false; global := false;
               sticky := true; lastIndex := 1 |}]) = Some [Some (lit "1")] /\
  RegExpBuiltinExec 0 (lit "a1b2")
    [{| source := digit; ignoreCase := false; global := true;
        sticky := false; lastIndex := 0 |}]
  = (Some [Some (lit "1")],
     [{| source := digit; ignoreCase := false; global := true;
         sticky := false; lastIndex := 2 |}]) /\
  RegExpBuiltinExec 0 (lit "a1b2")
    [{| source := digit; ignoreCase := false; global := true;
        sticky := false; lastIndex := 2 |}]
  = (Some [Some (lit "2")],
     [{| source := digit; ignoreCase := false; global := true;
         sticky := false; lastIndex := 4 |}]) /\
  fst (String_prototype_match (lit "a1b2")
         0 [{| source := digit; ignoreCase := false; global := true;
               sticky := false; lastIndex := 3 |}])
  = Some [Some (lit "1"); Some (lit "2")].
Proof. vm_compute. repeat split; reflexivity. Qed.

(** C10 — Determinism: two applications of [extractDetails] to the same
    text yield identical objects, the second running in the store the first
    has left; the object does not depend on the store at all, whatever
    RegExp objects it holds and whatever their [lastIndex]: it is the object
    of the pattern-level definition, and a call changes no object that was
    there before. *)
Theorem extractDetails_deterministic (text : jsstring) (h : store) :
  fst (Stateful.extractDetails text (snd (Stateful.extractDetails text h)))
  = fst (Stateful.extractDetails text h) /\
  (forall h' : store,
     fst (Stateful.extractDetails text h') = fst (Stateful.extractDetails text h)) /\
  fst (Stateful.extractDetails text h) = extractDetails text /\
  (forall ref R, nth_error h ref = Some R ->
     nth_error (snd (Stateful.extractDetails text h)) ref = Some R).
Proof.
  destruct (extractDetails_run text h) as (l & E). rewrite E. simpl.
  destruct (extractDetails_run text (h ++ l)) as (l2 & E2). rewrite E2. simpl.
  repeat split.
  - intros h'. destruct (extractDetails_run text h') as (l' & E'). rewrite E'.
    reflexivity.
  - intros ref R H. apply nth_error_grow. exact H.
Qed.
